(** * A shallow embedding of the load balancer

    The development follows the Go packages of the repository:

    - [GoInt]        : Go's [int], as [Z] with explicit wrap-around, and
                       the conversion [int(float64)];
    - [Float64]      : the arithmetic of [float64], every operation
                       rounded to the nearest value of the format;
    - [balancer]     : the backend pool, the two selection algorithms
                       (round robin, least connections), the request
                       dispatcher [LoadBalancer.ServeHTTP], the constructor
                       and the health checker;
    - [storage]      : the [Storage] interface with its two implementations;
    - [ratelimiter]  : the token-bucket admission filter, its control API
                       and the filter in front of the balancer;
    - [config]       : the configuration and its defaults.

    Conventions.

    - A pointer into the immutable pool ([*Server]) is the index of the
      server in the pool; a [nil] pointer is [None].
    - [map[string]*TokenBucket] is a [gmap string TokenBucket]; mutating a
      bucket through its pointer is an update of the entry it is stored at.
    - [time.Time] is a clock reading in nanoseconds; every call of
      [time.Now()] consumes the next reading of a clock oracle.  Two
      readings are less than the range of [time.Duration] apart, so that
      [Sub] is the difference.
    - A finite [float64] is the rational it denotes ([Q]); an arithmetic
      operation on [float64] is the exact operation followed by the
      rounding of IEEE 754 binary64 (to nearest, ties to even).  Rates are
      finite: JSON has no notation for infinities and NaN.
    - [int] is the 64-bit integer type, as on the targets the service is
      built for.
    - Every exported operation runs atomically (the mutexes of the source
      serialise the accesses that matter here); goroutines started by an
      operation are kept in a queue and run by an explicit scheduler step.
    - Logging has no effect on the state and is left out. *)

From Stdlib Require Import ZArith QArith Qround Qpower SpecFloat Lia Lqa List.
From stdpp Require Import gmap strings list.

Local Open Scope Z_scope.

(** ** Go integers *)

Module GoInt.

Definition minInt : Z := - 2 ^ 63.
Definition maxInt : Z := 2 ^ 63 - 1.

Definition in_range (z : Z) : bool := (minInt <=? z) && (z <=? maxInt).

(** Two's complement wrap-around of a mathematical integer. *)
Definition wrap (z : Z) : Z := (z + 2 ^ 63) mod 2 ^ 64 - 2 ^ 63.

Definition add (a b : Z) : Z := wrap (a + b).
Definition sub (a b : Z) : Z := wrap (a - b).

(** Go's [/] and [%] truncate towards zero. *)
Definition quot (a b : Z) : Z := Z.quot a b.
Definition rem (a b : Z) : Z := Z.rem a b.

(** [int(x)] for a [float64] [x]: the fraction is discarded (truncation
    towards zero).  When the result does not fit, the Go specification
    leaves the value to the implementation; on amd64 the conversion
    instruction yields the smallest integer. *)
Definition of_float (x : Q) : Z :=
  let t := Z.quot (Qnum x) (Z.pos (Qden x)) in
  if in_range t then t else minInt.

End GoInt.

(** ** Go's float64

    IEEE 754 binary64: 53 significant bits, exponents of normal numbers
    from -1022 to 1023, subnormal numbers below.  The result of an
    operation is the exact result rounded to the nearest number of the
    format, to the one with an even significand when two are as near. *)

Module Float64.

Definition pow2 (e : Z) : Q := Qpower 2 e.

(** The exponent of a positive rational: [2^e <= x < 2^(e+1)] for
    [e = ilog2 x]. *)
Definition ilog2 (x : Q) : Z :=
  let e0 := Z.log2 (Qnum x) - Z.log2 (Z.pos (Qden x)) in
  if Qle_bool (pow2 e0) x then e0 else e0 - 1.

(** The nearest integer, the even one of the two at a tie. *)
Definition rne (y : Q) : Z :=
  let f := Qfloor y in
  match Qcompare (y - inject_Z f) (1 # 2) with
  | Lt => f
  | Gt => f + 1
  | Eq => if Z.even f then f else f + 1
  end.

(** The exponent of the unit in the last place at a positive [x]: the
    significand has 53 bits, and the spacing stops shrinking at 2^-1074
    (subnormal numbers). *)
Definition ulp_exp (x : Q) : Z := Z.max (ilog2 x - 52) (-1074).

Definition round_pos (x : Q) : Q :=
  (inject_Z (rne (x / pow2 (ulp_exp x))) * pow2 (ulp_exp x))%Q.

(** Rounding of an exact result.  A result beyond the largest finite
    number stays a rational beyond it, where the format has an infinity:
    the one use made of such a value, the conversion to [int], treats
    both alike. *)
Definition round (x : Q) : Q :=
  match Qcompare x 0 with
  | Eq => 0%Q
  | Gt => round_pos x
  | Lt => (- round_pos (- x))%Q
  end.

(** The largest relative error of one rounding of a normal number,
    [2^-53]. *)
Definition eps : Q := 1 # 9007199254740992.

(** [float64(z)], [x + y], [x * y] and [x / y]. *)
Definition of_int (z : Z) : Q := round (inject_Z z).
Definition add (x y : Q) : Q := round (x + y).
Definition mul (x y : Q) : Q := round (x * y).
Definition div (x y : Q) : Q := round (x / y).

(** The numbers of [SpecFloat], the specification of IEEE 754 of the
    Standard Library, for binary64: the value of a finite number, and the
    number an integer is converted to. *)
Definition of_SpecFloat (f : spec_float) : Q :=
  match f with
  | S754_finite s m e => ((if s then -1 else 1) * inject_Z (Z.pos m) * pow2 e)%Q
  | _ => 0%Q
  end.

Definition to_SpecFloat (z : Z) : spec_float := binary_normalize 53 1024 z 0 false.

End Float64.

(** A call either returns or panics. *)
Inductive outcome (A : Type) : Type :=
| Ret (a : A)
| Panic.
Arguments Ret {A} a.
Arguments Panic {A}.

(** ** Package balancer *)

Module balancer.

Record Server : Type := mkServer {
  URL : string;
  ActiveConnections : Z;
  Healthy : bool
}.

Definition IsHealthy (s : Server) : bool := Healthy s.

Definition SetHealth (healthy : bool) (s : Server) : Server :=
  {| URL := URL s; ActiveConnections := ActiveConnections s; Healthy := healthy |}.

(** *** Round robin *)

Record RoundRobin : Type := mkRoundRobin { current : Z }.

Definition NewRoundRobin : RoundRobin := {| current := -1 |}.

(** [servers[i]]: indexing outside the slice panics. *)
Definition index (servers : list Server) (i : Z) : outcome Server :=
  if i <? 0 then Panic
  else match servers !! Z.to_nat i with
       | Some s => Ret s
       | None => Panic
       end.

(** The [for] loop of [RoundRobin.NextServer]; [n] is the number of
    iterations left, [cur] the value of [rr.current]. *)
Fixpoint rr_loop (servers : list Server) (initialIdx : Z) (n : nat) (cur : Z)
  : outcome (option nat) * Z :=
  match n with
  | O => (Ret None, cur)
  | S n' =>
      let cur' := GoInt.rem (GoInt.add cur 1) (Z.of_nat (length servers)) in
      match index servers cur' with
      | Panic => (Panic, cur')
      | Ret server =>
          if IsHealthy server then (Ret (Some (Z.to_nat cur')), cur')
          else if cur' =? initialIdx then (Ret None, cur')
          else rr_loop servers initialIdx n' cur'
      end
  end.

Definition RoundRobin_NextServer (rr : RoundRobin) (servers : list Server)
  : outcome (option nat) * RoundRobin :=
  match servers with
  | [] => (Ret None, rr)
  | _ =>
      let initialIdx := current rr in
      let '(r, cur) := rr_loop servers initialIdx (length servers) (current rr) in
      (r, {| current := cur |})
  end.

(** *** Least connections *)

(** The [range] loop of [LeastConnections.NextServer]; [i] is the index of
    the head of [rest] in the pool. *)
Fixpoint lc_loop (rest : list Server) (i : nat)
         (minServer : option nat) (minConnections : Z) : option nat :=
  match rest with
  | [] => minServer
  | server :: rest' =>
      if negb (IsHealthy server) then lc_loop rest' (S i) minServer minConnections
      else
        let connections := ActiveConnections server in
        if (match minServer with None => true | Some _ => false end)
           || (connections <? minConnections)
        then lc_loop rest' (S i) (Some i) connections
        else lc_loop rest' (S i) minServer minConnections
  end.

Definition LeastConnections_NextServer (servers : list Server) : option nat :=
  match servers with
  | [] => None
  | _ => lc_loop servers 0%nat None (-1)
  end.

(** *** The interface [BalancingAlgorithm] *)

Class BalancingAlgorithm (A : Type) : Type :=
  NextServer : A -> list Server -> outcome (option nat) * A.

#[global] Instance RoundRobin_alg : BalancingAlgorithm RoundRobin :=
  RoundRobin_NextServer.

Record LeastConnections : Type := mkLeastConnections { }.

#[global] Instance LeastConnections_alg : BalancingAlgorithm LeastConnections :=
  fun lc servers => (Ret (LeastConnections_NextServer servers), lc).

(** *** The dispatcher *)

Record LoadBalancer (A : Type) : Type := mkLoadBalancer {
  servers : list Server;
  algorithm : A
}.
Arguments mkLoadBalancer {A} _ _.
Arguments servers {A} _.
Arguments algorithm {A} _.

Definition getNextServer {A} `{BalancingAlgorithm A} (lb : LoadBalancer A)
  : outcome (option nat) * LoadBalancer A :=
  let '(r, alg) := NextServer (algorithm lb) (servers lb) in
  (r, {| servers := servers lb; algorithm := alg |}).

(** What [server.ReverseProxy.ServeHTTP(w, r)] does, seen from its caller:
    it returns after writing the upstream's response, it returns after its
    [ErrorHandler] has written 502 (the upstream could not be reached), or
    it panics with [http.ErrAbortHandler] (the upstream broke off while
    the response body was being copied). *)
Inductive forwarding : Type :=
| Forwarded (status : Z)
| ForwardError
| ForwardAbort.

Definition StatusServiceUnavailable : Z := 503.
Definition StatusBadGateway : Z := 502.

Definition add_connections (d : Z) (s : Server) : Server :=
  {| URL := URL s;
     ActiveConnections := GoInt.add (ActiveConnections s) d;
     Healthy := Healthy s |}.

(** [server.ActiveConnections++] and [server.ActiveConnections--] on the
    server at index [i]. *)
Definition increment {A} (i : nat) (lb : LoadBalancer A) : LoadBalancer A :=
  {| servers := alter (add_connections 1) i (servers lb); algorithm := algorithm lb |}.

Definition decrement {A} (i : nat) (lb : LoadBalancer A) : LoadBalancer A :=
  {| servers := alter (add_connections (-1)) i (servers lb); algorithm := algorithm lb |}.

(** [ServeHTTP], with the behaviour of the reverse proxy for this request
    given by [fwd].  The result is the status written to the client, or
    [Panic] when the handler is left by a panic. *)
Definition ServeHTTP {A} `{BalancingAlgorithm A} (fwd : forwarding) (lb : LoadBalancer A)
  : outcome Z * LoadBalancer A :=
  match getNextServer lb with
  | (Panic, lb1) => (Panic, lb1)
  | (Ret None, lb1) => (Ret StatusServiceUnavailable, lb1)
  | (Ret (Some server), lb1) =>
      let lb2 := increment server lb1 in
      match fwd with
      | ForwardAbort => (Panic, lb2)
      | ForwardError => (Ret StatusBadGateway, decrement server lb2)
      | Forwarded status => (Ret status, decrement server lb2)
      end
  end.

(** *** Servers *)
Definition Servers {A} (lb : LoadBalancer A) : list Server := servers lb.

(** *** NewLoadBalancer

    The value of the interface [BalancingAlgorithm] the constructor stores
    is one of the two implementations. *)
Inductive Algorithm : Type :=
| UseRoundRobin (rr : RoundRobin)
| UseLeastConnections (lc : LeastConnections).

#[global] Instance Algorithm_alg : BalancingAlgorithm Algorithm :=
  fun alg servers =>
    match alg with
    | UseRoundRobin rr =>
        let '(r, rr') := NextServer rr servers in (r, UseRoundRobin rr')
    | UseLeastConnections lc =>
        let '(r, lc') := NextServer lc servers in (r, UseLeastConnections lc')
    end.

Definition NewLeastConnections : LeastConnections := mkLeastConnections.

(** The two errors of the constructor. *)
Inductive construction_error : Type :=
| InvalidURL (backend : string)
| UnknownAlgorithm (algorithmName : string).

Section Construction.

(** [url.Parse]: the parsed URL, or [None] when the address is rejected. *)
Variable url_Parse : string -> option string.

(** The [range] loop over the configured addresses; [servers] is the slice
    built so far. *)
Fixpoint appendServers (backends : list string) (servers : list Server)
  : list Server + construction_error :=
  match backends with
  | [] => inl servers
  | backend :: rest =>
      match url_Parse backend with
      | None => inr (InvalidURL backend)
      | Some url =>
          appendServers rest
            (servers ++ [{| URL := url; ActiveConnections := 0; Healthy := true |}])
      end
  end.

Definition NewLoadBalancer (backends : list string) (algorithmName : string)
  : LoadBalancer Algorithm + construction_error :=
  match appendServers backends [] with
  | inr e => inr e
  | inl servers =>
      if bool_decide (algorithmName = "round-robin") then
        inl {| servers := servers; algorithm := UseRoundRobin NewRoundRobin |}
      else if bool_decide (algorithmName = "least-connections") then
        inl {| servers := servers; algorithm := UseLeastConnections NewLeastConnections |}
      else inr (UnknownAlgorithm algorithmName)
  end.

End Construction.

(** *** The health checker

    What one probe of a server comes to: the request could not be built,
    [client.Do] failed (no connection, timeout), or a response arrived. *)
Inductive probe : Type :=
| RequestError
| TransportError
| Response (StatusCode : Z).

(** The lines [checkServer] writes to the log. *)
Inductive health_log : Type :=
| LogRequestError
| LogUnavailable
| LogAvailableAgain.

Definition StatusOK : Z := 200.

Definition checkServer (p : probe) (server : Server) : Server * list health_log :=
  match p with
  | RequestError => (server, [LogRequestError])
  | TransportError =>
      let wasHealthy := IsHealthy server in
      (SetHealth false server, if wasHealthy then [LogUnavailable] else [])
  | Response StatusCode =>
      let wasHealthy := IsHealthy server in
      if negb (StatusCode =? StatusOK) then
        (SetHealth false server, if wasHealthy then [LogUnavailable] else [])
      else
        (SetHealth true server, if negb wasHealthy then [LogAvailableAgain] else [])
  end.

(** [checkServers]: one goroutine per server, each writing to its own
    server only; [probes i] is what the probe of the server at index [i]
    comes to.  The result pairs every server with the lines its goroutine
    logged. *)
Definition checkServers (probes : nat -> probe) (servers : list Server)
  : list (Server * list health_log) :=
  imap (fun i server => checkServer (probes i) server) servers.

End balancer.

(** ** The vocabulary of the properties of the balancer *)

Module balancer_spec.

Import balancer.

(** The position the round-robin cursor reaches from [c] after [j]
    advances over the pool. *)
Definition rr_position (servers : list Server) (c j : Z) : Z :=
  (c + j) mod Z.of_nat (length servers).

(** The server at index [i] is healthy, no healthy server of the pool has
    fewer active connections, and every healthy server before it has
    more. *)
Definition least_connected (servers : list Server) (i : nat) : Prop :=
  exists s, servers !! i = Some s /\ Healthy s = true
    /\ forall (j : nat) s', servers !! j = Some s' -> Healthy s' = true ->
         ActiveConnections s <= ActiveConnections s'
         /\ ((j < i)%nat -> ActiveConnections s < ActiveConnections s').

(** The state of the least-connections scan after the servers of [pre] have
    been seen. *)
Definition lc_scanned (pre : list Server) (minServer : option nat) (minConnections : Z)
  : Prop :=
  match minServer with
  | None => forall s, s ∈ pre -> Healthy s = false
  | Some m => least_connected pre m
              /\ exists s, pre !! m = Some s /\ ActiveConnections s = minConnections
  end.

(** The active count of a server is a value of type [int]. *)
Definition connections_in_range (s : Server) : Prop :=
  GoInt.minInt <= ActiveConnections s <= GoInt.maxInt.

(** [k] consecutive picks over an unchanging pool. *)
Fixpoint picks {A} `{BalancingAlgorithm A} (k : nat) (alg : A) (servers : list Server)
  : list (outcome (option nat)) :=
  match k with
  | O => []
  | S k' => let '(r, alg') := NextServer alg servers in r :: picks k' alg' servers
  end.

(** The round-robin cursor of a balancer is the fresh one or points into
    the pool. *)
Definition cursor_in_pool (lb : LoadBalancer Algorithm) : Prop :=
  match algorithm lb with
  | UseRoundRobin rr => -1 <= current rr < Z.of_nat (length (servers lb))
                        \/ (servers lb = [] /\ current rr = -1)
  | UseLeastConnections _ => True
  end.

(** A probe that marks its server unavailable. *)
Definition failed (p : probe) : Prop :=
  match p with
  | RequestError => False
  | TransportError => True
  | Response StatusCode => StatusCode <> StatusOK
  end.

End balancer_spec.

(** ** Package storage *)

Module storage.

Record ClientLimit : Type := mkClientLimit {
  Capacity : Z;
  RefillRate : Q
}.

(** A non-nil Go [error]. *)
Inductive error : Type := Err (msg : string).

(** The interface [Storage].  An operation returns its results, the error
    ([None] is [nil]) and the storage after the call. *)
Class Storage (S : Type) : Type := {
  SaveClientLimit : string -> Z -> Q -> S -> option error * S;
  GetClientLimit : string -> S -> Z * Q * bool * option error;
  LoadAllClientLimits : S -> gmap string ClientLimit * option error;
  DeleteClientLimit : string -> S -> option error * S;
  Close : S -> option error * S
}.

(** *** The in-memory implementation *)

Record MemoryStorage : Type := mkMemoryStorage {
  limits : gmap string ClientLimit
}.

Definition NewMemoryStorage : MemoryStorage := {| limits := ∅ |}.

#[global] Instance MemoryStorage_Storage : Storage MemoryStorage := {
  SaveClientLimit clientID capacity refillRate s :=
    (None, {| limits := <[clientID := mkClientLimit capacity refillRate]> (limits s) |});
  GetClientLimit clientID s :=
    match limits s !! clientID with
    | None => (0, 0%Q, false, None)
    | Some limit => (Capacity limit, RefillRate limit, true, None)
    end;
  LoadAllClientLimits s := (limits s, None);
  DeleteClientLimit clientID s := (None, {| limits := delete clientID (limits s) |});
  Close s := (None, s)
}.

(** *** The PostgreSQL implementation

    The database behind [*sql.DB] is the table [rate_limits] (its columns
    [capacity] and [refill_rate], keyed by [client_id]) and a flag telling
    whether statements reach the server; a statement that does not reach
    it fails and changes nothing. *)

Record PostgresStorage : Type := mkPostgresStorage {
  rate_limits : gmap string ClientLimit;
  reachable : bool
}.

#[global] Instance PostgresStorage_Storage : Storage PostgresStorage := {
  SaveClientLimit clientID capacity refillRate s :=
    if reachable s then
      (None, {| rate_limits := <[clientID := mkClientLimit capacity refillRate]> (rate_limits s);
                reachable := true |})
    else (Some (Err "ошибка сохранения лимита"), s);
  GetClientLimit clientID s :=
    if reachable s then
      match rate_limits s !! clientID with
      | None => (0, 0%Q, false, None)
      | Some limit => (Capacity limit, RefillRate limit, true, None)
      end
    else (0, 0%Q, false, Some (Err "ошибка получения лимита"));
  LoadAllClientLimits s :=
    if reachable s then (rate_limits s, None)
    else (∅, Some (Err "ошибка загрузки лимитов"));
  DeleteClientLimit clientID s :=
    if reachable s then
      (None, {| rate_limits := delete clientID (rate_limits s); reachable := true |})
    else (Some (Err "ошибка удаления лимита"), s);
  Close s := (None, {| rate_limits := rate_limits s; reachable := false |})
}.

End storage.

(** ** Package ratelimiter *)

Module ratelimiter.

Record TokenBucket : Type := mkTokenBucket {
  capacity : Z;
  tokens : Z;
  refillRate : Q;
  lastRefill : Z;
  lastAccess : Z
}.

Record RateLimiter (S : Type) : Type := mkRateLimiter {
  buckets : gmap string TokenBucket;
  defaultCap : Z;
  defaultRate : Q;
  storage : option S
}.
Arguments mkRateLimiter {S} _ _ _ _.
Arguments buckets {S} _.
Arguments defaultCap {S} _.
Arguments defaultRate {S} _.
Arguments storage {S} _.

(** A goroutine started by [getBucket]: it saves the default settings of a
    client. *)
Record SaveTask : Type := mkSaveTask {
  task_client : string;
  task_capacity : Z;
  task_rate : Q
}.

(** The limiter together with what surrounds it: the number of clock
    readings taken so far and the goroutines that have not run yet. *)
Record World (S : Type) : Type := mkWorld {
  limiter : RateLimiter S;
  ticks : nat;
  goroutines : list SaveTask
}.
Arguments mkWorld {S} _ _ _.
Arguments limiter {S} _.
Arguments ticks {S} _.
Arguments goroutines {S} _.

(** [time.Duration] constants, in nanoseconds. *)
Definition Second : Z := 1000000000.
Definition Minute : Z := 60 * Second.

(** [d.Seconds()]: [sec := d / Second], [nsec := d % Second],
    [float64(sec) + float64(nsec)/1e9]. *)
Definition Seconds (d : Z) : Q :=
  let sec := GoInt.quot d Second in
  let nsec := GoInt.rem d Second in
  Float64.add (Float64.of_int sec) (Float64.div (Float64.of_int nsec) 1000000000).

(** JSON bodies of the control API. *)
Record ClientLimitRequest : Type := mkClientLimitRequest {
  req_Capacity : Z;
  req_RefillRate : Q
}.

Definition StatusOK : Z := 200.
Definition StatusCreated : Z := 201.
Definition StatusBadRequest : Z := 400.
Definition StatusNotFound : Z := 404.
Definition StatusInternalServerError : Z := 500.

Record ClientLimitResponse : Type := mkClientLimitResponse {
  resp_ClientID : string;
  resp_Capacity : Z;
  resp_RefillRate : Q;
  resp_Message : string
}.

Definition StatusTooManyRequests : Z := 429.

Section Limiter.

Context {S : Type} `{storage.Storage S}.

(** The clock oracle: [clk n] is the value of the [n]-th call of
    [time.Now()]. *)
Variable clk : nat -> Z.

(** Computations over the world. *)
Definition M (A : Type) : Type := World S -> A * World S.

Definition ret {A} (a : A) : M A := fun w => (a, w).

Definition bind {A B} (m : M A) (k : A -> M B) : M B :=
  fun w => let '(a, w') := m w in k a w'.

Notation "x <- m ;; k" := (bind m (fun x => k))
  (at level 100, m at next level, right associativity).
Notation "m ;;; k" := (bind m (fun _ => k))
  (at level 100, right associativity).

Definition time_Now : M Z :=
  fun w => (clk (ticks w),
            {| limiter := limiter w; ticks := Datatypes.S (ticks w);
               goroutines := goroutines w |}).

Definition get_limiter : M (RateLimiter S) := fun w => (limiter w, w).

Definition set_buckets (m : gmap string TokenBucket) : M unit :=
  fun w => (tt, {| limiter := {| buckets := m;
                                 defaultCap := defaultCap (limiter w);
                                 defaultRate := defaultRate (limiter w);
                                 storage := storage (limiter w) |};
                   ticks := ticks w; goroutines := goroutines w |}).

Definition set_storage (st : S) : M unit :=
  fun w => (tt, {| limiter := {| buckets := buckets (limiter w);
                                 defaultCap := defaultCap (limiter w);
                                 defaultRate := defaultRate (limiter w);
                                 storage := Some st |};
                   ticks := ticks w; goroutines := goroutines w |}).

(** [rl.buckets[clientID] = bucket], and a write through the pointer
    stored there. *)
Definition put_bucket (clientID : string) (bucket : TokenBucket) : M unit :=
  rl <- get_limiter ;; set_buckets (<[clientID := bucket]> (buckets rl)).

Definition go (t : SaveTask) : M unit :=
  fun w => (tt, {| limiter := limiter w; ticks := ticks w;
                   goroutines := goroutines w ++ [t] |}).

(** *** createBucketInMemory *)
Definition createBucketInMemory (clientID : string) (capacity : Z) (refillRate : Q)
  : M unit :=
  now <- time_Now ;;
  put_bucket clientID
    {| capacity := capacity; tokens := capacity; refillRate := refillRate;
       lastRefill := now; lastAccess := now |}.

(** *** loadLimitsFromStorage *)
Fixpoint createBuckets (l : list (string * storage.ClientLimit)) : M unit :=
  match l with
  | [] => ret tt
  | (clientID, limit) :: l' =>
      createBucketInMemory clientID (storage.Capacity limit) (storage.RefillRate limit) ;;;
      createBuckets l'
  end.

Definition loadLimitsFromStorage : M unit :=
  rl <- get_limiter ;;
  match storage rl with
  | None => ret tt
  | Some st =>
      let '(clientLimits, err) := storage.LoadAllClientLimits st in
      match err with
      | Some _ => ret tt
      | None => createBuckets (map_to_list clientLimits)
      end
  end.

(** *** refillBucket

    [refill_at now bucket] is the body of [refillBucket] once the clock has
    been read. *)
Definition refill_at (now : Z) (bucket : TokenBucket) : TokenBucket :=
  let elapsed := Seconds (now - lastRefill bucket) in
  let newTokens := GoInt.of_float (Float64.mul elapsed (refillRate bucket)) in
  if 0 <? newTokens then
    let tokens1 := GoInt.add (tokens bucket) newTokens in
    let tokens2 := if capacity bucket <? tokens1 then capacity bucket else tokens1 in
    {| capacity := capacity bucket; tokens := tokens2;
       refillRate := refillRate bucket;
       lastRefill := now; lastAccess := lastAccess bucket |}
  else bucket.

Definition refillBucket (bucket : TokenBucket) : M TokenBucket :=
  now <- time_Now ;;
  ret (refill_at now bucket).

(** *** getBucket *)
Definition getBucket (clientID : string) : M TokenBucket :=
  rl <- get_limiter ;;
  match buckets rl !! clientID with
  | Some bucket => ret bucket
  | None =>
      let '(capacity, refillRate, storedSettings) :=
        match storage rl with
        | None => (defaultCap rl, defaultRate rl, false)
        | Some st =>
            let '(storedCapacity, storedRate, exists_, err) :=
              storage.GetClientLimit clientID st in
            match err with
            | Some _ => (defaultCap rl, defaultRate rl, false)
            | None =>
                if exists_ then (storedCapacity, storedRate, true)
                else (defaultCap rl, defaultRate rl, false)
            end
        end in
      now <- time_Now ;;
      let bucket := {| capacity := capacity; tokens := capacity;
                       refillRate := refillRate;
                       lastRefill := now; lastAccess := now |} in
      put_bucket clientID bucket ;;;
      (if (match storage rl with Some _ => true | None => false end)
          && negb storedSettings
       then go (mkSaveTask clientID capacity refillRate)
       else ret tt) ;;;
      ret bucket
  end.

(** *** Allow *)
Definition Allow (clientID : string) : M bool :=
  bucket <- getBucket clientID ;;
  bucket <- refillBucket bucket ;;
  now <- time_Now ;;
  let bucket := {| capacity := capacity bucket; tokens := tokens bucket;
                   refillRate := refillRate bucket;
                   lastRefill := lastRefill bucket; lastAccess := now |} in
  if 0 <? tokens bucket then
    put_bucket clientID
      {| capacity := capacity bucket; tokens := GoInt.sub (tokens bucket) 1;
         refillRate := refillRate bucket;
         lastRefill := lastRefill bucket; lastAccess := lastAccess bucket |} ;;;
    ret true
  else
    put_bucket clientID bucket ;;;
    ret false.

(** *** refillTokens: one tick of the ticker *)
Fixpoint refillEach (clients : list string) : M unit :=
  match clients with
  | [] => ret tt
  | clientID :: clients' =>
      rl <- get_limiter ;;
      match buckets rl !! clientID with
      | None => ret tt
      | Some bucket =>
          bucket <- refillBucket bucket ;;
          put_bucket clientID bucket
      end ;;;
      refillEach clients'
  end.

Definition refillTokens : M unit :=
  rl <- get_limiter ;;
  refillEach (map fst (map_to_list (buckets rl))).

(** *** cleanupInactiveBuckets: one tick of the ticker *)
Definition cleanupInactiveBuckets : M unit :=
  now <- time_Now ;;
  let inactiveThreshold := 30 * Minute in
  rl <- get_limiter ;;
  set_buckets
    (filter (fun kb => ¬ (now - lastAccess (snd kb) > inactiveThreshold))
            (buckets rl)).

(** *** SetClientLimit *)
Definition SetClientLimit (clientID : string) (capacity : Z) (refillRate : Q)
  : M unit :=
  rl <- get_limiter ;;
  match buckets rl !! clientID with
  | Some bucket =>
      put_bucket clientID
        {| capacity := capacity;
           tokens := if capacity <? tokens bucket then capacity else tokens bucket;
           refillRate := refillRate;
           lastRefill := lastRefill bucket; lastAccess := lastAccess bucket |}
  | None =>
      now <- time_Now ;;
      put_bucket clientID
        {| capacity := capacity; tokens := capacity; refillRate := refillRate;
           lastRefill := now; lastAccess := now |}
  end ;;;
  match storage rl with
  | None => ret tt
  | Some st =>
      let '(err, st') := storage.SaveClientLimit clientID capacity refillRate st in
      set_storage st'
  end.

(** *** GetClientLimit *)
Definition GetClientLimit (clientID : string) : M (Z * Q * bool) :=
  rl <- get_limiter ;;
  match buckets rl !! clientID with
  | None => ret (defaultCap rl, defaultRate rl, false)
  | Some bucket => ret (capacity bucket, refillRate bucket, true)
  end.

(** *** DeleteClientLimit *)
Definition DeleteClientLimit (clientID : string) : M (option storage.error) :=
  rl <- get_limiter ;;
  set_buckets (delete clientID (buckets rl)) ;;;
  match storage rl with
  | None => ret None
  | Some st =>
      let '(err, st') := storage.DeleteClientLimit clientID st in
      set_storage st' ;;;
      ret err
  end.

(** *** NewRateLimiter

    The limiter right after construction, and the goroutines the
    constructor starts with [go limiter.refillTokens()] and
    [go limiter.cleanupInactiveBuckets()], in this order.  Both loop over
    a ticker for as long as the process lives; one turn of a loop is the
    step [OpRefillTokens] or [OpCleanup] below. *)
Inductive ticker : Type :=
| RefillTokensLoop
| CleanupInactiveBucketsLoop.

(** [time.NewTicker(1 * time.Second)] and [time.NewTicker(60 * time.Second)]. *)
Definition ticker_period (t : ticker) : Z :=
  match t with
  | RefillTokensLoop => 1 * Second
  | CleanupInactiveBucketsLoop => 60 * Second
  end.

Definition NewRateLimiter (defaultCap : Z) (defaultRate : Q) (storage : option S)
  : World S * list ticker :=
  let limiter := {| limiter := {| buckets := ∅; defaultCap := defaultCap;
                                  defaultRate := defaultRate; storage := storage |};
                    ticks := 0%nat; goroutines := [] |} in
  let limiter := match storage with
                 | Some _ => snd (loadLimitsFromStorage limiter)
                 | None => limiter
                 end in
  (limiter, [RefillTokensLoop; CleanupInactiveBucketsLoop]).

(** *** The control API

    A handler gets the decoded body ([None] when decoding fails) and the
    client identifier of the request, and returns the status it writes. *)
Definition CreateClientHandler (body : option ClientLimitRequest) (clientID : string)
  : M Z :=
  match body with
  | None => ret StatusBadRequest
  | Some req =>
      if bool_decide (clientID = "") then ret StatusBadRequest
      else
        SetClientLimit clientID (req_Capacity req) (req_RefillRate req) ;;;
        ret StatusCreated
  end.

Definition UpdateClientHandler (body : option ClientLimitRequest) (clientID : string)
  : M Z :=
  match body with
  | None => ret StatusBadRequest
  | Some req =>
      r <- GetClientLimit clientID ;;
      let '(_, _, exists_) := r in
      if negb exists_ then ret StatusNotFound
      else
        SetClientLimit clientID (req_Capacity req) (req_RefillRate req) ;;;
        ret StatusOK
  end.

Definition GetClientHandler (clientID : string) : M (Z * option (Z * Q)) :=
  r <- GetClientLimit clientID ;;
  let '(capacity, refillRate, exists_) := r in
  if negb exists_ then ret (StatusNotFound, None)
  else ret (StatusOK, Some (capacity, refillRate)).

Definition DeleteClientHandler (clientID : string) : M Z :=
  r <- GetClientLimit clientID ;;
  let '(_, _, exists_) := r in
  if negb exists_ then ret StatusNotFound
  else
    err <- DeleteClientLimit clientID ;;
    match err with
    | Some _ => ret StatusInternalServerError
    | None => ret StatusOK
    end.

(** *** Goroutines

    The scheduler runs the oldest goroutine started by [getBucket]: it
    saves the default settings and only logs a failure. *)
Definition run_goroutine : M unit :=
  fun w =>
    match goroutines w with
    | [] => (tt, w)
    | t :: rest =>
        let w' := {| limiter := limiter w; ticks := ticks w; goroutines := rest |} in
        match storage (limiter w) with
        | None => (tt, w')
        | Some st =>
            let '(err, st') :=
              storage.SaveClientLimit (task_client t) (task_capacity t) (task_rate t) st in
            set_storage st' w'
        end
    end.

(** *** Histories

    What can happen to a limiter, one step at a time. *)
Inductive op : Type :=
| OpAllow (clientID : string)
| OpRefillTokens
| OpCleanup
| OpSetClientLimit (clientID : string) (capacity : Z) (refillRate : Q)
| OpGetClientLimit (clientID : string)
| OpDeleteClientLimit (clientID : string)
| OpGoroutine.

Inductive result : Type :=
| RAllow (allowed : bool)
| RLimit (limit : Z * Q * bool)
| RError (err : option storage.error)
| RDone.

Definition step (o : op) : M result :=
  match o with
  | OpAllow clientID => b <- Allow clientID ;; ret (RAllow b)
  | OpRefillTokens => refillTokens ;;; ret RDone
  | OpCleanup => cleanupInactiveBuckets ;;; ret RDone
  | OpSetClientLimit clientID capacity refillRate =>
      SetClientLimit clientID capacity refillRate ;;; ret RDone
  | OpGetClientLimit clientID => r <- GetClientLimit clientID ;; ret (RLimit r)
  | OpDeleteClientLimit clientID => e <- DeleteClientLimit clientID ;; ret (RError e)
  | OpGoroutine => run_goroutine ;;; ret RDone
  end.

Fixpoint run (ops : list op) : M (list result) :=
  match ops with
  | [] => ret []
  | o :: ops' => r <- step o ;; rs <- run ops' ;; ret (r :: rs)
  end.

(** *** GetAllClients and its handler

    The list follows the order in which the map is ranged over, which Go
    leaves unspecified. *)
Definition GetAllClients : M (list ClientLimitResponse) :=
  rl <- get_limiter ;;
  ret (map (fun kb => {| resp_ClientID := fst kb;
                         resp_Capacity := capacity (snd kb);
                         resp_RefillRate := refillRate (snd kb);
                         resp_Message := "" |})
           (map_to_list (buckets rl))).

Definition ListClientsHandler : M (Z * list ClientLimitResponse) :=
  clients <- GetAllClients ;;
  ret (StatusOK, clients).

End Limiter.

Arguments op : clear implicits.
Arguments result : clear implicits.

(** [getClientID], from the value of the header [X-API-Key] and the
    remote address of the request. *)
Definition getClientID (apiKey remoteAddr : string) : string :=
  if bool_decide (apiKey = "") then "ip:" +:+ remoteAddr else apiKey.

(** [RateLimitMiddleware]: the filter in front of the handler [next],
    which acts on a state of its own. *)
Definition RateLimitMiddleware {S} `{storage.Storage S} {T} (clk : nat -> Z)
           (next : T -> outcome Z * T) (apiKey remoteAddr : string)
           (st : World S * T) : outcome Z * (World S * T) :=
  let clientID := getClientID apiKey remoteAddr in
  let '(allowed, w) := Allow clk clientID (fst st) in
  if negb allowed then (Ret StatusTooManyRequests, (w, snd st))
  else let '(r, t) := next (snd st) in (r, (w, t)).

End ratelimiter.

(** ** The vocabulary of the properties of the limiter *)

Module limiter_spec.

Import ratelimiter.

(** The number of calls [Allow clientID] of a history that returned
    [true]. *)
Fixpoint allowed_count (clientID : string) (ops : list op) (rs : list result) : nat :=
  match ops, rs with
  | OpAllow c :: ops', RAllow b :: rs' =>
      ((if bool_decide (c = clientID) && b then 1 else 0) + allowed_count clientID ops' rs')%nat
  | _ :: ops', _ :: rs' => allowed_count clientID ops' rs'
  | _, _ => 0%nat
  end.

(** The bucket [SetClientLimit] leaves for a client that has one. *)
Definition reconfigure (capacity : Z) (refillRate : Q) (b : TokenBucket) : TokenBucket :=
  {| capacity := capacity;
     tokens := Z.min (tokens b) capacity;
     refillRate := refillRate;
     lastRefill := lastRefill b;
     lastAccess := lastAccess b |}.

(** The steps that leave the bucket of [clientID] in the table and its
    limits within [ok_set]: every step but [DeleteClientLimit] for this
    client, [SetClientLimit] for this client with limits [ok_set] does not
    accept, and an eviction tick that removes the bucket; [after] is the
    world the step leaves.  An eviction tick that finds the bucket in use
    leaves it. *)
Definition stays {S} (ok_set : Z -> Q -> Prop) (clientID : string) (o : op)
           (after : World S) : Prop :=
  match o with
  | OpSetClientLimit c capacity refillRate => c <> clientID \/ ok_set capacity refillRate
  | OpDeleteClientLimit c => c <> clientID
  | OpCleanup => is_Some (buckets (limiter after) !! clientID)
  | _ => True
  end.

(** The histories from the world [w] all of whose steps do. *)
Fixpoint bucket_stays {S} `{storage.Storage S} (clk : nat -> Z)
         (ok_set : Z -> Q -> Prop) (clientID : string)
         (ops : list op) (w : World S) : Prop :=
  match ops with
  | [] => True
  | o :: ops' =>
      stays ok_set clientID o (snd (step clk o w))
      /\ bucket_stays clk ok_set clientID ops' (snd (step clk o w))
  end.

(** No limits: [SetClientLimit] is not called for the client, so that the
    limits of its bucket stay as they are. *)
Definition no_limits (capacity : Z) (refillRate : Q) : Prop := False.

(** The bucket a successful or failed [Allow] leaves behind, given the
    bucket after the refill and the reading taken for [lastAccess]. *)
Definition consume (now : Z) (b : TokenBucket) : TokenBucket :=
  {| capacity := capacity b;
     tokens := if 0 <? tokens b then GoInt.sub (tokens b) 1 else tokens b;
     refillRate := refillRate b;
     lastRefill := lastRefill b;
     lastAccess := now |}.

(** The fields of type [int] of a bucket hold values of that type. *)
Definition bucket_wf (b : TokenBucket) : Prop :=
  (GoInt.minInt <= tokens b <= GoInt.maxInt)
  /\ (GoInt.minInt <= capacity b <= GoInt.maxInt).

(** The length of [d] nanoseconds in seconds, as a real number. *)
Definition seconds (d : Z) : Q := d # 1000000000.

(** The product [elapsed * refillRate] of the code goes through three
    roundings, two in [Seconds] and one of the product; each changes the
    value by at most one part in 2^53, so that the product of the code is
    at most [1 + 2^-51] times the exact one. *)
Definition rounding : Q := 1 + (1 # 2251799813685248).

(** The factor of the bounds, [1 + 2^-50]. *)
Definition slack : Q := 1 + (1 # 1125899906842624).

(** The tokens a bucket holds or can still be given up to the instant
    [tend], at the rate [rate]. *)
Definition potential (tend : Z) (rate : Q) (b : TokenBucket) : Q :=
  inject_Z (Z.max (tokens b) 0) + seconds (tend - lastRefill b) * rate * rounding.

(** The invariant of the history of a bucket with the limits [cap] and
    [rate]: what has been allowed ([n] requests) and what can still be
    allowed up to [tend] stay within [budget]. *)
Definition within_budget (tend : Z) (rate : Q) (cap : Z) (budget : Q)
           (n : nat) (b : TokenBucket) : Prop :=
  bucket_wf b /\ refillRate b = rate /\ capacity b = cap
  /\ lastRefill b <= tend
  /\ (inject_Z (Z.of_nat n) + potential tend rate b <= budget)%Q.

(** The invariant of the history of a bucket whose capacity [cap] is not
    positive: it never holds a token and no request has been allowed. *)
Definition exhausted (cap : Z) (n : nat) (b : TokenBucket) : Prop :=
  n = 0%nat /\ bucket_wf b /\ capacity b = cap /\ tokens b <= cap.

(** The refill and the decrement in the words of the specification
    (section 4.5): [added] is the floor of the elapsed seconds times the
    rate, the new count is the lesser of [tokens + added] and the
    capacity, over the integers. *)
Definition refill_with (added : Z) (now : Z) (b : TokenBucket) : TokenBucket :=
  if 0 <? added then
    {| capacity := capacity b;
       tokens := Z.min (tokens b + added) (capacity b);
       refillRate := refillRate b;
       lastRefill := now;
       lastAccess := lastAccess b |}
  else b.

Definition spec_refill (now : Z) (b : TokenBucket) : TokenBucket :=
  let delta := seconds (now - lastRefill b) in
  let added := Qfloor (delta * refillRate b) in
  refill_with added now b.

Definition spec_consume (b : TokenBucket) : bool * TokenBucket :=
  if 0 <? tokens b then
    (true, {| capacity := capacity b; tokens := tokens b - 1;
              refillRate := refillRate b;
              lastRefill := lastRefill b; lastAccess := lastAccess b |})
  else (false, b).

(** The invariant of the history of a bucket whose limits stay within
    [cap_max] and [rate_max] and whose refills happen between [t0] and
    [t0 + span]. *)
Definition in_bounds (t0 span cap_max : Z) (rate_max : Q)
           (n : nat) (b : TokenBucket) : Prop :=
  0 <= tokens b <= capacity b /\ capacity b <= cap_max
  /\ (- rate_max <= refillRate b <= rate_max)%Q
  /\ t0 <= lastRefill b <= t0 + span.

(** The limits [SetClientLimit] may be called with in such a history. *)
Definition positive_limits (cap_max : Z) (rate_max : Q)
           (capacity : Z) (refillRate : Q) : Prop :=
  0 < capacity <= cap_max /\ (- rate_max <= refillRate <= rate_max)%Q.

(** The invariants of the history of a bucket inside a window that starts
    at [start], some time after the last refill.  Until the first refill
    of the window the bucket is as it was, with nothing allowed.  From
    then on, at the clock reading [lo] and later, it either stays within
    the budget, or the time since its last refill is worth more tokens
    than an [int] holds: the conversion then gives a negative number, the
    bucket is never refilled again and serves what it holds. *)
Definition window_untouched (start tend : Z) (rate : Q) (cap : Z)
           (n : nat) (b : TokenBucket) : Prop :=
  n = 0%nat /\ bucket_wf b /\ refillRate b = rate /\ capacity b = cap
  /\ tokens b <= cap /\ lastRefill b <= start
  /\ tend - lastRefill b <= GoInt.maxInt.

Definition window_stuck (tend : Z) (rate : Q) (cap : Z) (lo : Z)
           (n : nat) (b : TokenBucket) : Prop :=
  bucket_wf b /\ refillRate b = rate /\ capacity b = cap
  /\ Z.of_nat n + Z.max (tokens b) 0 <= cap
  /\ lastRefill b <= lo
  /\ tend - lastRefill b <= GoInt.maxInt
  /\ (inject_Z (2 ^ 63) <= Float64.mul (Seconds (lo - lastRefill b)) rate)%Q.

Definition window_touched (tend : Z) (rate : Q) (cap : Z) (budget : Q) (lo : Z)
           (n : nat) (b : TokenBucket) : Prop :=
  within_budget tend rate cap budget n b \/ window_stuck tend rate cap lo n b.

Definition window_budget (start tend : Z) (rate : Q) (cap : Z) (budget : Q) (lo : Z)
           (n : nat) (b : TokenBucket) : Prop :=
  window_untouched start tend rate cap n b \/ window_touched tend rate cap budget lo n b.

(** [n] requests with the same API key from the same address through the
    filter in front of [next]: the answers and the states they leave. *)
Fixpoint serve {S} `{storage.Storage S} {T} (clk : nat -> Z)
         (next : T -> outcome Z * T) (apiKey remoteAddr : string)
         (n : nat) (st : World S * T) : list (outcome Z) * (World S * T) :=
  match n with
  | O => ([], st)
  | Datatypes.S n' =>
      let '(r, st1) := RateLimitMiddleware clk next apiKey remoteAddr st in
      let '(rs, st2) := serve clk next apiKey remoteAddr n' st1 in
      (r :: rs, st2)
  end.

(** The steps of a history that are neither an administrative change nor
    a goroutine. *)
Definition request_or_tick (o : op) : bool :=
  match o with
  | OpAllow _ | OpRefillTokens | OpCleanup | OpGetClientLimit _ => true
  | OpSetClientLimit _ _ _ | OpDeleteClientLimit _ | OpGoroutine => false
  end.


End limiter_spec.

(** ** Package config *)

Module config.

Record PostgresConfig : Type := mkPostgresConfig {
  Host : string;
  Port : Z;
  User : string;
  Password : string;
  DBName : string;
  SSLMode : string
}.

(** The type [Config]; the nested structs are flattened. *)
Record Config : Type := mkConfig {
  Server_Port : string;
  Backends : list string;
  HealthCheck_Endpoint : string;
  HealthCheck_Interval : Z;
  Balancer_Algorithm : string;
  RateLimit_Default_Capacity : Z;
  RateLimit_Default_RefillRate : Q;
  Storage_Type : string;
  Storage_Postgres : PostgresConfig
}.

(** Assignments to single fields. *)
Definition set_Server_Port (v : string) (c : Config) : Config :=
  mkConfig v (Backends c) (HealthCheck_Endpoint c) (HealthCheck_Interval c)
    (Balancer_Algorithm c) (RateLimit_Default_Capacity c)
    (RateLimit_Default_RefillRate c) (Storage_Type c) (Storage_Postgres c).

Definition set_HealthCheck_Endpoint (v : string) (c : Config) : Config :=
  mkConfig (Server_Port c) (Backends c) v (HealthCheck_Interval c)
    (Balancer_Algorithm c) (RateLimit_Default_Capacity c)
    (RateLimit_Default_RefillRate c) (Storage_Type c) (Storage_Postgres c).

Definition set_HealthCheck_Interval (v : Z) (c : Config) : Config :=
  mkConfig (Server_Port c) (Backends c) (HealthCheck_Endpoint c) v
    (Balancer_Algorithm c) (RateLimit_Default_Capacity c)
    (RateLimit_Default_RefillRate c) (Storage_Type c) (Storage_Postgres c).

Definition set_Balancer_Algorithm (v : string) (c : Config) : Config :=
  mkConfig (Server_Port c) (Backends c) (HealthCheck_Endpoint c) (HealthCheck_Interval c)
    v (RateLimit_Default_Capacity c)
    (RateLimit_Default_RefillRate c) (Storage_Type c) (Storage_Postgres c).

Definition set_Capacity (v : Z) (c : Config) : Config :=
  mkConfig (Server_Port c) (Backends c) (HealthCheck_Endpoint c) (HealthCheck_Interval c)
    (Balancer_Algorithm c) v
    (RateLimit_Default_RefillRate c) (Storage_Type c) (Storage_Postgres c).

Definition set_RefillRate (v : Q) (c : Config) : Config :=
  mkConfig (Server_Port c) (Backends c) (HealthCheck_Endpoint c) (HealthCheck_Interval c)
    (Balancer_Algorithm c) (RateLimit_Default_Capacity c)
    v (Storage_Type c) (Storage_Postgres c).

Definition set_Storage_Type (v : string) (c : Config) : Config :=
  mkConfig (Server_Port c) (Backends c) (HealthCheck_Endpoint c) (HealthCheck_Interval c)
    (Balancer_Algorithm c) (RateLimit_Default_Capacity c)
    (RateLimit_Default_RefillRate c) v (Storage_Postgres c).

Definition set_Storage_Postgres (v : PostgresConfig) (c : Config) : Config :=
  mkConfig (Server_Port c) (Backends c) (HealthCheck_Endpoint c) (HealthCheck_Interval c)
    (Balancer_Algorithm c) (RateLimit_Default_Capacity c)
    (RateLimit_Default_RefillRate c) (Storage_Type c) v.

(** What reading the file and decoding its YAML come to. *)
Inductive file : Type :=
| Unreadable
| Malformed
| Decoded (config : Config).

Inductive load_error : Type :=
| ReadError
| ParseError
| NoBackends.

(** The defaults of the PostgreSQL settings. *)
Definition postgres_defaults (p : PostgresConfig) : PostgresConfig :=
  let p := if bool_decide (Host p = "")
           then mkPostgresConfig "localhost" (Port p) (User p) (Password p) (DBName p) (SSLMode p)
           else p in
  let p := if Port p =? 0
           then mkPostgresConfig (Host p) 5432 (User p) (Password p) (DBName p) (SSLMode p)
           else p in
  let p := if bool_decide (User p = "")
           then mkPostgresConfig (Host p) (Port p) "postgres" (Password p) (DBName p) (SSLMode p)
           else p in
  let p := if bool_decide (DBName p = "")
           then mkPostgresConfig (Host p) (Port p) (User p) (Password p) "loadbalancer" (SSLMode p)
           else p in
  if bool_decide (SSLMode p = "")
  then mkPostgresConfig (Host p) (Port p) (User p) (Password p) (DBName p) "disable"
  else p.

(** The statements [if config.X == zero { config.X = default }] of
    [LoadConfig], one by one. *)
Definition default_Server_Port (config : Config) : Config :=
  if bool_decide (Server_Port config = "")
  then set_Server_Port "8080" config else config.

Definition default_HealthCheck_Endpoint (config : Config) : Config :=
  if bool_decide (HealthCheck_Endpoint config = "")
  then set_HealthCheck_Endpoint "/health" config else config.

Definition default_HealthCheck_Interval (config : Config) : Config :=
  if HealthCheck_Interval config =? 0
  then set_HealthCheck_Interval (5 * 1000000000) config else config.

Definition default_Balancer_Algorithm (config : Config) : Config :=
  if bool_decide (Balancer_Algorithm config = "")
  then set_Balancer_Algorithm "round-robin" config else config.

Definition default_Capacity (config : Config) : Config :=
  if RateLimit_Default_Capacity config =? 0
  then set_Capacity 100 config else config.

Definition default_RefillRate (config : Config) : Config :=
  if Qeq_bool (RateLimit_Default_RefillRate config) 0
  then set_RefillRate 10 config else config.

Definition default_Storage_Type (config : Config) : Config :=
  if bool_decide (Storage_Type config = "")
  then set_Storage_Type "memory" config else config.

Definition default_Storage_Postgres (config : Config) : Config :=
  if bool_decide (Storage_Type config = "postgres")
  then set_Storage_Postgres (postgres_defaults (Storage_Postgres config)) config
  else config.

(** The checks [LoadConfig] runs on the decoded configuration, in the
    order of the source. *)
Definition validate (config : Config) : Config + load_error :=
  let config := default_Server_Port config in
  if bool_decide (length (Backends config) = 0%nat) then inr NoBackends
  else
    let config := default_HealthCheck_Endpoint config in
    let config := default_HealthCheck_Interval config in
    let config := default_Balancer_Algorithm config in
    let config := default_Capacity config in
    let config := default_RefillRate config in
    let config := default_Storage_Type config in
    let config := default_Storage_Postgres config in
    inl config.

(** [LoadConfig]: [envConfig] is the value of the environment variable
    [CONFIG], [readFile] what the file at a path holds. *)
Definition LoadConfig (envConfig : string) (readFile : string -> file) (path : string)
  : Config + load_error :=
  let path := if bool_decide (envConfig <> "") then envConfig else path in
  match readFile path with
  | Unreadable => inr ReadError
  | Malformed => inr ParseError
  | Decoded config => validate config
  end.

End config.

(** * Properties *)

(** ** Go integers *)

Lemma wrap_in_range z : GoInt.minInt <= z <= GoInt.maxInt -> GoInt.wrap z = z.
Proof.
  unfold GoInt.wrap, GoInt.minInt, GoInt.maxInt. intros Hz.
  rewrite Z.mod_small; lia.
Qed.

Lemma wrap_range z : GoInt.minInt <= GoInt.wrap z <= GoInt.maxInt.
Proof.
  unfold GoInt.wrap, GoInt.minInt, GoInt.maxInt.
  pose proof (Z.mod_pos_bound (z + 2 ^ 63) (2 ^ 64) ltac:(lia)). lia.
Qed.

(** ** Round robin *)

(** A decidable property either holds somewhere between 1 and [m] or
    nowhere there. *)
Lemma classic_bounded (P : Z -> bool) (m : nat) :
  (exists k, 1 <= k <= Z.of_nat m /\ P k = true)
  \/ (forall k, 1 <= k <= Z.of_nat m -> P k = false).
Proof.
  induction m as [|m IH].
  - right. intros k Hk. lia.
  - destruct IH as [(k & Hk & HP)|Hnone].
    + left. exists k. split; [lia|exact HP].
    + destruct (P (Z.of_nat (S m))) eqn:E.
      * left. exists (Z.of_nat (S m)). split; [lia|exact E].
      * right. intros k Hk.
        destruct (Z.eq_dec k (Z.of_nat (S m))) as [->|Hne]; [exact E|].
        apply Hnone. lia.
Qed.

Section RoundRobin.

Import balancer balancer_spec.

Variable servers : list Server.

Let n : Z := Z.of_nat (length servers).

(** A slice has at most [maxInt] elements. *)
Hypothesis len_int : n <= GoInt.maxInt.

Local Abbreviation rr_pos := (rr_position servers).

Lemma rr_pos_range c j : 0 < n -> 0 <= rr_pos c j < n.
Proof. intros Hn. unfold rr_position. apply Z.mod_pos_bound. exact Hn. Qed.

Lemma rr_advance cur :
  0 < n -> -1 <= cur < n ->
  GoInt.rem (GoInt.add cur 1) n = rr_pos cur 1.
Proof.
  intros Hn Hc. unfold GoInt.rem, GoInt.add, rr_position. fold n.
  rewrite wrap_in_range by (unfold GoInt.minInt, GoInt.maxInt in *; lia).
  apply Z.rem_mod_nonneg; lia.
Qed.

Lemma rr_pos_step c j : 0 < n -> rr_pos (rr_pos c 1) j = rr_pos c (1 + j).
Proof.
  intros Hn. unfold rr_position. fold n.
  rewrite Zplus_mod_idemp_l. f_equal. lia.
Qed.

Lemma index_in_range i :
  0 <= i < n -> exists s, servers !! Z.to_nat i = Some s /\ index servers i = Ret s.
Proof.
  intros Hi. unfold index.
  destruct (Z.ltb_spec i 0) as [?|_]; [lia|].
  destruct (servers !! Z.to_nat i) as [s|] eqn:E.
  - eauto.
  - apply lookup_ge_None in E. unfold n in Hi. lia.
Qed.

(** The loop skips [d] unhealthy servers and stops at the next one when it
    is healthy. *)
Lemma rr_loop_first_healthy initialIdx d : forall (fuel : nat) cur s,
  0 < n -> -1 <= cur < n ->
  (d < fuel)%nat ->
  (forall i s', 1 <= i <= Z.of_nat d ->
      servers !! Z.to_nat (rr_pos cur i) = Some s' ->
      Healthy s' = false /\ rr_pos cur i <> initialIdx) ->
  servers !! Z.to_nat (rr_pos cur (Z.of_nat d + 1)) = Some s ->
  Healthy s = true ->
  rr_loop servers initialIdx fuel cur
  = (Ret (Some (Z.to_nat (rr_pos cur (Z.of_nat d + 1)))), rr_pos cur (Z.of_nat d + 1)).
Proof.
  induction d as [|d IH]; intros fuel cur s Hn Hc Hf Hskip Hs Hh.
  - destruct fuel as [|fuel]; [lia|]. simpl rr_loop.
    change (Z.of_nat 0 + 1) with 1 in *.
    rewrite rr_advance by assumption.
    destruct (index_in_range (rr_pos cur 1) (rr_pos_range _ _ Hn)) as (s' & E1 & E2).
    rewrite E2. unfold IsHealthy. rewrite E1 in Hs. inversion Hs; subst s'.
    rewrite Hh. reflexivity.
  - destruct fuel as [|fuel]; [lia|]. simpl rr_loop.
    rewrite rr_advance by assumption.
    destruct (index_in_range (rr_pos cur 1) (rr_pos_range _ _ Hn)) as (s' & E1 & E2).
    rewrite E2. unfold IsHealthy.
    destruct (Hskip 1 s' ltac:(lia) E1) as [Hu Hne].
    rewrite Hu. destruct (Z.eqb_spec (rr_pos cur 1) initialIdx) as [?|_]; [contradiction|].
    pose proof (rr_pos_range cur 1 Hn) as Hr.
    rewrite (IH fuel (rr_pos cur 1) s Hn ltac:(lia) ltac:(lia)).
    + rewrite rr_pos_step by assumption.
      replace (1 + (Z.of_nat d + 1)) with (Z.of_nat (S d) + 1) by lia. reflexivity.
    + intros i s'' Hi. rewrite rr_pos_step by assumption. intros E.
      apply (Hskip (1 + i) s''); [lia|exact E].
    + rewrite rr_pos_step by assumption.
      replace (1 + (Z.of_nat d + 1)) with (Z.of_nat (S d) + 1) by lia. exact Hs.
    + exact Hh.
Qed.

(** With no healthy server the loop ends without a server. *)
Lemma rr_loop_none initialIdx : forall (fuel : nat) cur,
  0 < n -> -1 <= cur < n ->
  (forall s, s ∈ servers -> Healthy s = false) ->
  fst (rr_loop servers initialIdx fuel cur) = Ret None
  /\ -1 <= snd (rr_loop servers initialIdx fuel cur) < n.
Proof.
  induction fuel as [|fuel IH]; intros cur Hn Hc Hall; simpl.
  - split; [reflexivity|lia].
  - rewrite rr_advance by assumption.
    pose proof (rr_pos_range cur 1 Hn) as Hr.
    destruct (index_in_range (rr_pos cur 1) Hr) as (s' & E1 & E2).
    rewrite E2. unfold IsHealthy.
    rewrite (Hall s') by (eapply list_elem_of_lookup_2; exact E1).
    destruct (rr_pos cur 1 =? initialIdx); simpl.
    + split; [reflexivity|lia].
    + apply IH; [assumption|lia|assumption].
Qed.

(** Within one rotation the cursor does not come back to where it
    started. *)
Lemma rr_pos_not_initial c i :
  -1 <= c < n -> 1 <= i < n -> rr_pos c i <> c.
Proof.
  intros Hc Hi. unfold rr_position. fold n.
  destruct (Z.eq_dec c (-1)) as [->|Hne].
  - pose proof (Z.mod_pos_bound (-1 + i) n ltac:(lia)). lia.
  - destruct (Z.lt_ge_cases (c + i) n) as [Hlt|Hge].
    + rewrite Z.mod_small by lia. lia.
    + replace (c + i) with ((c + i - n) + 1 * n) by lia.
      rewrite Z.mod_add by lia. rewrite Z.mod_small by lia. lia.
Qed.

Lemma RoundRobin_NextServer_unfold (rr : RoundRobin) :
  0 < n ->
  RoundRobin_NextServer rr servers
  = (fst (rr_loop servers (current rr) (length servers) (current rr)),
     {| current := snd (rr_loop servers (current rr) (length servers) (current rr)) |}).
Proof.
  intros Hn. unfold RoundRobin_NextServer.
  destruct servers as [|s0 l] eqn:E; [simpl in n; unfold n in Hn; simpl in Hn; lia|].
  destruct (rr_loop (s0 :: l) (current rr) (length (s0 :: l)) (current rr)). reflexivity.
Qed.

(** The first healthy server of the rotation is picked and the cursor
    stays on it. *)
Lemma RoundRobin_first_healthy (rr : RoundRobin) k s :
  -1 <= current rr < n -> 1 <= k <= n ->
  (forall i s', 1 <= i < k ->
     servers !! Z.to_nat (rr_pos (current rr) i) = Some s' -> Healthy s' = false) ->
  servers !! Z.to_nat (rr_pos (current rr) k) = Some s ->
  Healthy s = true ->
  RoundRobin_NextServer rr servers
  = (Ret (Some (Z.to_nat (rr_pos (current rr) k))), {| current := rr_pos (current rr) k |}).
Proof.
  intros Hc Hk Hskip Hs Hh.
  assert (Hn : 0 < n) by lia.
  rewrite RoundRobin_NextServer_unfold by exact Hn.
  replace k with (Z.of_nat (Z.to_nat (k - 1)) + 1) in * by lia.
  rewrite (rr_loop_first_healthy (current rr) (Z.to_nat (k - 1)) (length servers)
             (current rr) s Hn Hc); try assumption.
  - reflexivity.
  - unfold n in Hk. lia.
  - intros i s' Hi E. split.
    + apply (Hskip i s'); [lia|exact E].
    + apply rr_pos_not_initial; [exact Hc|lia].
Qed.

Lemma RoundRobin_none_healthy (rr : RoundRobin) :
  0 < n -> -1 <= current rr < n ->
  (forall s, s ∈ servers -> Healthy s = false) ->
  fst (RoundRobin_NextServer rr servers) = Ret None
  /\ -1 <= current (snd (RoundRobin_NextServer rr servers)) < n.
Proof.
  intros Hn Hc Hall. rewrite RoundRobin_NextServer_unfold by exact Hn. simpl.
  apply rr_loop_none; assumption.
Qed.

Lemma RoundRobin_all_healthy_pick (rr : RoundRobin) :
  0 < n -> -1 <= current rr < n ->
  (forall s, s ∈ servers -> Healthy s = true) ->
  RoundRobin_NextServer rr servers
  = (Ret (Some (Z.to_nat (rr_pos (current rr) 1))), {| current := rr_pos (current rr) 1 |}).
Proof.
  intros Hn Hc Hall.
  pose proof (rr_pos_range (current rr) 1 Hn) as Hr.
  destruct (index_in_range _ Hr) as (s & E & _).
  apply (RoundRobin_first_healthy rr 1 s); try assumption; try lia.
  apply Hall. eapply list_elem_of_lookup_2; exact E.
Qed.

Lemma RoundRobin_all_healthy_picks (k : nat) : forall (rr : RoundRobin),
  0 < n -> -1 <= current rr < n ->
  (forall s, s ∈ servers -> Healthy s = true) ->
  picks k rr servers
  = map (fun j : nat => Ret (Some (Z.to_nat (rr_pos (current rr) (1 + Z.of_nat j))))) (seq 0 k).
Proof.
  induction k as [|k IH]; intros rr Hn Hc Hall; [reflexivity|].
  cbn [picks]. unfold NextServer, RoundRobin_alg.
  rewrite RoundRobin_all_healthy_pick by assumption.
  pose proof (rr_pos_range (current rr) 1 Hn) as Hr.
  rewrite IH; [|assumption|simpl; lia|assumption].
  cbn [seq map]. f_equal. rewrite <- seq_shift, map_map.
  apply map_ext. intros j. cbn [current].
  rewrite rr_pos_step by assumption.
  replace (1 + Z.of_nat (S j)) with (1 + (1 + Z.of_nat j)) by lia. reflexivity.
Qed.

Lemma rr_rotation_permutation c :
  0 < n -> -1 <= c < n ->
  map (fun j : nat => Z.to_nat (rr_pos c (1 + Z.of_nat j))) (seq 0 (length servers))
  ≡ₚ seq 0 (length servers).
Proof.
  intros Hn Hc.
  assert (Hinj : forall i j : nat, (i < length servers)%nat -> (j < length servers)%nat ->
            rr_pos c (1 + Z.of_nat i) = rr_pos c (1 + Z.of_nat j) -> i = j).
  { intros i j Hi Hj E. unfold rr_position in E. fold n in E.
    assert (Hd : (Z.of_nat i - Z.of_nat j) mod n = 0).
    { replace (Z.of_nat i - Z.of_nat j)
        with ((c + (1 + Z.of_nat i)) - (c + (1 + Z.of_nat j))) by lia.
      rewrite Zminus_mod, E, Z.sub_diag. apply Z.mod_0_l. lia. }
    apply Z.mod_divide in Hd; [|lia]. destruct Hd as [q Hq].
    assert (Hq0 : q = 0) by (unfold n in *; nia).
    subst q. lia. }
  apply NoDup_Permutation.
  - apply NoDup_fmap_2_strong; [|apply NoDup_seq].
    intros i j Hi Hj E. apply elem_of_seq in Hi, Hj.
    apply Hinj; [lia|lia|].
    pose proof (rr_pos_range c (1 + Z.of_nat i) Hn).
    pose proof (rr_pos_range c (1 + Z.of_nat j) Hn). lia.
  - apply NoDup_seq.
  - intros x. rewrite elem_of_seq. split.
    + intros Hx. apply list_elem_of_fmap in Hx. destruct Hx as (j & -> & Hj).
      pose proof (rr_pos_range c (1 + Z.of_nat j) Hn). unfold n in *. lia.
    + intros Hx. apply list_elem_of_fmap.
      exists (Z.to_nat ((Z.of_nat x - c - 1) mod n)).
      pose proof (Z.mod_pos_bound (Z.of_nat x - c - 1) n Hn) as Hb.
      split.
      * unfold rr_position. fold n. rewrite Z2Nat.id by lia.
        replace (c + (1 + (Z.of_nat x - c - 1) mod n))
          with ((c + 1) + (Z.of_nat x - c - 1) mod n) by lia.
        rewrite Zplus_mod_idemp_r.
        replace (c + 1 + (Z.of_nat x - c - 1)) with (Z.of_nat x) by lia.
        rewrite Z.mod_small by (unfold n; lia). lia.
      * apply elem_of_seq. unfold n in *. lia.
Qed.

(** A decidable property that holds somewhere between 1 and [m] holds at
    a least position. *)
Lemma least_position (P : Z -> bool) (m : nat) :
  (exists k, 1 <= k <= Z.of_nat m /\ P k = true) ->
  exists k, 1 <= k <= Z.of_nat m /\ P k = true
            /\ forall i, 1 <= i < k -> P i = false.
Proof.
  induction m as [|m IH]; intros (k & Hk & HP); [lia|].
  destruct (classic_bounded P m) as [Hsome|Hnone].
  - destruct (IH Hsome) as (k' & Hk' & HP' & Hmin).
    exists k'. repeat split; try assumption; lia.
  - exists (Z.of_nat (S m)). split; [lia|]. split.
    + assert (k = Z.of_nat (S m)) as <-; [|exact HP].
      destruct (Z.eq_dec k (Z.of_nat (S m))) as [|Hne]; [assumption|].
      exfalso. rewrite (Hnone k) in HP by lia. discriminate.
    + intros i Hi. apply Hnone. lia.
Qed.

(** Every index of the pool is reached within one rotation. *)
Lemma rr_pos_reaches c (j : nat) :
  0 < n -> -1 <= c < n -> (j < length servers)%nat ->
  exists k, 1 <= k <= n /\ Z.to_nat (rr_pos c k) = j.
Proof.
  intros Hn Hc Hj.
  pose proof (Z.mod_pos_bound (Z.of_nat j - c - 1) n Hn) as Hb.
  exists ((Z.of_nat j - c - 1) mod n + 1). split; [lia|].
  unfold rr_position. fold n.
  replace (c + ((Z.of_nat j - c - 1) mod n + 1))
    with ((c + 1) + (Z.of_nat j - c - 1) mod n) by lia.
  rewrite Zplus_mod_idemp_r.
  replace (c + 1 + (Z.of_nat j - c - 1)) with (Z.of_nat j) by lia.
  rewrite Z.mod_small by (unfold n; lia). lia.
Qed.

(** With a healthy server in the pool the pick returns a server. *)
Lemma RoundRobin_some_healthy (rr : RoundRobin) :
  0 < n -> -1 <= current rr < n ->
  (exists s, s ∈ servers /\ Healthy s = true) ->
  exists k s, 1 <= k <= n
    /\ servers !! Z.to_nat (rr_pos (current rr) k) = Some s /\ Healthy s = true
    /\ RoundRobin_NextServer rr servers
       = (Ret (Some (Z.to_nat (rr_pos (current rr) k))),
          {| current := rr_pos (current rr) k |}).
Proof.
  intros Hn Hc (s0 & Hin & Hs0).
  apply list_elem_of_lookup in Hin. destruct Hin as [j Hj].
  set (P := fun k => match servers !! Z.to_nat (rr_pos (current rr) k) with
                     | Some s => Healthy s
                     | None => false
                     end).
  destruct (least_position P (length servers)) as (k & Hk & HP & Hmin).
  { destruct (rr_pos_reaches (current rr) j Hn Hc) as (k & Hk & Ek).
    - eapply lookup_lt_Some; exact Hj.
    - exists k. split; [exact Hk|]. unfold P. rewrite Ek, Hj. exact Hs0. }
  unfold P in HP.
  destruct (servers !! Z.to_nat (rr_pos (current rr) k)) as [s|] eqn:Es; [|discriminate].
  exists k, s. repeat split; try assumption; try lia.
  apply (RoundRobin_first_healthy rr k s); try assumption.
  intros i s' Hi Es'. specialize (Hmin i Hi). unfold P in Hmin.
  rewrite Es' in Hmin. exact Hmin.
Qed.

End RoundRobin.

(** C4.  Round-robin pick over a non-empty pool.  The cursor starts before
    index 0 and stays within the pool; a pick advances it modulo the pool
    size over at most one rotation, returns the first server of the
    rotation whose healthy flag is set and leaves the cursor on it (there
    is one as soon as a server of the pool is healthy); it returns no
    server when the rotation finds none.  Over a pool whose
    servers are all healthy, as many picks as there are servers return
    every server exactly once, in pool order from a fresh cursor (in
    rotated pool order from any other cursor). *)
Theorem RoundRobin_NextServer_correct
  (servers : list balancer.Server) (rr : balancer.RoundRobin) :
  let n := Z.of_nat (length servers) in
  let pos := balancer_spec.rr_position servers (balancer.current rr) in
  servers <> [] ->
  n <= GoInt.maxInt ->
  -1 <= balancer.current rr < n ->
  balancer.current balancer.NewRoundRobin = -1
  /\ (forall k s,
        1 <= k <= n ->
        (forall i s', 1 <= i < k ->
           servers !! Z.to_nat (pos i) = Some s' -> balancer.Healthy s' = false) ->
        servers !! Z.to_nat (pos k) = Some s ->
        balancer.Healthy s = true ->
        balancer.RoundRobin_NextServer rr servers
        = (Ret (Some (Z.to_nat (pos k))), {| balancer.current := pos k |})
        /\ 0 <= pos k < n)
  /\ ((exists s, s ∈ servers /\ balancer.Healthy s = true) ->
        exists i s,
          balancer.RoundRobin_NextServer rr servers
          = (Ret (Some i), {| balancer.current := Z.of_nat i |})
          /\ servers !! i = Some s /\ balancer.Healthy s = true)
  /\ ((forall s, s ∈ servers -> balancer.Healthy s = false) ->
        fst (balancer.RoundRobin_NextServer rr servers) = Ret None
        /\ -1 <= balancer.current (snd (balancer.RoundRobin_NextServer rr servers)) < n)
  /\ ((forall s, s ∈ servers -> balancer.Healthy s = true) ->
        balancer_spec.picks (length servers) balancer.NewRoundRobin servers
        = map (fun i : nat => Ret (Some i)) (seq 0 (length servers))
        /\ balancer_spec.picks (length servers) rr servers
           = map (fun j : nat => Ret (Some (Z.to_nat (pos (1 + Z.of_nat j)))))
               (seq 0 (length servers))
        /\ map (fun j : nat => Z.to_nat (pos (1 + Z.of_nat j))) (seq 0 (length servers))
           ≡ₚ seq 0 (length servers)).
Proof.
  intros n pos Hne Hlen Hc.
  assert (Hn : 0 < n).
  { unfold n. destruct servers; [contradiction|simpl; lia]. }
  split; [reflexivity|]. split; [|split; [|split]].
  - intros k s Hk Hskip Hs Hh. split.
    + apply (RoundRobin_first_healthy servers Hlen rr k s); assumption.
    + apply rr_pos_range. exact Hn.
  - intros Hsome.
    destruct (RoundRobin_some_healthy servers Hlen rr Hn Hc Hsome) as (k & s & Hk & Es & Hs & E).
    exists (Z.to_nat (pos k)), s. split; [|split; assumption].
    rewrite E. do 2 f_equal.
    pose proof (rr_pos_range servers (balancer.current rr) k Hn). unfold pos. lia.
  - intros Hall. apply RoundRobin_none_healthy; assumption.
  - intros Hall. split; [|split].
    + rewrite (RoundRobin_all_healthy_picks servers Hlen)
        by (try assumption; simpl; fold n; lia).
      apply map_ext_in. intros j Hj. apply in_seq in Hj.
      unfold balancer_spec.rr_position. cbn [balancer.current balancer.NewRoundRobin].
      fold n. rewrite Z.mod_small by (unfold n; lia).
      do 2 f_equal. lia.
    + apply (RoundRobin_all_healthy_picks servers Hlen); assumption.
    + apply rr_rotation_permutation; assumption.
Qed.

(** The pool of the scenarios: the second and the third server answer their
    probes, the first does not. *)
Lemma RoundRobin_NextServer_correct_witness :
  let servers := [balancer.mkServer "http://b1" 0 false;
                  balancer.mkServer "http://b2" 0 true;
                  balancer.mkServer "http://b3" 0 true] in
  servers <> []
  /\ Z.of_nat (length servers) <= GoInt.maxInt
  /\ -1 <= balancer.current balancer.NewRoundRobin < Z.of_nat (length servers)
  /\ balancer.RoundRobin_NextServer balancer.NewRoundRobin servers
     = (Ret (Some 1%nat), {| balancer.current := 1 |}).
Proof.
  intros servers.
  assert (H1 : servers <> []) by discriminate.
  assert (H2 : Z.of_nat (length servers) <= GoInt.maxInt) by (vm_compute; discriminate).
  assert (H3 : -1 <= balancer.current balancer.NewRoundRobin < Z.of_nat (length servers))
    by (simpl; lia).
  split; [exact H1|]. split; [exact H2|]. split; [exact H3|].
  destruct (RoundRobin_NextServer_correct servers balancer.NewRoundRobin H1 H2 H3)
    as (_ & Hfirst & _).
  destruct (Hfirst 2 (balancer.mkServer "http://b2" 0 true)) as [E _].
  - simpl. lia.
  - intros i s' Hi. assert (i = 1) as -> by lia. vm_compute. intros E; inversion E. reflexivity.
  - reflexivity.
  - reflexivity.
  - exact E.
Defined.

(** ** Least connections *)

Section LeastConnections.

Import balancer balancer_spec.

Lemma least_connected_snoc_unhealthy pre s m :
  Healthy s = false -> least_connected pre m -> least_connected (pre ++ [s]) m.
Proof.
  intros Hs (sm & Em & Hm & Hmin). exists sm. split; [|split].
  - rewrite lookup_app_l; [exact Em|]. eapply lookup_lt_Some; exact Em.
  - exact Hm.
  - intros j s' Ej Hj. destruct (decide (j < length pre)%nat) as [Hlt|Hge].
    + rewrite lookup_app_l in Ej by exact Hlt. eauto.
    + rewrite lookup_app_r in Ej by lia.
      destruct (j - length pre)%nat; simpl in Ej; [|discriminate].
      inversion Ej; subst s'. congruence.
Qed.

Lemma least_connected_snoc_keep pre s m sm :
  pre !! m = Some sm -> ActiveConnections sm <= ActiveConnections s ->
  least_connected pre m -> least_connected (pre ++ [s]) m.
Proof.
  intros Em Hle (sm' & Em' & Hm & Hmin).
  rewrite Em in Em'. inversion Em'; subst sm'.
  exists sm. split; [|split].
  - rewrite lookup_app_l; [exact Em|]. eapply lookup_lt_Some; exact Em.
  - exact Hm.
  - intros j s' Ej Hj. destruct (decide (j < length pre)%nat) as [Hlt|Hge].
    + rewrite lookup_app_l in Ej by exact Hlt. eauto.
    + rewrite lookup_app_r in Ej by lia.
      destruct (j - length pre)%nat; simpl in Ej; [|discriminate].
      inversion Ej; subst s'. split; [exact Hle|].
      intros Hjm. apply lookup_lt_Some in Em. lia.
Qed.

Lemma least_connected_snoc_first pre s :
  Healthy s = true -> (forall s', s' ∈ pre -> Healthy s' = false) ->
  least_connected (pre ++ [s]) (length pre).
Proof.
  intros Hs Hall. exists s. split; [|split].
  - rewrite lookup_app_r by lia. rewrite Nat.sub_diag. reflexivity.
  - exact Hs.
  - intros j s' Ej Hj. destruct (decide (j < length pre)%nat) as [Hlt|Hge].
    + rewrite lookup_app_l in Ej by exact Hlt.
      rewrite (Hall s') in Hj by (eapply list_elem_of_lookup_2; exact Ej). discriminate.
    + rewrite lookup_app_r in Ej by lia.
      destruct (j - length pre)%nat; simpl in Ej; [|discriminate].
      inversion Ej; subst s'. split; lia.
Qed.

Lemma least_connected_snoc_better pre s m sm :
  Healthy s = true -> pre !! m = Some sm ->
  ActiveConnections s < ActiveConnections sm ->
  least_connected pre m -> least_connected (pre ++ [s]) (length pre).
Proof.
  intros Hs Em Hlt (sm' & Em' & Hm & Hmin).
  rewrite Em in Em'. inversion Em'; subst sm'.
  exists s. split; [|split].
  - rewrite lookup_app_r by lia. rewrite Nat.sub_diag. reflexivity.
  - exact Hs.
  - intros j s' Ej Hj. destruct (decide (j < length pre)%nat) as [Hl|Hge].
    + rewrite lookup_app_l in Ej by exact Hl.
      destruct (Hmin j s' Ej Hj) as [Hle _]. split; lia.
    + rewrite lookup_app_r in Ej by lia.
      destruct (j - length pre)%nat; simpl in Ej; [|discriminate].
      inversion Ej; subst s'. split; lia.
Qed.

Lemma lc_loop_scanned rest : forall pre minServer minConnections,
  lc_scanned pre minServer minConnections ->
  exists c, lc_scanned (pre ++ rest) (lc_loop rest (length pre) minServer minConnections) c.
Proof.
  induction rest as [|s rest IH]; intros pre minServer minConnections Hsc.
  - simpl. rewrite app_nil_r. eauto.
  - cbn [lc_loop]. unfold IsHealthy.
    replace (pre ++ s :: rest) with ((pre ++ [s]) ++ rest) by (rewrite <- app_assoc; reflexivity).
    replace (S (length pre)) with (length (pre ++ [s])) by (rewrite length_app; simpl; lia).
    destruct (Healthy s) eqn:Hs; cbn [negb].
    + destruct minServer as [m|]; cbn [orb].
      * destruct Hsc as [Hlc (sm & Em & Hc)].
        destruct (Z.ltb_spec (ActiveConnections s) minConnections) as [Hlt|Hge].
        -- apply IH. split.
           ++ eapply least_connected_snoc_better; eauto. lia.
           ++ exists s. split; [|reflexivity].
              rewrite lookup_app_r by lia. rewrite Nat.sub_diag. reflexivity.
        -- apply IH. split.
           ++ eapply least_connected_snoc_keep; eauto. lia.
           ++ exists sm. split; [|exact Hc].
              rewrite lookup_app_l; [exact Em|]. eapply lookup_lt_Some; exact Em.
      * apply IH. split.
        -- apply least_connected_snoc_first; assumption.
        -- exists s. split; [|reflexivity].
           rewrite lookup_app_r by lia. rewrite Nat.sub_diag. reflexivity.
    + apply IH. destruct minServer as [m|]; simpl in *.
      * destruct Hsc as [Hlc (sm & Em & Hc)]. split.
        -- apply least_connected_snoc_unhealthy; assumption.
        -- exists sm. split; [|exact Hc].
           rewrite lookup_app_l; [exact Em|]. eapply lookup_lt_Some; exact Em.
      * intros s' Hin. apply elem_of_app in Hin. destruct Hin as [Hin|Hin].
        -- apply Hsc. exact Hin.
        -- apply list_elem_of_singleton in Hin. subst s'. exact Hs.
Qed.

Lemma LeastConnections_NextServer_scanned servers :
  exists c, lc_scanned servers (LeastConnections_NextServer servers) c.
Proof.
  destruct servers as [|s l].
  - exists 0. simpl. intros s Hs. apply elem_of_nil in Hs. contradiction.
  - destruct (lc_loop_scanned (s :: l) [] None (-1)) as [c Hc].
    + simpl. intros s' Hs. apply elem_of_nil in Hs. contradiction.
    + exists c. exact Hc.
Qed.

(** Whatever its cursor, round robin hands out healthy servers only. *)
Lemma rr_loop_healthy servers initialIdx : forall (fuel : nat) cur i cur',
  rr_loop servers initialIdx fuel cur = (Ret (Some i), cur') ->
  exists s, servers !! i = Some s /\ Healthy s = true.
Proof.
  induction fuel as [|fuel IH]; intros cur i cur' E; simpl in E; [discriminate|].
  set (c1 := GoInt.rem (GoInt.add cur 1) (Z.of_nat (length servers))) in *.
  unfold index in E. destruct (c1 <? 0); [discriminate|].
  destruct (servers !! Z.to_nat c1) as [s|] eqn:Es; [|discriminate].
  unfold IsHealthy in E. destruct (Healthy s) eqn:Hs.
  - inversion E; subst. eauto.
  - destruct (c1 =? initialIdx); [discriminate|]. eapply IH; exact E.
Qed.

Lemma RoundRobin_NextServer_healthy rr servers i rr' :
  RoundRobin_NextServer rr servers = (Ret (Some i), rr') ->
  exists s, servers !! i = Some s /\ Healthy s = true.
Proof.
  unfold RoundRobin_NextServer. destruct servers as [|s0 l]; [discriminate|].
  destruct (rr_loop (s0 :: l) (current rr) (length (s0 :: l)) (current rr)) as [r cur] eqn:E.
  intros E'. inversion E'; subst. eapply rr_loop_healthy; exact E.
Qed.

End LeastConnections.

(** C5.  Least-connections pick returns a server whose healthy flag is set
    and whose active count is the least among the healthy servers, the
    first such server in pool order; it returns no server exactly when no
    server is healthy.  Round robin, too, returns healthy servers only. *)
Theorem LeastConnections_NextServer_correct (servers : list balancer.Server) :
  (forall i, balancer.LeastConnections_NextServer servers = Some i ->
     exists s, servers !! i = Some s /\ balancer.Healthy s = true
       /\ forall (j : nat) s', servers !! j = Some s' -> balancer.Healthy s' = true ->
            balancer.ActiveConnections s <= balancer.ActiveConnections s'
            /\ ((j < i)%nat -> balancer.ActiveConnections s < balancer.ActiveConnections s'))
  /\ (balancer.LeastConnections_NextServer servers = None
      <-> forall s, s ∈ servers -> balancer.Healthy s = false)
  /\ (forall rr i rr',
        balancer.RoundRobin_NextServer rr servers = (Ret (Some i), rr') ->
        exists s, servers !! i = Some s /\ balancer.Healthy s = true).
Proof.
  destruct (LeastConnections_NextServer_scanned servers) as [c Hsc].
  split; [|split].
  - intros i E. rewrite E in Hsc. destruct Hsc as [Hlc _]. exact Hlc.
  - split.
    + intros E. rewrite E in Hsc. exact Hsc.
    + intros Hall.
      destruct (balancer.LeastConnections_NextServer servers) as [m|]; [|reflexivity].
      destruct Hsc as [(s & Es & Hs & _) _].
      rewrite (Hall s) in Hs by (eapply list_elem_of_lookup_2; exact Es). discriminate.
  - intros rr i rr'. apply RoundRobin_NextServer_healthy.
Qed.

(** ** The dispatcher *)

Lemma wrap_wrap_add a b : GoInt.wrap (GoInt.wrap a + b) = GoInt.wrap (a + b).
Proof.
  unfold GoInt.wrap. f_equal.
  replace ((a + 2 ^ 63) mod 2 ^ 64 - 2 ^ 63 + b + 2 ^ 63)
    with ((a + 2 ^ 63) mod 2 ^ 64 + b) by lia.
  rewrite Zplus_mod_idemp_l. f_equal. lia.
Qed.

Section Dispatcher.

Import balancer balancer_spec.

Context {A : Type} `{BalancingAlgorithm A}.

Lemma add_connections_cancel s :
  connections_in_range s -> add_connections (-1) (add_connections 1 s) = s.
Proof.
  intros Hs. destruct s as [u a h]. unfold add_connections, GoInt.add. cbn.
  rewrite wrap_wrap_add. replace (a + 1 + -1) with a by lia.
  rewrite wrap_in_range by exact Hs. reflexivity.
Qed.

Lemma increment_decrement (i : nat) (lb : LoadBalancer A) :
  Forall connections_in_range (servers lb) ->
  servers (decrement i (increment i lb)) = servers lb.
Proof.
  intros Hall. cbn. apply list_eq. intros j.
  destruct (decide (i = j)) as [<-|Hne].
  - rewrite !list_lookup_alter_eq. destruct (servers lb !! i) as [s|] eqn:E; [|reflexivity].
    cbn. f_equal. apply add_connections_cancel.
    eapply Forall_lookup_1; [exact Hall|exact E].
  - rewrite !list_lookup_alter_ne by exact Hne. reflexivity.
Qed.

(** A request that is forwarded counts on its server while it is forwarded:
    the count is one more than before. *)
Lemma increment_lookup (i : nat) (lb : LoadBalancer A) s :
  servers lb !! i = Some s ->
  servers (increment i lb) !! i = Some (add_connections 1 s).
Proof. intros E. cbn. rewrite list_lookup_alter_eq, E. reflexivity. Qed.

(** When [ServeHTTP] returns, the counts are what they were before the
    request, whether the upstream answered or could not be reached. *)
Lemma ServeHTTP_returns_restores (fwd : forwarding) (lb lb' : LoadBalancer A) status :
  Forall connections_in_range (servers lb) ->
  ServeHTTP fwd lb = (Ret status, lb') ->
  servers lb' = servers lb.
Proof.
  intros Hall. unfold ServeHTTP, getNextServer.
  destruct (NextServer (algorithm lb) (servers lb)) as [[[i|]|] alg]; cbn.
  - set (lb1 := {| servers := servers lb; algorithm := alg |}).
    destruct fwd; intros E; inversion E; subst;
      apply (increment_decrement i lb1); exact Hall.
  - intros E; inversion E; reflexivity.
  - discriminate.
Qed.

(** When the reverse proxy panics, [ServeHTTP] is left with the count of
    the chosen server still incremented. *)
Lemma ServeHTTP_abort_keeps_increment (lb : LoadBalancer A) i alg :
  NextServer (algorithm lb) (servers lb) = (Ret (Some i), alg) ->
  ServeHTTP ForwardAbort lb
  = (Panic, {| servers := alter (add_connections 1) i (servers lb); algorithm := alg |}).
Proof.
  intros E. unfold ServeHTTP, getNextServer. rewrite E. reflexivity.
Qed.

(** No count becomes negative, whatever the reverse proxy does. *)
Lemma ServeHTTP_counts_nonneg (fwd : forwarding) (lb : LoadBalancer A) :
  Forall (fun s => 0 <= ActiveConnections s < GoInt.maxInt) (servers lb) ->
  Forall (fun s => 0 <= ActiveConnections s) (servers (snd (ServeHTTP fwd lb))).
Proof.
  intros Hall.
  assert (Hnn : Forall (fun s => 0 <= ActiveConnections s) (servers lb)).
  { eapply Forall_impl; [exact Hall|]. cbn. intros s Hs. lia. }
  assert (Hrange : Forall connections_in_range (servers lb)).
  { eapply Forall_impl; [exact Hall|]. unfold connections_in_range. cbn.
    intros s Hs. unfold GoInt.minInt, GoInt.maxInt in *. lia. }
  unfold ServeHTTP, getNextServer.
  destruct (NextServer (algorithm lb) (servers lb)) as [[[i|]|] alg]; cbn [fst snd]; try exact Hnn.
  set (lb1 := {| servers := servers lb; algorithm := alg |}).
  assert (Hback : servers (decrement i (increment i lb1)) = servers lb)
    by (apply (increment_decrement i lb1); exact Hrange).
  destruct fwd; cbn [snd]; try (rewrite Hback; exact Hnn).
  cbn. apply Forall_lookup_2. intros j s Hj.
  destruct (decide (i = j)) as [<-|Hne].
  - rewrite list_lookup_alter_eq in Hj.
    destruct (servers lb !! i) as [s0|] eqn:E; [|discriminate].
    cbn in Hj. inversion Hj; subst s. cbn. unfold GoInt.add.
    pose proof (Forall_lookup_1 _ _ _ _ Hall E) as Hs0. cbn in Hs0.
    rewrite wrap_in_range by (unfold GoInt.minInt, GoInt.maxInt in *; lia). lia.
  - rewrite list_lookup_alter_ne in Hj by exact Hne.
    apply (Forall_lookup_1 _ _ _ _ Hnn Hj).
Qed.

End Dispatcher.

(** C6.  [ServeHTTP] increments the active count of the chosen server once
    before it forwards.  When the reverse proxy returns, whether the
    upstream answered or could not be reached, the count is decremented
    once and every count is what it was before the request.  When the
    reverse proxy panics (the upstream breaks off while the response body
    is copied), [ServeHTTP] is left without passing its decrement: the
    count of the chosen server stays incremented although no request is in
    flight.  In every case the counts stay non-negative. *)
Theorem ServeHTTP_active_count :
  (forall (A : Type) `(balancer.BalancingAlgorithm A) (fwd : balancer.forwarding)
          (lb lb' : balancer.LoadBalancer A) status,
      Forall balancer_spec.connections_in_range (balancer.servers lb) ->
      balancer.ServeHTTP fwd lb = (Ret status, lb') ->
      balancer.servers lb' = balancer.servers lb)
  /\ (forall (A : Type) `(balancer.BalancingAlgorithm A) (lb : balancer.LoadBalancer A) i alg,
      balancer.NextServer (balancer.algorithm lb) (balancer.servers lb) = (Ret (Some i), alg) ->
      balancer.ServeHTTP balancer.ForwardAbort lb
      = (Panic, {| balancer.servers :=
                     alter (balancer.add_connections 1) i (balancer.servers lb);
                   balancer.algorithm := alg |}))
  /\ (forall (A : Type) `(balancer.BalancingAlgorithm A) (fwd : balancer.forwarding)
             (lb : balancer.LoadBalancer A),
      Forall (fun s => 0 <= balancer.ActiveConnections s < GoInt.maxInt) (balancer.servers lb) ->
      Forall (fun s => 0 <= balancer.ActiveConnections s)
             (balancer.servers (snd (balancer.ServeHTTP fwd lb))))
  /\ (let lb := {| balancer.servers := [balancer.mkServer "http://b1" 0 true];
                   balancer.algorithm := balancer.mkLeastConnections |} in
      balancer.ServeHTTP balancer.ForwardAbort lb
      = (Panic, {| balancer.servers := [balancer.mkServer "http://b1" 1 true];
                   balancer.algorithm := balancer.mkLeastConnections |})
      /\ balancer.ServeHTTP (balancer.Forwarded 200) lb = (Ret 200, lb)
      /\ balancer.ServeHTTP balancer.ForwardError lb = (Ret 502, lb)).
Proof.
  split; [|split; [|split]].
  - intros A HA fwd lb lb' status. apply ServeHTTP_returns_restores.
  - intros A HA lb i alg. apply ServeHTTP_abort_keeps_increment.
  - intros A HA fwd lb. apply ServeHTTP_counts_nonneg.
  - repeat split.
Qed.

(** ** The arithmetic of float64 *)

Section Float64_facts.
Import Float64.
Local Open Scope Q_scope.

Lemma pow2_pos (e : Z) : 0 < pow2 e.
Proof. apply Qpower_0_lt. reflexivity. Qed.

Lemma pow2_add (a b : Z) : pow2 (a + b) == pow2 a * pow2 b.
Proof. apply Qpower_plus. discriminate. Qed.

Lemma pow2_le (a b : Z) : (a <= b)%Z -> pow2 a <= pow2 b.
Proof. intros H. apply Qpower_le_compat_l; [exact H|discriminate]. Qed.

Lemma pow2_lt (a b : Z) : (a < b)%Z -> pow2 a < pow2 b.
Proof. intros H. apply Qpower_lt_compat_l; [exact H|reflexivity]. Qed.

Lemma pow2_Z (n : Z) : (0 <= n)%Z -> pow2 n == inject_Z (2 ^ n).
Proof. intros H. unfold pow2. rewrite (Zpower_Qpower 2 n H). reflexivity. Qed.

Lemma pow2_succ (a : Z) : pow2 (a + 1) == 2 * pow2 a.
Proof. rewrite pow2_add. change (pow2 1) with 2. ring. Qed.

Lemma pow2_div (x : Q) (u : Z) : x / pow2 u * pow2 u == x.
Proof. field. apply Qnot_eq_sym, Qlt_not_eq, pow2_pos. Qed.

Lemma Q_as_quotient (x : Q) : x * inject_Z (Z.pos (Qden x)) == inject_Z (Qnum x).
Proof.
  destruct x as [p q]. unfold Qeq, Qmult, inject_Z. simpl. lia.
Qed.

(** [ilog2] is the exponent: the power of two at or below [x]. *)
Lemma ilog2_spec (x : Q) : 0 < x -> pow2 (ilog2 x) <= x /\ x < pow2 (ilog2 x + 1).
Proof.
  intros Hx.
  assert (Hp : (0 < Qnum x)%Z).
  { destruct x as [p q]. unfold Qlt in Hx. simpl in *. lia. }
  pose proof (Z.log2_spec _ Hp) as [Hp1 Hp2].
  pose proof (Z.log2_spec (Z.pos (Qden x)) eq_refl) as [Hq1 Hq2].
  pose proof (Z.log2_nonneg (Qnum x)) as Hlp.
  pose proof (Z.log2_nonneg (Z.pos (Qden x))) as Hlq.
  set (lp := Z.log2 (Qnum x)) in *. set (lq := Z.log2 (Z.pos (Qden x))) in *.
  pose proof (Q_as_quotient x) as Hq.
  assert (Hp1q : pow2 lp <= inject_Z (Qnum x)).
  { rewrite pow2_Z by exact Hlp. rewrite <- Zle_Qle. exact Hp1. }
  assert (Hp2q : inject_Z (Qnum x) < pow2 (lp + 1)).
  { rewrite pow2_Z by lia. rewrite <- Zlt_Qlt. replace (lp + 1)%Z with (Z.succ lp) by lia. exact Hp2. }
  assert (Hq1q : pow2 lq <= inject_Z (Z.pos (Qden x))).
  { rewrite pow2_Z by exact Hlq. rewrite <- Zle_Qle. exact Hq1. }
  assert (Hq2q : inject_Z (Z.pos (Qden x)) < pow2 (lq + 1)).
  { rewrite pow2_Z by lia. rewrite <- Zlt_Qlt. replace (lq + 1)%Z with (Z.succ lq) by lia. exact Hq2. }
  assert (Hup : x < pow2 (lp - lq + 1)).
  { apply Qmult_lt_r with (z := pow2 lq); [apply pow2_pos|].
    rewrite <- pow2_add. replace (lp - lq + 1 + lq)%Z with (lp + 1)%Z by lia.
    apply Qle_lt_trans with (y := x * inject_Z (Z.pos (Qden x))).
    - apply Qmult_le_l; [exact Hx|exact Hq1q].
    - rewrite Hq. exact Hp2q. }
  assert (Hlo : pow2 (lp - lq - 1) < x).
  { apply Qmult_lt_r with (z := pow2 (lq + 1)); [apply pow2_pos|].
    rewrite <- pow2_add. replace (lp - lq - 1 + (lq + 1))%Z with lp by lia.
    apply Qle_lt_trans with (y := x * inject_Z (Z.pos (Qden x))).
    - rewrite Hq. exact Hp1q.
    - apply Qmult_lt_l; [exact Hx|exact Hq2q]. }
  unfold ilog2. fold lp lq.
  destruct (Qle_bool (pow2 (lp - lq)) x) eqn:E.
  - apply Qle_bool_iff in E. split; assumption.
  - assert (Hn : ~ pow2 (lp - lq) <= x).
    { intros H. apply Qle_bool_iff in H. congruence. }
    apply Qnot_le_lt in Hn. split.
    + apply Qlt_le_weak. exact Hlo.
    + replace (lp - lq - 1 + 1)%Z with (lp - lq)%Z by lia. exact Hn.
Qed.

Lemma ilog2_unique (x : Q) (e : Z) : pow2 e <= x -> x < pow2 (e + 1) -> ilog2 x = e.
Proof.
  intros H1 H2.
  assert (Hx : 0 < x) by (eapply Qlt_le_trans; [apply pow2_pos|exact H1]).
  destruct (ilog2_spec x Hx) as [H3 H4].
  destruct (Z.lt_trichotomy (ilog2 x) e) as [Hlt|[Heq|Hgt]]; [|exact Heq|].
  - exfalso. assert (pow2 (ilog2 x + 1) <= pow2 e) by (apply pow2_le; lia). lra.
  - exfalso. assert (pow2 (e + 1) <= pow2 (ilog2 x)) by (apply pow2_le; lia). lra.
Qed.

Lemma ilog2_mono (x y : Q) : 0 < x -> x <= y -> (ilog2 x <= ilog2 y)%Z.
Proof.
  intros Hx Hxy.
  assert (Hy : 0 < y) by lra.
  destruct (ilog2_spec x Hx) as [H1 H2]. destruct (ilog2_spec y Hy) as [H3 H4].
  destruct (Z_le_gt_dec (ilog2 x) (ilog2 y)) as [H|H]; [exact H|].
  exfalso. assert (pow2 (ilog2 y + 1) <= pow2 (ilog2 x)) by (apply pow2_le; lia). lra.
Qed.

Lemma ilog2_comp (x y : Q) : 0 < x -> x == y -> ilog2 x = ilog2 y.
Proof.
  intros Hx E. destruct (ilog2_spec x Hx) as [H1 H2].
  symmetry. apply ilog2_unique; rewrite <- E; assumption.
Qed.

Lemma rne_floor (y : Q) : (Qfloor y <= rne y <= Qfloor y + 1)%Z.
Proof.
  unfold rne. destruct (Qcompare _ _); [destruct (Z.even _)|..]; lia.
Qed.

(** The nearest integer is within a half, and grows with its argument. *)
Lemma rne_error (y : Q) : y - (1 # 2) <= inject_Z (rne y) /\ inject_Z (rne y) <= y + (1 # 2).
Proof.
  pose proof (Qfloor_le y) as H1. pose proof (Qlt_floor y) as H2.
  rewrite inject_Z_plus in H2. change (inject_Z 1) with 1 in H2.
  unfold rne. destruct (Qcompare (y - inject_Z (Qfloor y)) (1 # 2)) eqn:E.
  - apply Qeq_alt in E. destruct (Z.even _); [|rewrite inject_Z_plus; change (inject_Z 1) with 1]; lra.
  - apply Qlt_alt in E. lra.
  - apply Qgt_alt in E. rewrite inject_Z_plus. change (inject_Z 1) with 1. lra.
Qed.

Lemma rne_comp (x y : Q) : x == y -> rne x = rne y.
Proof.
  intros E. unfold rne. rewrite (Qfloor_comp _ _ E).
  assert (E' : x - inject_Z (Qfloor y) == y - inject_Z (Qfloor y)) by (rewrite E; reflexivity).
  rewrite (Qcompare_comp _ _ E' _ _ (Qeq_refl (1 # 2))). reflexivity.
Qed.

Lemma rne_Z (k : Z) : rne (inject_Z k) = k.
Proof.
  unfold rne. rewrite Qfloor_Z.
  replace (inject_Z k - inject_Z k ?= 1 # 2) with Lt; [reflexivity|].
  symmetry. apply Qlt_alt.
  assert (E : inject_Z k - inject_Z k == 0) by ring. rewrite E. reflexivity.
Qed.

Lemma rne_cases (y : Q) :
  (y - inject_Z (Qfloor y) < 1 # 2 /\ rne y = Qfloor y) \/
  (1 # 2 < y - inject_Z (Qfloor y) /\ rne y = (Qfloor y + 1)%Z) \/
  (y - inject_Z (Qfloor y) == 1 # 2 /\
   rne y = if Z.even (Qfloor y) then Qfloor y else (Qfloor y + 1)%Z).
Proof.
  unfold rne. destruct (Qcompare (y - inject_Z (Qfloor y)) (1 # 2)) eqn:E.
  - apply Qeq_alt in E. right. right. split; [exact E|reflexivity].
  - apply Qlt_alt in E. left. split; [exact E|reflexivity].
  - apply Qgt_alt in E. right. left. split; [exact E|reflexivity].
Qed.

Lemma rne_mono (x y : Q) : x <= y -> (rne x <= rne y)%Z.
Proof.
  intros Hxy. pose proof (Qfloor_resp_le _ _ Hxy) as Hf.
  destruct (Z.eq_dec (Qfloor x) (Qfloor y)) as [E|N].
  - pose proof (rne_cases x) as Hx. pose proof (rne_cases y) as Hy.
    rewrite E in Hx.
    destruct Hx as [[Hx1 Hx2]|[[Hx1 Hx2]|[Hx1 Hx2]]];
      destruct Hy as [[Hy1 Hy2]|[[Hy1 Hy2]|[Hy1 Hy2]]];
      rewrite Hx2, Hy2; try (destruct (Z.even (Qfloor y))); try lia; exfalso; lra.
  - pose proof (rne_floor x). pose proof (rne_floor y). lia.
Qed.

(** Rounding at a fixed unit in the last place. *)
Lemma round_at_mono (u : Z) (x y : Q) :
  x <= y -> inject_Z (rne (x / pow2 u)) * pow2 u <= inject_Z (rne (y / pow2 u)) * pow2 u.
Proof.
  intros H. apply Qmult_le_compat_r; [|apply Qlt_le_weak, pow2_pos].
  rewrite <- Zle_Qle. apply rne_mono.
  apply Qmult_le_compat_r; [exact H|]. apply Qlt_le_weak, Qinv_lt_0_compat, pow2_pos.
Qed.

Lemma round_at_pow2 (u n : Z) : (u <= n)%Z -> inject_Z (rne (pow2 n / pow2 u)) * pow2 u == pow2 n.
Proof.
  intros H.
  assert (E : pow2 n / pow2 u == inject_Z (2 ^ (n - u))).
  { rewrite <- pow2_Z by lia. unfold pow2. rewrite Qpower_minus by discriminate. reflexivity. }
  rewrite (rne_comp _ _ E), rne_Z, <- E. apply pow2_div.
Qed.

Lemma round_pos_le_pow2 (x : Q) (n : Z) :
  x <= pow2 n -> (ulp_exp x <= n)%Z -> round_pos x <= pow2 n.
Proof.
  intros Hx Hu. unfold round_pos. rewrite <- (round_at_pow2 (ulp_exp x) n Hu).
  apply round_at_mono. exact Hx.
Qed.

Lemma round_pos_ge_pow2 (x : Q) (n : Z) :
  pow2 n <= x -> (ulp_exp x <= n)%Z -> pow2 n <= round_pos x.
Proof.
  intros Hx Hu. unfold round_pos. rewrite <- (round_at_pow2 (ulp_exp x) n Hu).
  apply round_at_mono. exact Hx.
Qed.

Lemma round_pos_nonneg (x : Q) : 0 <= x -> 0 <= round_pos x.
Proof.
  intros Hx. unfold round_pos. apply Qmult_le_0_compat; [|apply Qlt_le_weak, pow2_pos].
  change 0 with (inject_Z 0). rewrite <- Zle_Qle.
  rewrite <- (rne_Z 0). apply rne_mono. change (inject_Z 0) with 0.
  apply Qle_shift_div_l; [apply pow2_pos|]. lra.
Qed.

Lemma round_pos_comp (x y : Q) : 0 < x -> x == y -> round_pos x = round_pos y.
Proof.
  intros Hx E. unfold round_pos, ulp_exp. rewrite <- (ilog2_comp x y Hx E).
  f_equal. f_equal. apply rne_comp. unfold Qdiv.
  apply Qmult_comp; [exact E|reflexivity].
Qed.

Lemma round_pos_mono (x y : Q) : 0 < x -> x <= y -> round_pos x <= round_pos y.
Proof.
  intros Hx Hxy. assert (Hy : 0 < y) by lra.
  pose proof (ilog2_mono x y Hx Hxy) as He.
  destruct (ilog2_spec x Hx) as [_ Hx2]. destruct (ilog2_spec y Hy) as [Hy1 _].
  destruct (Z.eq_dec (ulp_exp x) (ulp_exp y)) as [E|N].
  - unfold round_pos. rewrite E. apply round_at_mono. exact Hxy.
  - assert (Hu : (ulp_exp x < ulp_exp y)%Z) by (unfold ulp_exp in *; lia).
    apply Qle_trans with (y := pow2 (ilog2 y)).
    + apply round_pos_le_pow2; [|unfold ulp_exp in *; lia].
      apply Qle_trans with (y := pow2 (ilog2 x + 1)); [lra|].
      apply pow2_le. unfold ulp_exp in *. lia.
    + apply round_pos_ge_pow2; [exact Hy1|unfold ulp_exp in *; lia].
Qed.

(** Rounding depends on the value only, not on the fraction that denotes
    it. *)
Lemma round_comp (x y : Q) : x == y -> round x = round y.
Proof.
  intros E. unfold round. rewrite (Qcompare_comp _ _ E _ _ (Qeq_refl 0)).
  destruct (Qcompare y 0) eqn:C; [reflexivity|..].
  - apply Qlt_alt in C. f_equal. apply round_pos_comp; [lra|rewrite E; reflexivity].
  - apply Qgt_alt in C. apply round_pos_comp; [lra|exact E].
Qed.

Lemma round_zero (x : Q) : x == 0 -> round x = 0.
Proof. intros E. rewrite (round_comp _ _ E). reflexivity. Qed.

Lemma round_of_pos (x : Q) : 0 < x -> round x = round_pos x.
Proof.
  intros H. unfold round. destruct (Qcompare x 0) eqn:C; [| |reflexivity]; exfalso.
  - apply Qeq_alt in C. lra.
  - apply Qlt_alt in C. lra.
Qed.

Lemma round_of_neg (x : Q) : x < 0 -> round x = - round_pos (- x).
Proof.
  intros H. unfold round. destruct (Qcompare x 0) eqn:C; [|reflexivity|]; exfalso.
  - apply Qeq_alt in C. lra.
  - apply Qgt_alt in C. lra.
Qed.

Lemma round_opp (x : Q) : round (- x) == - round x.
Proof.
  destruct (Q_dec x 0) as [[H|H]|H].
  - rewrite (round_of_neg x H), round_of_pos by lra. ring.
  - rewrite (round_of_pos x H), round_of_neg by lra.
    rewrite (round_pos_comp (- - x) x) by (try lra; ring). reflexivity.
  - rewrite (round_zero x H), round_zero by lra. reflexivity.
Qed.

Lemma round_nonneg (x : Q) : 0 <= x -> 0 <= round x.
Proof.
  intros H. destruct (Qle_lt_or_eq _ _ H) as [H1|H1].
  - rewrite round_of_pos by exact H1. apply round_pos_nonneg. exact H.
  - rewrite round_zero by (symmetry; exact H1). lra.
Qed.

Lemma round_nonpos (x : Q) : x <= 0 -> round x <= 0.
Proof.
  intros H. assert (H1 : 0 <= round (- x)) by (apply round_nonneg; lra).
  rewrite round_opp in H1. lra.
Qed.

(** Rounding is monotone. *)
Lemma round_mono (x y : Q) : x <= y -> round x <= round y.
Proof.
  intros Hxy.
  destruct (Q_dec x 0) as [[Hx|Hx]|Hx].
  - destruct (Qlt_le_dec y 0) as [Hy|Hy].
    + rewrite (round_of_neg x Hx), (round_of_neg y Hy).
      apply Qopp_le_compat. apply round_pos_mono; lra.
    + apply Qle_trans with (y := 0); [apply round_nonpos; lra|apply round_nonneg; exact Hy].
  - rewrite (round_of_pos x Hx), round_of_pos by lra. apply round_pos_mono; assumption.
  - rewrite (round_zero x Hx). apply round_nonneg. lra.
Qed.

(** The error of one rounding is at most half a unit in the last place. *)
Lemma round_pos_error (x : Q) :
  0 < x -> x - pow2 (ulp_exp x - 1) <= round_pos x /\ round_pos x <= x + pow2 (ulp_exp x - 1).
Proof.
  intros Hx. unfold round_pos. set (u := ulp_exp x).
  pose proof (rne_error (x / pow2 u)) as [H1 H2].
  pose proof (pow2_div x u) as E. pose proof (pow2_pos u) as Hu.
  assert (Eh : pow2 (u - 1) == (1 # 2) * pow2 u).
  { pose proof (pow2_succ (u - 1)) as H. replace (u - 1 + 1)%Z with u in H by lia. lra. }
  rewrite Eh. set (m := inject_Z (rne (x / pow2 u))) in *. set (y := x / pow2 u) in *.
  split; nra.
Qed.

(** In the normal range the error of one rounding is at most 2^-53 of the value. *)
Lemma round_relative (x : Q) :
  pow2 (-1022) <= x ->
  x * (1 - pow2 (-53)) <= round x /\ round x <= x * (1 + pow2 (-53)).
Proof.
  intros Hx. assert (Hpos : 0 < x) by (eapply Qlt_le_trans; [apply pow2_pos|exact Hx]).
  rewrite round_of_pos by exact Hpos.
  destruct (ilog2_spec x Hpos) as [H1 H2].
  assert (He : (-1022 <= ilog2 x)%Z).
  { destruct (Z_le_gt_dec (-1022) (ilog2 x)) as [H|H]; [exact H|].
    exfalso. assert (pow2 (ilog2 x + 1) <= pow2 (-1022)) by (apply pow2_le; lia). lra. }
  pose proof (round_pos_error x Hpos) as [H3 H4].
  assert (Eu : (ulp_exp x - 1 = ilog2 x + -53)%Z) by (unfold ulp_exp; lia).
  rewrite Eu, pow2_add in H3, H4.
  pose proof (pow2_pos (-53)) as Heps.
  set (eps := pow2 (-53)) in *. set (p := pow2 (ilog2 x)) in *.
  split; nra.
Qed.

Lemma round_one : round 1 == 1.
Proof. vm_compute. reflexivity. Qed.


(** The constants of the format. *)
Lemma pow2_m53 : pow2 (-53) == eps.
Proof. reflexivity. Qed.

Lemma round_half : round (1 # 2) == 1 # 2.
Proof. vm_compute. reflexivity. Qed.

Lemma round_relative_eps (x : Q) :
  pow2 (-1022) <= x -> x * (1 - eps) <= round x /\ round x <= x * (1 + eps).
Proof. intros H. pose proof (round_relative x H) as H'. rewrite pow2_m53 in H'. exact H'. Qed.

#[global] Instance round_Proper : Proper (Qeq ==> Qeq) round.
Proof. intros x y E. rewrite (round_comp x y E). reflexivity. Qed.

(** The operations agree with those of [SpecFloat] on the operands of
    the examples below: 0.29 = 29/100 and 0.29 * 100; 1/3 and 3 * (1/3);
    0.7 and 0.7 * 10; 0.9 = 900000000/1e9 and 1 + 0.05. *)
Example Float64_agrees_with_SpecFloat :
  let F := to_SpecFloat in
  let Qv := of_SpecFloat in
  Qv (SFdiv 53 1024 (F 29%Z) (F 100%Z)) == div 29 100
  /\ Qv (SFmul 53 1024 (SFdiv 53 1024 (F 29%Z) (F 100%Z)) (F 100%Z)) == mul (div 29 100) 100
  /\ Qv (SFdiv 53 1024 (F 1%Z) (F 3%Z)) == div 1 3
  /\ Qv (SFmul 53 1024 (F 3%Z) (SFdiv 53 1024 (F 1%Z) (F 3%Z))) == mul 3 (div 1 3)
  /\ Qv (SFdiv 53 1024 (F 7%Z) (F 10%Z)) == div 7 10
  /\ Qv (SFmul 53 1024 (F 10%Z) (SFdiv 53 1024 (F 7%Z) (F 10%Z))) == mul 10 (div 7 10)
  /\ Qv (SFdiv 53 1024 (F 900000000%Z) (F 1000000000%Z)) == div 900000000 1000000000
  /\ Qv (SFadd 53 1024 (F 1%Z) (SFdiv 53 1024 (F 50000000%Z) (F 1000000000%Z)))
     == add 1 (div 50000000 1000000000)
  /\ Qv (F 9007199254740993%Z) == of_int 9007199254740993%Z.
Proof. vm_compute. repeat split; reflexivity. Qed.

(** An integer of less than 54 bits is a number of the format. *)
Lemma ilog2_Z (z : Z) : (0 < z)%Z -> ilog2 (inject_Z z) = Z.log2 z.
Proof.
  intros Hz. pose proof (Z.log2_spec z Hz) as [H1 H2]. pose proof (Z.log2_nonneg z) as H0.
  apply ilog2_unique.
  - rewrite pow2_Z by exact H0. rewrite <- Zle_Qle. exact H1.
  - rewrite pow2_Z by lia. rewrite <- Zlt_Qlt. replace (Z.log2 z + 1)%Z with (Z.succ (Z.log2 z)) by lia.
    exact H2.
Qed.

Lemma of_int_exact (z : Z) : (Z.abs z < 2 ^ 53)%Z -> of_int z == inject_Z z.
Proof.
  assert (Hpos : forall z, (0 < z < 2 ^ 53)%Z -> round_pos (inject_Z z) == inject_Z z).
  { clear z. intros z [Hz Hlt]. unfold round_pos, ulp_exp. rewrite ilog2_Z by exact Hz.
    pose proof (Z.log2_nonneg z) as H0.
    assert (Hl : (Z.log2 z < 53)%Z) by (apply Z.log2_lt_pow2; lia).
    rewrite Z.max_l by lia. set (l := Z.log2 z) in *.
    assert (E : inject_Z z / pow2 (l - 52) == inject_Z (z * 2 ^ (52 - l))).
    { rewrite inject_Z_mult, <- pow2_Z by lia.
      replace (52 - l)%Z with (- (l - 52))%Z by lia. unfold pow2. rewrite Qpower_opp. reflexivity. }
    rewrite (rne_comp _ _ E), rne_Z, <- E. apply pow2_div. }
  intros Hz. unfold of_int.
  destruct (Z.lt_trichotomy z 0) as [Hn|[->|Hp]].
  - rewrite round_of_neg by (rewrite (Zlt_Qlt z 0) in Hn; exact Hn).
    assert (E : - inject_Z z = inject_Z (- z)) by (symmetry; apply inject_Z_opp).
    rewrite E, Hpos by lia. rewrite inject_Z_opp. ring.
  - reflexivity.
  - rewrite round_of_pos by (rewrite (Zlt_Qlt 0 z) in Hp; exact Hp). apply Hpos. lia.
Qed.

End Float64_facts.

(** ** The admission filter *)

(** *** The conversion [int(float64)] *)

Lemma Qfloor_as_div x : Qfloor x = Qnum x / Z.pos (Qden x).
Proof. destruct x; reflexivity. Qed.

Lemma of_float_pos x :
  0 < GoInt.of_float x -> GoInt.of_float x = Qfloor x /\ Qfloor x <= GoInt.maxInt.
Proof.
  unfold GoInt.of_float, GoInt.in_range. rewrite Qfloor_as_div.
  set (t := Z.quot (Qnum x) (Z.pos (Qden x))).
  destruct (Z.leb_spec GoInt.minInt t) as [Hlo|Hlo];
    destruct (Z.leb_spec t GoInt.maxInt) as [Hhi|Hhi]; cbn;
    try (unfold GoInt.minInt; lia).
  intros Hpos.
  assert (Hn : 0 <= Qnum x).
  { destruct (Z.lt_ge_cases (Qnum x) 0) as [Hneg|]; [|assumption].
    assert (t <= 0); [|lia]. unfold t.
    apply Z.quot_le_upper_bound; lia. }
  unfold t in *. rewrite Z.quot_div_nonneg in * by lia. lia.
Qed.

Lemma of_float_floor x :
  Qfloor x <= GoInt.maxInt ->
  (0 <? GoInt.of_float x) = (0 <? Qfloor x).
Proof.
  intros Hmax.
  destruct (Z.ltb_spec 0 (GoInt.of_float x)) as [Hp|Hp].
  - destruct (of_float_pos x Hp) as [E _]. rewrite <- E. symmetry. apply Z.ltb_lt. exact Hp.
  - symmetry. apply Z.ltb_ge.
    destruct (Z.lt_ge_cases 0 (Qfloor x)) as [Hf|]; [|lia].
    exfalso. revert Hp. unfold GoInt.of_float, GoInt.in_range.
    rewrite Qfloor_as_div in *.
    assert (Hn : 0 <= Qnum x).
    { destruct (Z.lt_ge_cases (Qnum x) 0) as [Hneg|]; [|assumption].
      pose proof (Z.div_lt_upper_bound (Qnum x) (Z.pos (Qden x)) 0 ltac:(lia) ltac:(lia)). lia. }
    rewrite Z.quot_div_nonneg by lia.
    destruct (Z.leb_spec GoInt.minInt (Qnum x / Z.pos (Qden x))) as [Hlo|Hlo];
      destruct (Z.leb_spec (Qnum x / Z.pos (Qden x)) GoInt.maxInt) as [Hhi|Hhi]; cbn;
      unfold GoInt.minInt in *; lia.
Qed.

(** *** The seconds of a duration and the tokens they are worth *)

Section Seconds_facts.
Import Float64.
Local Open Scope Q_scope.

(** [int(x)] of a float that is not negative: zero or less means less
    than one, or too much for an [int]. *)
Lemma of_float_nonneg x :
  0 <= x -> (GoInt.of_float x <= 0)%Z -> x < 1 \/ inject_Z (2 ^ 63) <= x.
Proof.
  intros Hx. unfold GoInt.of_float, GoInt.in_range.
  assert (Hn : (0 <= Qnum x)%Z) by (destruct x; unfold Qle in Hx; cbn in *; lia).
  rewrite Z.quot_div_nonneg by lia. rewrite <- Qfloor_as_div.
  pose proof (Qfloor_le x) as Hfl. pose proof (Qlt_floor x) as Hlt.
  destruct (Z.leb_spec GoInt.minInt (Qfloor x)) as [Hlo|Hlo];
    destruct (Z.leb_spec (Qfloor x) GoInt.maxInt) as [Hhi|Hhi]; cbn [andb]; intros Ha.
  - left. eapply Qlt_le_trans; [exact Hlt|].
    change 1 with (inject_Z 1). rewrite <- Zle_Qle. lia.
  - right. eapply Qle_trans; [|exact Hfl]. rewrite <- Zle_Qle.
    unfold GoInt.maxInt in Hhi. lia.
  - left. eapply Qlt_le_trans; [exact Hlt|].
    change 1 with (inject_Z 1). rewrite <- Zle_Qle. unfold GoInt.minInt in Hlo. lia.
  - exfalso. unfold GoInt.minInt, GoInt.maxInt in *. lia.
Qed.

Lemma of_float_huge x : inject_Z (2 ^ 63) <= x -> GoInt.of_float x = GoInt.minInt.
Proof.
  intros Hx. unfold GoInt.of_float, GoInt.in_range.
  assert (H0 : 0 <= x).
  { eapply Qle_trans; [|exact Hx]. change 0 with (inject_Z 0). rewrite <- Zle_Qle. lia. }
  assert (Hn : (0 <= Qnum x)%Z) by (destruct x; unfold Qle in H0; cbn in *; lia).
  rewrite Z.quot_div_nonneg by lia. rewrite <- Qfloor_as_div.
  assert (Hf : (2 ^ 63 <= Qfloor x)%Z).
  { rewrite <- (Qfloor_Z (2 ^ 63)). apply Qfloor_resp_le. exact Hx. }
  destruct (Z.leb_spec (Qfloor x) GoInt.maxInt) as [Hhi|Hhi].
  - unfold GoInt.maxInt in Hhi. lia.
  - rewrite andb_false_r. reflexivity.
Qed.

Lemma pow2_tiny x : 1 # 2147483648 <= x -> pow2 (-1022) <= x.
Proof.
  intros H. eapply Qle_trans; [|exact H].
  apply Qle_trans with (y := pow2 (-31)); [apply pow2_le; lia|].
  apply Qle_lteq. right. reflexivity.
Qed.

(** One rounding of a value that is zero or at least 2^-31. *)
Lemma round_relative_or_zero (x : Q) :
  x == 0 \/ 1 # 2147483648 <= x ->
  x * (1 - eps) <= round x /\ round x <= x * (1 + eps).
Proof.
  intros [E|H].
  - rewrite (round_zero x E), E. split; apply Qle_lteq; right; ring.
  - apply round_relative_eps, pow2_tiny, H.
Qed.

Lemma seconds_split (d : Z) :
  limiter_spec.seconds d
  == inject_Z (Z.quot d ratelimiter.Second) + inject_Z (Z.rem d ratelimiter.Second) / 1000000000.
Proof.
  pose proof (Z.quot_rem' d ratelimiter.Second) as E.
  set (s := Z.quot d ratelimiter.Second) in *. set (n := Z.rem d ratelimiter.Second) in *.
  unfold limiter_spec.seconds. rewrite E at 1. unfold ratelimiter.Second.
  unfold Qeq, Qplus, Qdiv, Qmult, Qinv, inject_Z. cbn. lia.
Qed.

Lemma seconds_add a b : limiter_spec.seconds a + limiter_spec.seconds b == limiter_spec.seconds (a + b).
Proof. unfold limiter_spec.seconds, Qeq, Qplus. cbn. lia. Qed.

Lemma seconds_mono a b : (a <= b)%Z -> limiter_spec.seconds a <= limiter_spec.seconds b.
Proof. intros Hab. unfold limiter_spec.seconds, Qle. cbn. lia. Qed.

Lemma seconds_nonneg a : (0 <= a)%Z -> 0 <= limiter_spec.seconds a.
Proof. intros Ha. unfold limiter_spec.seconds, Qle. cbn. lia. Qed.

(** The nanoseconds of a duration that is not negative. *)
Lemma Seconds_nsec (n : Z) :
  (0 <= n < ratelimiter.Second)%Z ->
  let B := div (of_int n) 1000000000 in
  inject_Z n / 1000000000 * (1 - eps) <= B
  /\ B <= inject_Z n / 1000000000 * (1 + eps)
  /\ 0 <= B /\ B <= 1.
Proof.
  intros Hn B.
  assert (EB : B = round (inject_Z n / 1000000000)).
  { unfold B, div. apply round_comp.
    rewrite of_int_exact by (unfold ratelimiter.Second in Hn; lia). reflexivity. }
  assert (H0 : 0 <= inject_Z n / 1000000000).
  { apply Qle_shift_div_l; [reflexivity|]. rewrite Qmult_0_l.
    change 0 with (inject_Z 0). rewrite <- Zle_Qle. lia. }
  assert (H1 : inject_Z n / 1000000000 <= 1).
  { apply Qle_shift_div_r; [reflexivity|]. rewrite Qmult_1_l.
    change 1000000000 with (inject_Z 1000000000). rewrite <- Zle_Qle.
    unfold ratelimiter.Second in Hn. lia. }
  assert (Hz : inject_Z n / 1000000000 == 0 \/ 1 # 2147483648 <= inject_Z n / 1000000000).
  { destruct (Z.eq_dec n 0%Z) as [->|Hne]; [left; reflexivity|right].
    apply Qle_shift_div_l; [reflexivity|].
    apply Qle_trans with (y := 1); [apply Qle_lteq; left; reflexivity|].
    change 1 with (inject_Z 1). rewrite <- Zle_Qle. lia. }
  destruct (round_relative_or_zero _ Hz) as [Hlo Hhi]. rewrite EB.
  split; [exact Hlo|]. split; [exact Hhi|]. split.
  - apply round_nonneg. exact H0.
  - rewrite <- round_one. apply round_mono. exact H1.
Qed.

Lemma Seconds_sec (s : Z) :
  (0 <= s)%Z ->
  inject_Z s * (1 - eps) <= of_int s /\ of_int s <= inject_Z s * (1 + eps).
Proof.
  intros Hs. apply round_relative_or_zero.
  destruct (Z.eq_dec s 0%Z) as [->|Hne]; [left; reflexivity|right].
  apply Qle_trans with (y := 1); [apply Qle_lteq; left; reflexivity|].
  change 1 with (inject_Z 1). rewrite <- Zle_Qle. lia.
Qed.

(** The seconds of a positive duration, up to two roundings. *)
Lemma Seconds_bounds (d : Z) :
  (0 < d)%Z ->
  limiter_spec.seconds d * ((1 - eps) * (1 - eps)) <= ratelimiter.Seconds d
  /\ ratelimiter.Seconds d <= limiter_spec.seconds d * ((1 + eps) * (1 + eps)).
Proof.
  intros Hd. unfold ratelimiter.Seconds, GoInt.quot, GoInt.rem.
  pose proof (seconds_split d) as Es.
  assert (Hs : (0 <= Z.quot d ratelimiter.Second)%Z)
    by (apply Z.quot_pos; unfold ratelimiter.Second; lia).
  assert (Hn : (0 <= Z.rem d ratelimiter.Second < ratelimiter.Second)%Z)
    by (apply Z.rem_bound_pos; unfold ratelimiter.Second; lia).
  set (s := Z.quot d ratelimiter.Second) in *. set (n := Z.rem d ratelimiter.Second) in *.
  destruct (Seconds_sec s Hs) as [HA1 HA2].
  destruct (Seconds_nsec n Hn) as (HB1 & HB2 & _ & _).
  set (A := of_int s) in *. set (B := div (of_int n) 1000000000) in *.
  set (y := inject_Z n / 1000000000) in *.
  assert (Hsec : 1 # 1000000000 <= limiter_spec.seconds d).
  { unfold limiter_spec.seconds, Qle. cbn. lia. }
  unfold add.
  assert (Hsum : 1 # 2147483648 <= A + B) by (unfold eps in *; lra).
  destruct (round_relative_eps (A + B) (pow2_tiny _ Hsum)) as [H1 H2].
  unfold eps in *. split; lra.
Qed.

Lemma Seconds_zero : ratelimiter.Seconds 0 = 0.
Proof. reflexivity. Qed.

Lemma Seconds_nonneg (d : Z) : (0 <= d)%Z -> 0 <= ratelimiter.Seconds d.
Proof.
  intros Hd. destruct (Z.eq_dec d 0%Z) as [->|Hne]; [rewrite Seconds_zero; apply Qle_refl|].
  destruct (Seconds_bounds d ltac:(lia)) as [H _].
  assert (0 <= limiter_spec.seconds d) by (apply seconds_nonneg; lia).
  unfold eps in *. lra.
Qed.

Lemma Seconds_opp (d : Z) : ratelimiter.Seconds (- d) == - ratelimiter.Seconds d.
Proof.
  unfold ratelimiter.Seconds, GoInt.quot, GoInt.rem.
  rewrite Z.quot_opp_l, Z.rem_opp_l by (unfold ratelimiter.Second; lia).
  set (s := Z.quot d ratelimiter.Second). set (n := Z.rem d ratelimiter.Second).
  unfold add, div, of_int.
  rewrite !inject_Z_opp, !round_opp.
  assert (E1 : - round (inject_Z n) / 1000000000 == - (round (inject_Z n) / 1000000000)) by (field).
  rewrite E1, round_opp.
  assert (E2 : - round (inject_Z s) + - round (round (inject_Z n) / 1000000000)
               == - (round (inject_Z s) + round (round (inject_Z n) / 1000000000))) by ring.
  rewrite E2, round_opp. reflexivity.
Qed.

Lemma Seconds_nonpos (d : Z) : (d <= 0)%Z -> ratelimiter.Seconds d <= 0.
Proof.
  intros Hd. pose proof (Seconds_nonneg (- d) ltac:(lia)) as H.
  rewrite Seconds_opp in H. lra.
Qed.

(** Within the range of [time.Duration] a longer duration has no fewer
    seconds. *)
Lemma Seconds_mono (d1 d2 : Z) :
  (0 <= d1 <= d2)%Z -> (d2 <= GoInt.maxInt)%Z ->
  ratelimiter.Seconds d1 <= ratelimiter.Seconds d2.
Proof.
  intros Hd Hmax. unfold ratelimiter.Seconds, GoInt.quot, GoInt.rem, add.
  assert (HS : (0 < ratelimiter.Second)%Z) by (unfold ratelimiter.Second; lia).
  assert (Hs1 : (0 <= Z.quot d1 ratelimiter.Second)%Z) by (apply Z.quot_pos; lia).
  assert (Hs12 : (Z.quot d1 ratelimiter.Second <= Z.quot d2 ratelimiter.Second)%Z)
    by (apply Z.quot_le_mono; lia).
  assert (Hs2 : (Z.quot d2 ratelimiter.Second < 2 ^ 53)%Z).
  { apply Z.quot_lt_upper_bound; [lia|lia|].
    unfold GoInt.maxInt, ratelimiter.Second in *. lia. }
  assert (Hn1 : (0 <= Z.rem d1 ratelimiter.Second < ratelimiter.Second)%Z)
    by (apply Z.rem_bound_pos; lia).
  assert (Hn2 : (0 <= Z.rem d2 ratelimiter.Second < ratelimiter.Second)%Z)
    by (apply Z.rem_bound_pos; lia).
  pose proof (Z.quot_rem' d1 ratelimiter.Second) as E1.
  pose proof (Z.quot_rem' d2 ratelimiter.Second) as E2.
  set (s1 := Z.quot d1 ratelimiter.Second) in *. set (n1 := Z.rem d1 ratelimiter.Second) in *.
  set (s2 := Z.quot d2 ratelimiter.Second) in *. set (n2 := Z.rem d2 ratelimiter.Second) in *.
  destruct (Seconds_nsec n1 Hn1) as (_ & _ & HB10 & HB11).
  destruct (Seconds_nsec n2 Hn2) as (_ & _ & HB20 & HB21).
  apply round_mono.
  rewrite (of_int_exact s1), (of_int_exact s2) by lia.
  destruct (Z.eq_dec s1 s2) as [Es|Hne].
  - rewrite Es. apply Qplus_le_r.
    unfold div. apply round_mono.
    rewrite !of_int_exact by (unfold ratelimiter.Second in *; lia).
    apply Qmult_le_compat_r; [|discriminate].
    rewrite <- Zle_Qle. nia.
  - assert (Hlt : inject_Z s1 + 1 <= inject_Z s2).
    { change 1 with (inject_Z 1). rewrite <- inject_Z_plus, <- Zle_Qle. lia. }
    set (B1 := div (of_int n1) 1000000000) in *. set (B2 := div (of_int n2) 1000000000) in *.
    lra.
Qed.

End Seconds_facts.

Section Amount.
Import Float64.
Local Open Scope Q_scope.

(** What a refill adds when it adds something: the elapsed time is
    positive and the tokens are those of the exact product, up to the
    three roundings. *)
Lemma newTokens_upper (d : Z) (r : Q) :
  0 <= r ->
  (0 < GoInt.of_float (mul (ratelimiter.Seconds d) r))%Z ->
  (0 < d)%Z
  /\ inject_Z (GoInt.of_float (mul (ratelimiter.Seconds d) r))
     <= limiter_spec.seconds d * r * limiter_spec.rounding.
Proof.
  intros Hr Ha. destruct (of_float_pos _ Ha) as [Ea _]. rewrite Ea in *. clear Ea.
  unfold mul in *. set (S := ratelimiter.Seconds d) in *.
  pose proof (Qfloor_le (round (S * r))) as Hfl.
  assert (H1 : 1 <= round (S * r)).
  { eapply Qle_trans; [|exact Hfl]. change 1 with (inject_Z 1). rewrite <- Zle_Qle. lia. }
  assert (Hhalf : 1 # 2 <= S * r).
  { destruct (Qlt_le_dec (S * r) (1 # 2)) as [Hlt|Hge]; [|exact Hge].
    exfalso. pose proof (round_mono (S * r) (1 # 2) (Qlt_le_weak _ _ Hlt)) as Hm.
    rewrite round_half in Hm. lra. }
  assert (Hd : (0 < d)%Z).
  { destruct (Z_lt_le_dec 0 d) as [H|H]; [exact H|exfalso].
    pose proof (Seconds_nonpos d H) as Hs. fold S in Hs.
    assert (S * r <= 0 * r) by (apply Qmult_le_compat_r; assumption). lra. }
  split; [exact Hd|].
  destruct (Seconds_bounds d Hd) as [_ Hup]. fold S in Hup.
  assert (Hsr : S * r <= limiter_spec.seconds d * r * ((1 + eps) * (1 + eps))).
  { eapply Qle_trans; [apply Qmult_le_compat_r; [exact Hup|exact Hr]|].
    apply Qle_lteq. right. ring. }
  assert (Htiny : 1 # 2147483648 <= S * r) by lra.
  destruct (round_relative_eps _ (pow2_tiny _ Htiny)) as [_ Hrel].
  assert (HX : 0 <= limiter_spec.seconds d * r).
  { apply Qmult_le_0_compat; [apply seconds_nonneg; lia|exact Hr]. }
  set (X := limiter_spec.seconds d * r) in *.
  unfold limiter_spec.rounding, eps in *. lra.
Qed.

(** The same whatever the signs of the elapsed time and of the rate. *)
Lemma newTokens_bound (d span : Z) (r rmax : Q) :
  (- span <= d <= span)%Z -> - rmax <= r -> r <= rmax ->
  (0 < GoInt.of_float (mul (ratelimiter.Seconds d) r))%Z ->
  inject_Z (GoInt.of_float (mul (ratelimiter.Seconds d) r))
  <= limiter_spec.seconds span * rmax * limiter_spec.rounding.
Proof.
  intros Hd Hlo Hhi Ha.
  assert (Hpos : forall d' r', (- span <= d' <= span)%Z -> 0 <= r' -> r' <= rmax ->
            (0 < GoInt.of_float (mul (ratelimiter.Seconds d') r'))%Z ->
            inject_Z (GoInt.of_float (mul (ratelimiter.Seconds d') r'))
            <= limiter_spec.seconds span * rmax * limiter_spec.rounding).
  { intros d' r' Hd' Hr0 Hr1 Ha'. destruct (newTokens_upper d' r' Hr0 Ha') as [Hdp Hle].
    eapply Qle_trans; [exact Hle|].
    apply Qmult_le_compat_r; [|unfold limiter_spec.rounding; lra].
    pose proof (seconds_mono d' span ltac:(lia)) as Hs.
    pose proof (seconds_nonneg d' ltac:(lia)) as Hs0.
    apply Qle_trans with (y := limiter_spec.seconds d' * rmax).
    - rewrite (Qmult_comm _ r'), (Qmult_comm _ rmax).
      apply Qmult_le_compat_r; [exact Hr1|exact Hs0].
    - apply Qmult_le_compat_r; [exact Hs|lra]. }
  destruct (Qlt_le_dec r 0) as [Hneg|Hnn].
  - assert (E : mul (ratelimiter.Seconds d) r = mul (ratelimiter.Seconds (- d)) (- r)).
    { unfold mul. apply round_comp. rewrite Seconds_opp. ring. }
    rewrite E in *. apply Hpos; try lia; lra.
  - apply Hpos; assumption.
Qed.

(** What a refill that adds nothing says of the elapsed time: it was worth
    about a token at most, or more tokens than an [int] holds. *)
Lemma newTokens_none (d : Z) (r : Q) :
  (0 <= d)%Z -> 0 <= r ->
  (GoInt.of_float (mul (ratelimiter.Seconds d) r) <= 0)%Z ->
  limiter_spec.seconds d * r * limiter_spec.rounding <= limiter_spec.slack
  \/ inject_Z (2 ^ 63) <= mul (ratelimiter.Seconds d) r.
Proof.
  intros Hd Hr Ha. unfold mul in *. set (S := ratelimiter.Seconds d) in *.
  assert (HS : 0 <= S) by (apply Seconds_nonneg; exact Hd).
  assert (Hz : 0 <= round (S * r)) by (apply round_nonneg, Qmult_le_0_compat; assumption).
  destruct (of_float_nonneg _ Hz Ha) as [Hsmall|Hhuge]; [left|right; exact Hhuge].
  assert (Hlt : S * r < 1).
  { destruct (Qlt_le_dec (S * r) 1) as [H|H]; [exact H|exfalso].
    pose proof (round_mono 1 (S * r) H) as Hm. rewrite round_one in Hm. lra. }
  destruct (Z.eq_dec d 0%Z) as [->|Hne].
  - unfold limiter_spec.seconds, limiter_spec.rounding, limiter_spec.slack.
    assert (E : (0 # 1000000000) == 0) by reflexivity. rewrite E. lra.
  - destruct (Seconds_bounds d ltac:(lia)) as [Hlow _]. fold S in Hlow.
    assert (Hsr : limiter_spec.seconds d * r * ((1 - eps) * (1 - eps)) <= S * r).
    { eapply Qle_trans; [|apply Qmult_le_compat_r; [exact Hlow|exact Hr]].
      apply Qle_lteq. right. ring. }
    set (X := limiter_spec.seconds d * r) in *.
    unfold limiter_spec.rounding, limiter_spec.slack, eps in *. lra.
Qed.

Lemma newTokens_stuck (d1 d2 : Z) (r : Q) :
  (0 <= d1 <= d2)%Z -> (d2 <= GoInt.maxInt)%Z -> 0 <= r ->
  inject_Z (2 ^ 63) <= mul (ratelimiter.Seconds d1) r ->
  inject_Z (2 ^ 63) <= mul (ratelimiter.Seconds d2) r.
Proof.
  intros Hd Hmax Hr H1. eapply Qle_trans; [exact H1|].
  unfold mul. apply round_mono. apply Qmult_le_compat_r; [|exact Hr].
  apply Seconds_mono; assumption.
Qed.

End Amount.

(** *** What each operation does to the table *)

Section Operations.

Import ratelimiter limiter_spec.

Context {S : Type} `{storage.Storage S}.
Variable clk : nat -> Z.

Local Ltac run_monad :=
  unfold bind, ret, get_limiter, set_buckets, set_storage, put_bucket, go, time_Now;
  cbn [fst snd limiter ticks goroutines buckets defaultCap defaultRate storage
       capacity tokens refillRate lastRefill lastAccess].

(** [Allow] for a client that has a bucket: two clock readings, the first
    for the refill, the second for [lastAccess]. *)
Lemma Allow_existing clientID (w : World S) bucket :
  buckets (limiter w) !! clientID = Some bucket ->
  Allow clk clientID w
  = let b1 := refill_at (clk (ticks w)) bucket in
    (0 <? tokens b1,
     {| limiter :=
          {| buckets :=
               <[clientID :=
                   {| capacity := capacity b1;
                      tokens := if 0 <? tokens b1 then GoInt.sub (tokens b1) 1 else tokens b1;
                      refillRate := refillRate b1;
                      lastRefill := lastRefill b1;
                      lastAccess := clk (Datatypes.S (ticks w)) |}]> (buckets (limiter w));
             defaultCap := defaultCap (limiter w);
             defaultRate := defaultRate (limiter w);
             storage := storage (limiter w) |};
        ticks := Datatypes.S (Datatypes.S (ticks w));
        goroutines := goroutines w |}).
Proof.
  intros E. unfold Allow, getBucket, refillBucket. run_monad. rewrite E. run_monad.
  destruct (0 <? tokens (refill_at (clk (ticks w)) bucket)); run_monad; reflexivity.
Qed.

(** [getBucket] returns the bucket of the table, installing a full one
    first when the client has none; no other entry changes. *)
Lemma getBucket_result clientID (w : World S) :
  let '(bucket, w1) := getBucket clk clientID w in
  buckets (limiter w1) !! clientID = Some bucket
  /\ (forall c, c <> clientID -> buckets (limiter w1) !! c = buckets (limiter w) !! c)
  /\ defaultCap (limiter w1) = defaultCap (limiter w)
  /\ defaultRate (limiter w1) = defaultRate (limiter w)
  /\ storage (limiter w1) = storage (limiter w)
  /\ match buckets (limiter w) !! clientID with
     | Some b0 => bucket = b0 /\ w1 = w
     | None => tokens bucket = capacity bucket
               /\ lastRefill bucket = clk (ticks w)
               /\ ticks w1 = Datatypes.S (ticks w)
     end.
Proof.
  unfold getBucket. run_monad.
  destruct (buckets (limiter w) !! clientID) as [b0|] eqn:E.
  - run_monad. rewrite E. repeat split; reflexivity.
  - destruct (storage (limiter w)) as [st|] eqn:Est.
    + destruct (storage.GetClientLimit clientID st) as [[[sc sr] ex] err].
      destruct err as [e|]; [|destruct ex]; run_monad; cbn -[insert lookup];
        run_monad; rewrite lookup_insert_eq;
        (repeat split; try reflexivity; try assumption);
        intros c Hc; rewrite lookup_insert_ne by congruence; reflexivity.
    + run_monad. cbn -[insert lookup]. run_monad. rewrite lookup_insert_eq.
      repeat split; try reflexivity; try assumption.
      intros c Hc. rewrite lookup_insert_ne by congruence. reflexivity.
Qed.

Lemma getBucket_ticks clientID (w : World S) :
  (ticks w <= ticks (snd (getBucket clk clientID w)))%nat.
Proof.
  pose proof (getBucket_result clientID w) as Hg.
  destruct (getBucket clk clientID w) as [b w1]. cbn.
  destruct Hg as (_ & _ & _ & _ & _ & Hg).
  destruct (buckets (limiter w) !! clientID).
  - destruct Hg as [_ ->]. lia.
  - destruct Hg as (_ & _ & ->). lia.
Qed.

(** [Allow] is [getBucket] followed by [Allow] on a client that has a
    bucket. *)
Lemma Allow_after_getBucket clientID (w : World S) :
  Allow clk clientID w = Allow clk clientID (snd (getBucket clk clientID w)).
Proof.
  pose proof (getBucket_result clientID w) as Hg.
  destruct (getBucket clk clientID w) as [b w1] eqn:Eg. cbn [snd].
  destruct Hg as (Hb & _).
  rewrite (Allow_existing clientID w1 b Hb).
  unfold Allow at 1. unfold bind at 1. rewrite Eg.
  unfold refillBucket. run_monad.
  destruct (0 <? tokens (refill_at (clk (ticks w1)) b)); run_monad; reflexivity.
Qed.

(** [Allow] leaves the buckets of the other clients alone. *)
Lemma Allow_frame clientID c (w : World S) :
  c <> clientID ->
  buckets (limiter (snd (Allow clk clientID w))) !! c = buckets (limiter w) !! c
  /\ (ticks w <= ticks (snd (Allow clk clientID w)))%nat.
Proof.
  intros Hc. rewrite Allow_after_getBucket.
  pose proof (getBucket_result clientID w) as Hg.
  pose proof (getBucket_ticks clientID w) as Ht.
  destruct (getBucket clk clientID w) as [b w1]. cbn [snd] in *.
  destruct Hg as (Hb & Hframe & _).
  rewrite (Allow_existing clientID w1 b Hb). cbn -[insert lookup].
  rewrite lookup_insert_ne by congruence. split; [apply Hframe; exact Hc|lia].
Qed.

Lemma refillEach_ticks clients : forall (w : World S),
  (ticks w <= ticks (snd (refillEach clk clients w)))%nat.
Proof.
  induction clients as [|c0 clients IH]; intros w; [cbn; lia|].
  cbn [refillEach]. run_monad.
  destruct (buckets (limiter w) !! c0) as [b0|].
  - unfold refillBucket. run_monad.
    etransitivity; [|apply IH]. cbn. lia.
  - run_monad. apply IH.
Qed.

(** The refill tick refills the buckets it visits and touches nothing
    else.  [P lo b] is a property of a bucket and of the clock reading
    [lo] of the last refill the history has tried on it; it passes from
    one refill to the next when the two readings are related by [ok]. *)
Lemma refillEach_preserves (P : Z -> TokenBucket -> Prop) (ok : Z -> Z -> Prop) c :
  (forall lo now b, ok lo now -> P lo b -> P now (refill_at now b)) ->
  forall clients (w : World S) b lo,
    buckets (limiter w) !! c = Some b -> P lo b ->
    (forall k, (ticks w <= k < ticks (snd (refillEach clk clients w)))%nat -> ok lo (clk k)) ->
    (forall i j, (ticks w <= i < j)%nat ->
                 (j < ticks (snd (refillEach clk clients w)))%nat -> ok (clk i) (clk j)) ->
    exists b' lo',
      buckets (limiter (snd (refillEach clk clients w))) !! c = Some b' /\ P lo' b'
      /\ (lo' = lo
          \/ exists i, (ticks w <= i < ticks (snd (refillEach clk clients w)))%nat
                       /\ lo' = clk i).
Proof.
  intros HP. induction clients as [|c0 clients IH]; intros w b lo Eb Pb Hv Hm.
  - cbn. exists b, lo. split; [exact Eb|]. split; [exact Pb|left; reflexivity].
  - cbn [refillEach] in *. revert Hv Hm. run_monad.
    destruct (buckets (limiter w) !! c0) as [b0|] eqn:E0.
    + unfold refillBucket. run_monad.
      set (w1 := {| limiter := _; ticks := Datatypes.S (ticks w); goroutines := goroutines w |}).
      intros Hv Hm.
      pose proof (refillEach_ticks clients w1) as Ht. cbn [ticks w1] in Ht.
      destruct (decide (c0 = c)) as [->|Hne].
      * rewrite Eb in E0. inversion E0; subst b0.
        destruct (IH w1 (refill_at (clk (ticks w)) b) (clk (ticks w)))
          as (b' & lo' & Eb' & Pb' & Hlo').
        -- cbn -[insert lookup]. apply lookup_insert_eq.
        -- apply (HP lo); [|exact Pb]. apply Hv. lia.
        -- intros k Hk. cbn [ticks w1] in Hk. apply Hm; lia.
        -- intros i j Hi Hj. cbn [ticks w1] in Hi. apply Hm; lia.
        -- exists b', lo'. split; [exact Eb'|]. split; [exact Pb'|]. right.
           destruct Hlo' as [->|(i & Hi & ->)].
           ++ exists (ticks w). split; [lia|reflexivity].
           ++ exists i. cbn [ticks w1] in Hi. split; [lia|reflexivity].
      * destruct (IH w1 b lo) as (b' & lo' & Eb' & Pb' & Hlo').
        -- cbn -[insert lookup]. rewrite lookup_insert_ne by exact Hne. exact Eb.
        -- exact Pb.
        -- intros k Hk. apply Hv. cbn [ticks w1] in Hk. lia.
        -- intros i j Hi Hj. cbn [ticks w1] in Hi. apply Hm; lia.
        -- exists b', lo'. split; [exact Eb'|]. split; [exact Pb'|].
           destruct Hlo' as [->|(i & Hi & ->)]; [left; reflexivity|right].
           exists i. cbn [ticks w1] in Hi. split; [lia|reflexivity].
    + run_monad. intros Hv Hm. apply (IH w b lo); assumption.
Qed.

Lemma refillTokens_preserves (P : Z -> TokenBucket -> Prop) (ok : Z -> Z -> Prop) c
      (w : World S) b lo :
  (forall lo now b, ok lo now -> P lo b -> P now (refill_at now b)) ->
  buckets (limiter w) !! c = Some b -> P lo b ->
  (forall k, (ticks w <= k < ticks (snd (refillTokens clk w)))%nat -> ok lo (clk k)) ->
  (forall i j, (ticks w <= i < j)%nat ->
               (j < ticks (snd (refillTokens clk w)))%nat -> ok (clk i) (clk j)) ->
  (ticks w <= ticks (snd (refillTokens clk w)))%nat
  /\ exists b' lo',
       buckets (limiter (snd (refillTokens clk w))) !! c = Some b' /\ P lo' b'
       /\ (lo' = lo
           \/ exists i, (ticks w <= i < ticks (snd (refillTokens clk w)))%nat /\ lo' = clk i).
Proof.
  intros HP Eb Pb. unfold refillTokens. run_monad. intros Hv Hm. split.
  - apply refillEach_ticks.
  - eapply refillEach_preserves; eauto.
Qed.

(** [SetClientLimit], [DeleteClientLimit], [GetClientLimit] and the
    goroutines leave the buckets of the other clients alone. *)
Lemma SetClientLimit_frame clientID capacity refillRate c (w : World S) :
  c <> clientID ->
  buckets (limiter (snd (SetClientLimit clk clientID capacity refillRate w))) !! c
  = buckets (limiter w) !! c
  /\ (ticks w <= ticks (snd (SetClientLimit clk clientID capacity refillRate w)))%nat.
Proof.
  intros Hc. unfold SetClientLimit. run_monad.
  destruct (buckets (limiter w) !! clientID) as [b0|]; run_monad;
    (destruct (storage (limiter w)) as [st|];
     [destruct (storage.SaveClientLimit clientID capacity refillRate st) as [err st']|];
     run_monad; cbn -[insert lookup];
     rewrite lookup_insert_ne by congruence; (split; [reflexivity|lia])).
Qed.

Lemma DeleteClientLimit_frame clientID c (w : World S) :
  c <> clientID ->
  buckets (limiter (snd (DeleteClientLimit clientID w))) !! c = buckets (limiter w) !! c
  /\ (ticks w <= ticks (snd (DeleteClientLimit clientID w)))%nat.
Proof.
  intros Hc. unfold DeleteClientLimit. run_monad.
  destruct (storage (limiter w)) as [st|];
    [destruct (storage.DeleteClientLimit clientID st) as [err st']|];
    run_monad; cbn -[delete lookup];
    rewrite lookup_delete_ne by congruence; (split; [reflexivity|lia]).
Qed.

Lemma GetClientLimit_pure clientID (w : World S) :
  snd (GetClientLimit clientID w) = w.
Proof.
  unfold GetClientLimit. run_monad.
  destruct (buckets (limiter w) !! clientID); reflexivity.
Qed.

Lemma run_goroutine_buckets (w : World S) :
  buckets (limiter (snd (run_goroutine w))) = buckets (limiter w)
  /\ ticks (snd (run_goroutine w)) = ticks w.
Proof.
  unfold run_goroutine. destruct (goroutines w) as [|t rest]; [split; reflexivity|].
  destruct (storage (limiter w)) as [st|]; [|split; reflexivity].
  destruct (storage.SaveClientLimit _ _ _ st) as [err st']. split; reflexivity.
Qed.

(** The clock only moves forward through a history. *)
Lemma step_ticks (o : op) (w : World S) : (ticks w <= ticks (snd (step clk o w)))%nat.
Proof.
  destruct o as [c| | |c cap rate|c|c|]; cbn [step]; unfold bind, ret.
  - destruct (Allow clk c w) as [r w1] eqn:EA. cbn [snd].
    replace w1 with (snd (Allow clk c w)) by (rewrite EA; reflexivity).
    rewrite Allow_after_getBucket.
    pose proof (getBucket_result c w) as Hg. pose proof (getBucket_ticks c w) as Ht.
    destruct (getBucket clk c w) as [b w0]. cbn [snd] in *. destruct Hg as (Hb & _).
    rewrite (Allow_existing c w0 b Hb). cbn. lia.
  - destruct (refillTokens clk w) as [[] w1] eqn:ER. cbn [snd].
    replace w1 with (snd (refillTokens clk w)) by (rewrite ER; reflexivity).
    unfold refillTokens. run_monad. apply refillEach_ticks.
  - unfold cleanupInactiveBuckets. run_monad. cbn. lia.
  - destruct (SetClientLimit clk c cap rate w) as [[] w1] eqn:ES. cbn [snd].
    replace w1 with (snd (SetClientLimit clk c cap rate w)) by (rewrite ES; reflexivity).
    unfold SetClientLimit. run_monad.
    destruct (buckets (limiter w) !! c) as [b0|]; run_monad;
      (destruct (storage (limiter w)) as [st|];
       [destruct (storage.SaveClientLimit c cap rate st) as [err st']|];
       run_monad; cbn; lia).
  - destruct (GetClientLimit c w) as [r w1] eqn:EG. cbn [snd].
    pose proof (GetClientLimit_pure c w) as Hp. rewrite EG in Hp. cbn in Hp. subst w1. lia.
  - destruct (DeleteClientLimit c w) as [e w1] eqn:ED. cbn [snd].
    replace w1 with (snd (DeleteClientLimit c w)) by (rewrite ED; reflexivity).
    unfold DeleteClientLimit. run_monad.
    destruct (storage (limiter w)) as [st|];
      [destruct (storage.DeleteClientLimit c st) as [err st']|]; run_monad; cbn; lia.
  - destruct (run_goroutine w) as [[] w1] eqn:EG. cbn [snd].
    pose proof (run_goroutine_buckets w) as [_ Ht]. rewrite EG in Ht. cbn in Ht. lia.
Qed.

Lemma run_cons (o : op) ops (w : World S) :
  run clk (o :: ops) w
  = (fst (step clk o w) :: fst (run clk ops (snd (step clk o w))),
     snd (run clk ops (snd (step clk o w)))).
Proof.
  cbn [run]. unfold bind, ret.
  destruct (step clk o w) as [r w1]. cbn [fst snd].
  destruct (run clk ops w1) as [rs w2]. reflexivity.
Qed.

Lemma run_ticks ops : forall (w : World S), (ticks w <= ticks (snd (run clk ops w)))%nat.
Proof.
  induction ops as [|o ops IH]; intros w; [cbn; lia|].
  rewrite run_cons. cbn [snd].
  etransitivity; [apply (step_ticks o w)|apply IH].
Qed.

Lemma allowed_count_cons c (o : op) ops r rs :
  allowed_count c (o :: ops) (r :: rs) = (allowed_count c [o] [r] + allowed_count c ops rs)%nat.
Proof. destruct o, r; cbn; lia. Qed.

End Operations.

(** What [SetClientLimit] does to the table and to the store. *)
Lemma SetClientLimit_buckets {S : Type} `{storage.Storage S}
  (clk : nat -> Z) (clientID : string) (capacity : Z) (refillRate : Q)
  (w : ratelimiter.World S) :
  let w' := snd (ratelimiter.SetClientLimit clk clientID capacity refillRate w) in
  ratelimiter.buckets (ratelimiter.limiter w')
  = <[clientID :=
        match ratelimiter.buckets (ratelimiter.limiter w) !! clientID with
        | Some b => limiter_spec.reconfigure capacity refillRate b
        | None => {| ratelimiter.capacity := capacity;
                     ratelimiter.tokens := capacity;
                     ratelimiter.refillRate := refillRate;
                     ratelimiter.lastRefill := clk (ratelimiter.ticks w);
                     ratelimiter.lastAccess := clk (ratelimiter.ticks w) |}
        end]> (ratelimiter.buckets (ratelimiter.limiter w))
  /\ ratelimiter.storage (ratelimiter.limiter w')
     = match ratelimiter.storage (ratelimiter.limiter w) with
       | Some st => Some (snd (storage.SaveClientLimit clientID capacity refillRate st))
       | None => None
       end.
Proof.
  intros w'. subst w'. unfold ratelimiter.SetClientLimit.
  unfold ratelimiter.bind, ratelimiter.ret, ratelimiter.get_limiter,
    ratelimiter.put_bucket, ratelimiter.set_buckets, ratelimiter.set_storage,
    ratelimiter.time_Now.
  cbn [fst snd ratelimiter.limiter ratelimiter.ticks ratelimiter.buckets ratelimiter.storage].
  destruct (ratelimiter.buckets (ratelimiter.limiter w) !! clientID) as [b0|] eqn:Eb;
    cbn [fst snd ratelimiter.limiter ratelimiter.ticks ratelimiter.buckets ratelimiter.storage];
    (destruct (ratelimiter.storage (ratelimiter.limiter w)) as [st|] eqn:Est;
     [destruct (storage.SaveClientLimit clientID capacity refillRate st) as [err st'] eqn:Esave|];
     cbn -[insert lookup Z.min]; (split; [|try rewrite Est; reflexivity])).
  all: try reflexivity.
  all: unfold limiter_spec.reconfigure; do 2 f_equal;
    destruct (Z.ltb_spec capacity (ratelimiter.tokens b0)); lia.
Qed.

(** *** Histories of one bucket

    An invariant [J lo n b] of the bucket [b] of a client, of the number
    [n] of its allowed requests and of the clock reading [lo] of the last
    refill tried on the bucket.  When it is kept by the refill at every
    clock reading of the history, by the refill and decrement of [Allow]
    and by the reconfigurations of the history, it holds along every
    history that leaves the bucket in the table. *)

Section History.

Import ratelimiter limiter_spec.

Context {S : Type} `{storage.Storage S}.
Variable clk : nat -> Z.
Variable clientID : string.
Variable J : Z -> nat -> TokenBucket -> Prop.

(** [ok lo now]: the reading [now] may follow the reading [lo]. *)
Variable ok : Z -> Z -> Prop.

Variable ok_set : Z -> Q -> Prop.

Hypothesis J_refill : forall lo n now b, ok lo now -> J lo n b -> J now n (refill_at now b).
Hypothesis J_allow : forall lo n now1 now2 b,
  ok lo now1 -> J lo n b ->
  J now1 (n + (if 0 <? tokens (refill_at now1 b) then 1 else 0))
    (consume now2 (refill_at now1 b)).
Hypothesis J_set : forall lo n capacity refillRate b,
  ok_set capacity refillRate -> J lo n b -> J lo n (reconfigure capacity refillRate b).

Lemma Allow_consume (w : World S) b :
  buckets (limiter w) !! clientID = Some b ->
  Allow clk clientID w
  = (0 <? tokens (refill_at (clk (ticks w)) b),
     {| limiter :=
          {| buckets := <[clientID := consume (clk (Datatypes.S (ticks w)))
                                        (refill_at (clk (ticks w)) b)]> (buckets (limiter w));
             defaultCap := defaultCap (limiter w);
             defaultRate := defaultRate (limiter w);
             storage := storage (limiter w) |};
        ticks := Datatypes.S (Datatypes.S (ticks w));
        goroutines := goroutines w |}).
Proof. intros E. rewrite (Allow_existing clk clientID w b E). reflexivity. Qed.

Lemma step_history (o : op) (w : World S) b lo n :
  stays ok_set clientID o (snd (step clk o w)) ->
  buckets (limiter w) !! clientID = Some b ->
  J lo n b ->
  (forall k, (ticks w <= k < ticks (snd (step clk o w)))%nat -> ok lo (clk k)) ->
  (forall i j, (ticks w <= i < j)%nat ->
               (j < ticks (snd (step clk o w)))%nat -> ok (clk i) (clk j)) ->
  (ticks w <= ticks (snd (step clk o w)))%nat
  /\ exists b' lo',
       buckets (limiter (snd (step clk o w))) !! clientID = Some b'
       /\ J lo' (n + allowed_count clientID [o] [fst (step clk o w)]) b'
       /\ (lo' = lo
           \/ exists i, (ticks w <= i < ticks (snd (step clk o w)))%nat /\ lo' = clk i).
Proof.
  intros Hk Eb HJ.
  destruct o as [c| | |c cap rate|c|c|]; cbn [step stays] in *; unfold bind, ret in *.
  - destruct (decide (c = clientID)) as [->|Hne].
    + rewrite (Allow_consume w b Eb). cbn -[insert lookup refill_at consume].
      intros Hv _. split; [lia|].
      eexists _, (clk (ticks w)). split; [apply lookup_insert_eq|].
      rewrite bool_decide_eq_true_2 by reflexivity. cbn [andb].
      rewrite Nat.add_0_r. split.
      * apply (J_allow lo); [|exact HJ]. apply Hv. lia.
      * right. exists (ticks w). split; [lia|reflexivity].
    + destruct (Allow clk c w) as [r w1] eqn:EA.
      pose proof (Allow_frame clk c clientID w ltac:(congruence)) as [Hf Ht].
      rewrite EA in Hf, Ht. cbn [fst snd] in *. intros _ _. split; [exact Ht|].
      exists b, lo. split; [rewrite Hf; exact Eb|].
      cbn. rewrite bool_decide_eq_false_2 by exact Hne. cbn.
      rewrite Nat.add_0_r. split; [exact HJ|left; reflexivity].
  - destruct (refillTokens clk w) as [[] w1] eqn:ER. cbn [fst snd]. intros Hv Hm.
    pose proof (refillTokens_preserves clk (fun lo => J lo n) ok clientID w b lo
                  (fun lo => J_refill lo n) Eb HJ) as Hp.
    rewrite ER in Hp. cbn [snd] in Hp.
    destruct (Hp Hv Hm) as [Ht (b' & lo' & Eb' & HJ' & Hlo')].
    split; [exact Ht|]. exists b', lo'. split; [exact Eb'|].
    cbn. rewrite Nat.add_0_r. split; assumption.
  - revert Hk. unfold cleanupInactiveBuckets, bind, ret, time_Now, get_limiter, set_buckets.
    cbn [fst snd limiter ticks buckets]. intros [b' Eb'] _ _. split; [lia|].
    exists b, lo. split.
    + rewrite Eb'. apply map_lookup_filter_Some in Eb'. destruct Eb' as [Eb' _].
      rewrite Eb in Eb'. symmetry. exact Eb'.
    + cbn. rewrite Nat.add_0_r. split; [exact HJ|left; reflexivity].
  - pose proof (step_ticks clk (OpSetClientLimit c cap rate) w) as Ht.
    cbn [step] in Ht. unfold bind, ret in Ht.
    destruct (SetClientLimit clk c cap rate w) as [[] w1] eqn:ES. cbn [fst snd] in *.
    intros _ _. split; [exact Ht|].
    destruct (decide (c = clientID)) as [->|Hne].
    + destruct Hk as [Hk|Hk]; [contradiction|].
      destruct (SetClientLimit_buckets clk clientID cap rate w) as (Hex & _).
      rewrite ES in Hex. cbn [snd] in Hex.
      exists (reconfigure cap rate b), lo.
      split; [rewrite Hex, Eb; apply lookup_insert_eq|].
      cbn. rewrite Nat.add_0_r. split; [apply J_set; assumption|left; reflexivity].
    + pose proof (SetClientLimit_frame clk c cap rate clientID w ltac:(congruence)) as [Hf _].
      rewrite ES in Hf. cbn [snd] in *.
      exists b, lo. split; [rewrite Hf; exact Eb|]. cbn. rewrite Nat.add_0_r.
      split; [exact HJ|left; reflexivity].
  - destruct (GetClientLimit c w) as [r w1] eqn:EG. cbn [fst snd]. intros _ _.
    pose proof (GetClientLimit_pure c w) as Hp. rewrite EG in Hp. cbn in Hp. subst w1.
    split; [lia|]. exists b, lo. split; [exact Eb|]. cbn. rewrite Nat.add_0_r.
    split; [exact HJ|left; reflexivity].
  - destruct (DeleteClientLimit c w) as [e w1] eqn:ED. cbn [fst snd] in *. intros _ _.
    pose proof (DeleteClientLimit_frame c clientID w ltac:(congruence)) as [Hf Ht].
    rewrite ED in Hf, Ht. cbn [snd] in *. split; [exact Ht|].
    exists b, lo. split; [rewrite Hf; exact Eb|]. cbn. rewrite Nat.add_0_r.
    split; [exact HJ|left; reflexivity].
  - destruct (run_goroutine w) as [[] w1] eqn:EG. cbn [fst snd]. intros _ _.
    pose proof (run_goroutine_buckets w) as [Hf Ht].
    rewrite EG in Hf, Ht. cbn [snd] in *. split; [lia|].
    exists b, lo. split; [rewrite Hf; exact Eb|]. cbn. rewrite Nat.add_0_r.
    split; [exact HJ|left; reflexivity].
Qed.

Lemma run_history ops : forall (w : World S) b lo n,
  bucket_stays clk ok_set clientID ops w ->
  buckets (limiter w) !! clientID = Some b ->
  J lo n b ->
  (forall k, (ticks w <= k < ticks (snd (run clk ops w)))%nat -> ok lo (clk k)) ->
  (forall i j, (ticks w <= i < j)%nat ->
               (j < ticks (snd (run clk ops w)))%nat -> ok (clk i) (clk j)) ->
  exists b' lo', buckets (limiter (snd (run clk ops w))) !! clientID = Some b'
                 /\ J lo' (n + allowed_count clientID ops (fst (run clk ops w))) b'.
Proof.
  induction ops as [|o ops IH]; intros w b lo n Hk Eb HJ Hv Hm.
  - cbn. exists b, lo. rewrite Nat.add_0_r. split; assumption.
  - rewrite run_cons in *. cbn [fst snd] in *.
    cbn [bucket_stays] in Hk. destruct Hk as [Ho Hk].
    pose proof (run_ticks clk ops (snd (step clk o w))) as Ht2.
    destruct (step_history o w b lo n Ho Eb HJ) as [Ht1 (b1 & lo1 & Eb1 & HJ1 & Hlo1)].
    { intros k Hkr. apply Hv. lia. }
    { intros i j Hi Hj. apply Hm; lia. }
    destruct (IH (snd (step clk o w)) b1 lo1 _ Hk Eb1 HJ1) as (b2 & lo2 & Eb2 & HJ2).
    { intros k Hkr. destruct Hlo1 as [->|(i & Hi & ->)]; [apply Hv; lia|apply Hm; lia]. }
    { intros i j Hi Hj. apply Hm; lia. }
    exists b2, lo2. split; [exact Eb2|].
    rewrite allowed_count_cons, Nat.add_assoc. exact HJ2.
Qed.

End History.

(** *** The rate bound *)

Lemma wrap_le z : GoInt.minInt <= z -> GoInt.wrap z <= z.
Proof.
  unfold GoInt.wrap, GoInt.minInt. intros Hz.
  pose proof (Z.mod_le (z + 2 ^ 63) (2 ^ 64) ltac:(lia) ltac:(lia)). lia.
Qed.

Lemma Qfloor_bound (z : Z) (y : Q) : (inject_Z z <= y)%Q -> z <= Qfloor y.
Proof. intros H. rewrite <- (Qfloor_Z z). apply Qfloor_resp_le. exact H. Qed.

Section RateBound.

Import ratelimiter limiter_spec.

Variable tend : Z.
Variable rate : Q.
Variable cap : Z.
Variable budget : Q.

Hypothesis rate_nonneg : (0 <= rate)%Q.

Local Abbreviation within_budget := (limiter_spec.within_budget tend rate cap budget).

(** A refill turns elapsed time into tokens and never gains on it. *)
Lemma refill_at_potential now b :
  now <= tend -> bucket_wf b -> refillRate b = rate -> lastRefill b <= tend ->
  bucket_wf (refill_at now b)
  /\ lastRefill (refill_at now b) <= tend
  /\ (potential tend rate (refill_at now b) <= potential tend rate b)%Q.
Proof.
  intros Hnow [Ht Hc] Hr Hl. unfold refill_at. rewrite Hr.
  set (a := GoInt.of_float (Float64.mul (Seconds (now - lastRefill b)) rate)).
  destruct (Z.ltb_spec 0 a) as [Hpos|Hnp].
  - destruct (newTokens_upper (now - lastRefill b) rate rate_nonneg Hpos) as [Hd Hup].
    fold a in Hup.
    pose proof (wrap_range (tokens b + a)) as Hwr.
    pose proof (wrap_le (tokens b + a) ltac:(lia)) as Hwl.
    unfold GoInt.add.
    assert (Hsplit : (seconds (tend - lastRefill b)
                      == seconds (now - lastRefill b) + seconds (tend - now))%Q).
    { rewrite seconds_add. replace (now - lastRefill b + (tend - now))
        with (tend - lastRefill b) by lia. reflexivity. }
    unfold bucket_wf, potential. cbn [tokens capacity lastRefill].
    set (t' := if capacity b <? GoInt.wrap (tokens b + a)
               then capacity b else GoInt.wrap (tokens b + a)).
    assert (Ht' : GoInt.minInt <= t' <= GoInt.maxInt /\ Z.max t' 0 <= Z.max (tokens b) 0 + a).
    { unfold t'. destruct (Z.ltb_spec (capacity b) (GoInt.wrap (tokens b + a))); lia. }
    destruct Ht' as [Hwf' Hmax'].
    split; [split; assumption|]. split; [exact Hnow|].
    rewrite Hsplit. rewrite Zle_Qle, inject_Z_plus in Hmax'.
    set (X1 := (seconds (now - lastRefill b) * rate * rounding)%Q) in *.
    set (s2 := seconds (tend - now)).
    assert (E : ((seconds (now - lastRefill b) + s2) * rate * rounding
                 == X1 + s2 * rate * rounding)%Q) by (unfold X1; ring).
    rewrite E. lra.
  - split; [split; assumption|]. split; [exact Hl|]. apply Qle_refl.
Qed.

Lemma within_budget_refill n now b :
  now <= tend -> within_budget n b -> within_budget n (refill_at now b).
Proof.
  intros Hnow (Hwf & Hr & Hc & Hl & Hb).
  destruct (refill_at_potential now b Hnow Hwf Hr Hl) as (Hwf' & Hl' & Hp').
  split; [exact Hwf'|]. split; [|split; [|split; [exact Hl'|]]].
  - unfold refill_at. destruct (0 <? _); exact Hr.
  - unfold refill_at. destruct (0 <? _); exact Hc.
  - lra.
Qed.

Lemma within_budget_consume n now b :
  within_budget n b ->
  within_budget (n + (if 0 <? tokens b then 1 else 0)) (consume now b).
Proof.
  intros ([Ht Hcr] & Hr & Hc & Hl & Hb).
  unfold limiter_spec.within_budget, bucket_wf, potential, consume in *.
  cbn [tokens capacity refillRate lastRefill].
  destruct (Z.ltb_spec 0 (tokens b)) as [Hpos|Hnp].
  - unfold GoInt.sub.
    rewrite wrap_in_range by (unfold GoInt.minInt, GoInt.maxInt in *; lia).
    split; [unfold GoInt.minInt, GoInt.maxInt in *; lia|].
    split; [exact Hr|]. split; [exact Hc|]. split; [exact Hl|].
    assert (E : (inject_Z (Z.of_nat (n + 1)) + inject_Z (Z.max (tokens b - 1) 0)
                 == inject_Z (Z.of_nat n) + inject_Z (Z.max (tokens b) 0))%Q).
    { rewrite <- !inject_Z_plus. apply inject_Z_injective. lia. }
    lra.
  - rewrite Nat.add_0_r.
    split; [split; assumption|]. split; [exact Hr|]. split; [exact Hc|].
    split; [exact Hl|exact Hb].
Qed.

Lemma potential_nonneg b : lastRefill b <= tend -> (0 <= potential tend rate b)%Q.
Proof.
  intros Hl. unfold potential.
  assert (H1 : (0 <= inject_Z (Z.max (tokens b) 0))%Q).
  { change 0%Q with (inject_Z 0). rewrite <- Zle_Qle. lia. }
  assert (H2 : (0 <= seconds (tend - lastRefill b) * rate * rounding)%Q).
  { apply Qmult_le_0_compat; [|unfold rounding; lra].
    apply Qmult_le_0_compat; [apply seconds_nonneg; lia|exact rate_nonneg]. }
  lra.
Qed.

Lemma within_budget_count n b : within_budget n b -> (inject_Z (Z.of_nat n) <= budget)%Q.
Proof.
  intros (_ & _ & _ & Hl & Hb). pose proof (potential_nonneg b Hl). lra.
Qed.

End RateBound.

(** *** The rate bound in a window that starts anywhere *)

Section WindowBound.

Import ratelimiter limiter_spec.

Variables start T cap : Z.
Variable rate : Q.

Hypothesis rate_nonneg : (0 <= rate)%Q.
Hypothesis T_nonneg : 0 <= T.
Hypothesis cap_nonneg : 0 <= cap.

Let tend : Z := start + T.
Let budget : Q := (inject_Z cap + seconds T * rate * rounding + slack)%Q.

Local Abbreviation window_budget := (limiter_spec.window_budget start tend rate cap budget).
Local Abbreviation window_touched := (limiter_spec.window_touched tend rate cap budget).

Lemma window_credit_nonneg : (0 <= seconds T * rate * rounding)%Q.
Proof.
  apply Qmult_le_0_compat; [|unfold rounding; lra].
  apply Qmult_le_0_compat; [apply seconds_nonneg; exact T_nonneg|exact rate_nonneg].
Qed.

Lemma window_credit_rest now :
  start <= now <= tend -> (seconds (tend - now) * rate * rounding <= seconds T * rate * rounding)%Q.
Proof.
  intros Hnow. apply Qmult_le_compat_r; [|unfold rounding; lra].
  apply Qmult_le_compat_r; [|exact rate_nonneg]. apply seconds_mono. unfold tend in *. lia.
Qed.

(** The first refill in the window brings the bucket within the budget,
    or finds that it cannot be refilled any more: the refill either fills
    the bucket up to at most its capacity, or adds nothing because the
    credit from before the window is small, or adds nothing because that
    credit is more than an [int] holds. *)
Lemma window_budget_refill lo n now b :
  lo <= now /\ start <= now <= tend ->
  window_budget lo n b -> window_touched now n (refill_at now b).
Proof.
  intros [Hlo Hnow] [(Hn & [Ht Hc] & Hr & Hcap & Hle & Hl & Hrange)|[HJ|HS]].
  - pose proof window_credit_nonneg as HT0. pose proof (window_credit_rest now Hnow) as Hrest.
    subst n. unfold refill_at. rewrite Hr.
    set (a := GoInt.of_float (Float64.mul (Seconds (now - lastRefill b)) rate)).
    destruct (Z.ltb_spec 0 a) as [Hpos|Hnp].
    + left. pose proof (wrap_range (tokens b + a)) as Hwr.
      unfold limiter_spec.within_budget, bucket_wf, potential, GoInt.add.
      cbn [tokens capacity refillRate lastRefill].
      set (t' := if capacity b <? GoInt.wrap (tokens b + a)
                 then capacity b else GoInt.wrap (tokens b + a)).
      assert (Ht' : GoInt.minInt <= t' <= GoInt.maxInt /\ Z.max t' 0 <= cap).
      { unfold t'. destruct (Z.ltb_spec (capacity b) (GoInt.wrap (tokens b + a))); lia. }
      destruct Ht' as [Hwf' Hmax']. rewrite Zle_Qle in Hmax'.
      split; [split; assumption|]. split; [reflexivity|]. split; [exact Hcap|].
      split; [lia|]. unfold budget. change (inject_Z (Z.of_nat 0)) with 0%Q.
      unfold slack. lra.
    + destruct (newTokens_none (now - lastRefill b) rate ltac:(lia) rate_nonneg Hnp)
        as [Hsmall|Hhuge].
      * left. unfold limiter_spec.within_budget, potential.
        split; [split; assumption|]. split; [exact Hr|]. split; [exact Hcap|].
        split; [lia|].
        assert (Hsplit : (seconds (tend - lastRefill b)
                          == seconds (now - lastRefill b) + seconds (tend - now))%Q).
        { rewrite seconds_add. replace (now - lastRefill b + (tend - now))
            with (tend - lastRefill b) by lia. reflexivity. }
        rewrite Hsplit.
        assert (Hmax' : (inject_Z (Z.max (tokens b) 0) <= inject_Z cap)%Q)
          by (rewrite <- Zle_Qle; lia).
        set (X1 := (seconds (now - lastRefill b) * rate * rounding)%Q) in *.
        set (s2 := seconds (tend - now)) in *.
        assert (E : ((seconds (now - lastRefill b) + s2) * rate * rounding
                     == X1 + s2 * rate * rounding)%Q) by (unfold X1; ring).
        rewrite E. unfold budget. change (inject_Z (Z.of_nat 0)) with 0%Q. lra.
      * right. unfold limiter_spec.window_stuck.
        split; [split; assumption|]. split; [exact Hr|]. split; [exact Hcap|].
        split; [cbn [Z.of_nat]; lia|]. split; [lia|]. split; [exact Hrange|exact Hhuge].
  - left. apply within_budget_refill; [exact rate_nonneg|lia|exact HJ].
  - right. destruct HS as (Hwf & Hr & Hcap & Hsum & Hl & Hrange & Hhuge).
    assert (Hhuge' : (inject_Z (2 ^ 63) <= Float64.mul (Seconds (now - lastRefill b)) rate)%Q).
    { apply (newTokens_stuck (lo - lastRefill b)); try assumption; lia. }
    unfold refill_at. rewrite Hr, (of_float_huge _ Hhuge').
    change (0 <? GoInt.minInt) with false. cbn iota.
    split; [exact Hwf|]. split; [exact Hr|]. split; [exact Hcap|].
    split; [exact Hsum|]. split; [lia|]. split; [exact Hrange|exact Hhuge'].
Qed.

Lemma window_touched_consume lo n now b :
  window_touched lo n b ->
  window_touched lo (n + (if 0 <? tokens b then 1 else 0)) (consume now b).
Proof.
  intros [HJ|([Ht Hc] & Hr & Hcap & Hsum & Hl & Hrange & Hhuge)].
  - left. apply within_budget_consume. exact HJ.
  - right. unfold limiter_spec.window_stuck, bucket_wf, consume.
    cbn [tokens capacity refillRate lastRefill].
    destruct (Z.ltb_spec 0 (tokens b)) as [Hpos|Hnp].
    + unfold GoInt.sub.
      rewrite wrap_in_range by (unfold GoInt.minInt, GoInt.maxInt in *; lia).
      unfold GoInt.minInt, GoInt.maxInt in *.
      repeat split; try assumption; lia.
    + rewrite Nat.add_0_r. repeat split; try assumption; lia.
Qed.

Lemma window_budget_allow lo n now1 now2 b :
  lo <= now1 /\ start <= now1 <= tend ->
  window_budget lo n b ->
  window_budget now1
    (n + (if 0 <? tokens (refill_at now1 b) then 1 else 0))
    (consume now2 (refill_at now1 b)).
Proof.
  intros Hnow HJ. right. apply window_touched_consume.
  apply (window_budget_refill lo); assumption.
Qed.

Lemma window_budget_count lo n b :
  window_budget lo n b -> Z.of_nat n <= cap + Qfloor ((seconds T * rate + 1) * slack).
Proof.
  pose proof window_credit_nonneg as HT0.
  assert (HX : (0 <= seconds T * rate)%Q).
  { apply Qmult_le_0_compat; [apply seconds_nonneg; exact T_nonneg|exact rate_nonneg]. }
  assert (Hfl : 0 <= Qfloor ((seconds T * rate + 1) * slack)).
  { apply Qfloor_bound. change (inject_Z 0) with 0%Q.
    apply Qmult_le_0_compat; [lra|unfold slack; lra]. }
  intros [(Hn & _)|[HJ|(_ & _ & _ & Hsum & _)]].
  - subst n. cbn [Z.of_nat]. lia.
  - apply within_budget_count in HJ; [|exact rate_nonneg].
    assert (Z.of_nat n - cap <= Qfloor ((seconds T * rate + 1) * slack)); [|lia].
    apply Qfloor_bound. unfold Zminus. rewrite inject_Z_plus, inject_Z_opp.
    unfold budget in HJ. set (X := (seconds T * rate)%Q) in *.
    unfold rounding, slack in *. lra.
  - lia.
Qed.

End WindowBound.

(** C3, as amended.  A bucket with capacity [C >= 0] and rate [R >= 0],
    along a history that leaves the bucket in the table (no step deletes
    or reconfigures the client, no eviction tick removes the bucket) and
    whose clock readings all lie in a window of [T >= 0] nanoseconds ([T]
    in seconds in the products):
    - when the bucket is full and the window starts at its [lastRefill]
      (as right after its creation), at most
      [C + floor (T * R * (1 + 2^-50))] calls of [Allow] for the client
      return [true];
    - when the window starts anywhere after its [lastRefill], the clock
      does not go backwards and the end of the window is within the range
      of [time.Duration] of [lastRefill], at most
      [C + floor ((T * R + 1) * (1 + 2^-50))] do.
    The factor covers the rounding of the [float64] product
    [elapsed * refillRate]. *)
Theorem Allow_rate_bound :
  (forall (S : Type) `(storage.Storage S) (clk : nat -> Z) (clientID : string)
          (w : ratelimiter.World S) (b : ratelimiter.TokenBucket)
          (ops : list ratelimiter.op) (T : Z),
      ratelimiter.buckets (ratelimiter.limiter w) !! clientID = Some b ->
      ratelimiter.tokens b = ratelimiter.capacity b ->
      0 <= ratelimiter.capacity b <= GoInt.maxInt ->
      (0 <= ratelimiter.refillRate b)%Q ->
      0 <= T ->
      limiter_spec.bucket_stays clk limiter_spec.no_limits clientID ops w ->
      (forall k, (ratelimiter.ticks w <= k
                  < ratelimiter.ticks (snd (ratelimiter.run clk ops w)))%nat ->
                 clk k <= ratelimiter.lastRefill b + T) ->
      Z.of_nat (limiter_spec.allowed_count clientID ops (fst (ratelimiter.run clk ops w)))
      <= ratelimiter.capacity b
         + Qfloor (limiter_spec.seconds T * ratelimiter.refillRate b * limiter_spec.slack))
  /\ (forall (S : Type) `(storage.Storage S) (clk : nat -> Z) (clientID : string)
             (w : ratelimiter.World S) (b : ratelimiter.TokenBucket)
             (ops : list ratelimiter.op) (start T : Z),
      ratelimiter.buckets (ratelimiter.limiter w) !! clientID = Some b ->
      limiter_spec.bucket_wf b ->
      ratelimiter.tokens b <= ratelimiter.capacity b ->
      0 <= ratelimiter.capacity b ->
      (0 <= ratelimiter.refillRate b)%Q ->
      0 <= T ->
      ratelimiter.lastRefill b <= start ->
      start + T - ratelimiter.lastRefill b <= GoInt.maxInt ->
      limiter_spec.bucket_stays clk limiter_spec.no_limits clientID ops w ->
      (forall k, (ratelimiter.ticks w <= k
                  < ratelimiter.ticks (snd (ratelimiter.run clk ops w)))%nat ->
                 start <= clk k <= start + T) ->
      (forall i j, (ratelimiter.ticks w <= i <= j)%nat ->
                   (j < ratelimiter.ticks (snd (ratelimiter.run clk ops w)))%nat ->
                   clk i <= clk j) ->
      Z.of_nat (limiter_spec.allowed_count clientID ops (fst (ratelimiter.run clk ops w)))
      <= ratelimiter.capacity b
         + Qfloor ((limiter_spec.seconds T * ratelimiter.refillRate b + 1)
                   * limiter_spec.slack)).
Proof.
  split.
  - intros S HS clk clientID w b ops T Eb Hfull Hcap Hrate HT Hkeep Hwin.
    set (tend := ratelimiter.lastRefill b + T).
    set (R := ratelimiter.refillRate b) in *. set (C := ratelimiter.capacity b) in *.
    set (budget := (inject_Z C + limiter_spec.seconds T * R * limiter_spec.rounding)%Q).
    destruct (run_history clk clientID
                (fun _ => limiter_spec.within_budget tend R C budget)
                (fun _ now => now <= tend) limiter_spec.no_limits
                (fun _ n now b' Hv HJ => within_budget_refill tend R C budget Hrate n now b' Hv HJ)
                (fun _ n now1 now2 b' Hv HJ =>
                   within_budget_consume tend R C budget n now2 _
                     (within_budget_refill tend R C budget Hrate n now1 b' Hv HJ))
                (fun _ n c r b' (F : False) _ => match F with end)
                ops w b 0 0%nat Hkeep Eb) as (b' & _ & _ & HJ).
    + unfold limiter_spec.within_budget, limiter_spec.bucket_wf, limiter_spec.potential.
      rewrite Hfull. fold C. unfold tend, budget.
      replace (ratelimiter.lastRefill b + T - ratelimiter.lastRefill b) with T by lia.
      rewrite Z.max_l by lia. change (inject_Z (Z.of_nat 0)) with 0%Q.
      unfold GoInt.minInt, GoInt.maxInt in *.
      split; [lia|]. split; [reflexivity|]. split; [reflexivity|]. split; [lia|]. lra.
    + exact Hwin.
    + intros i j Hi Hj. apply Hwin. lia.
    + cbn [Nat.add] in HJ. apply within_budget_count in HJ; [|exact Hrate].
      set (n := limiter_spec.allowed_count clientID ops (fst (ratelimiter.run clk ops w))) in *.
      assert (Z.of_nat n - C <= Qfloor (limiter_spec.seconds T * R * limiter_spec.slack)); [|lia].
      apply Qfloor_bound. unfold Zminus. rewrite inject_Z_plus, inject_Z_opp.
      assert (HX : (0 <= limiter_spec.seconds T * R)%Q).
      { apply Qmult_le_0_compat; [apply seconds_nonneg; exact HT|exact Hrate]. }
      unfold budget in HJ. set (X := (limiter_spec.seconds T * R)%Q) in *.
      unfold limiter_spec.rounding, limiter_spec.slack in *. lra.
  - intros S HS clk clientID w b ops start T Eb Hwf Hle Hcap Hrate HT Hl Hrange Hkeep Hwin Hmono.
    set (R := ratelimiter.refillRate b) in *. set (C := ratelimiter.capacity b) in *.
    destruct (run_history clk clientID
                (limiter_spec.window_budget start (start + T) R C
                   (inject_Z C + limiter_spec.seconds T * R * limiter_spec.rounding
                    + limiter_spec.slack)%Q)
                (fun lo now => lo <= now /\ start <= now <= start + T) limiter_spec.no_limits
                (fun lo n now b' Hv HJ =>
                   or_intror (window_budget_refill start T C R Hrate HT Hcap lo n now b' Hv HJ))
                (fun lo n now1 now2 b' Hv HJ =>
                   window_budget_allow start T C R Hrate HT Hcap lo n now1 now2 b' Hv HJ)
                (fun _ n c r b' (F : False) _ => match F with end)
                ops w b start 0%nat Hkeep Eb) as (b' & lo' & _ & HJ).
    + left. unfold limiter_spec.window_untouched. fold R C.
      repeat split; try assumption; try reflexivity; apply Hwf.
    + intros k Hk. pose proof (Hwin k Hk). lia.
    + intros i j Hi Hj. split; [apply Hmono; lia|apply Hwin; lia].
    + cbn [Nat.add] in HJ.
      apply (window_budget_count start T C R Hrate HT Hcap lo' _ b' HJ).
Qed.

(** A bucket of capacity 1 and rate 0.3333333333333333 per second in the
    3 s after its creation: the product of 3.0 and the rate rounds to 1.0
    and the second request is allowed.  A bucket of capacity 1 and rate 1
    per second in a window of 1.1 s that starts 0.9 s after its creation:
    three requests are allowed.  In both histories an eviction tick comes
    between the requests and finds the bucket in use. *)
Lemma Allow_rate_bound_witness :
  let clk := fun k : nat => nth k [0; 0; 0; 3000000000; 3000000000; 3000000000] 0 in
  let third := (6004799503160661 # 18014398509481984)%Q in
  let w := snd (ratelimiter.SetClientLimit clk "u1" 1 third
                  (fst (ratelimiter.NewRateLimiter clk 100 10 (Some storage.NewMemoryStorage)))) in
  let ops := [ratelimiter.OpAllow "u1"; ratelimiter.OpCleanup; ratelimiter.OpAllow "u1"] in
  let clk' := fun k : nat => nth k [0; 900000000; 900000000; 1000000000; 1000000000;
                                    1500000000; 2000000000; 2000000000] 0 in
  let w' := snd (ratelimiter.SetClientLimit clk' "u1" 1 1
                   (fst (ratelimiter.NewRateLimiter clk' 100 10 (Some storage.NewMemoryStorage)))) in
  let ops' := [ratelimiter.OpAllow "u1"; ratelimiter.OpAllow "u1"; ratelimiter.OpCleanup;
               ratelimiter.OpAllow "u1"] in
  (Z.of_nat (limiter_spec.allowed_count "u1" ops (fst (ratelimiter.run clk ops w)))
   <= 1 + Qfloor (limiter_spec.seconds 3000000000 * third * limiter_spec.slack)
   /\ limiter_spec.allowed_count "u1" ops (fst (ratelimiter.run clk ops w)) = 2%nat
   /\ Qfloor (limiter_spec.seconds 3000000000 * third * limiter_spec.slack) = 1)
  /\ (Z.of_nat (limiter_spec.allowed_count "u1" ops' (fst (ratelimiter.run clk' ops' w')))
      <= 1 + Qfloor ((limiter_spec.seconds 1100000000 * 1 + 1) * limiter_spec.slack)
      /\ limiter_spec.allowed_count "u1" ops' (fst (ratelimiter.run clk' ops' w')) = 3%nat
      /\ Qfloor ((limiter_spec.seconds 1100000000 * 1 + 1) * limiter_spec.slack) = 2).
Proof.
  intros clk third w ops clk' w' ops'. split.
  - split; [|split; vm_compute; reflexivity].
    apply (proj1 Allow_rate_bound _ _ clk "u1" w
             (ratelimiter.mkTokenBucket 1 1 third 0 0) ops 3000000000).
    + reflexivity.
    + reflexivity.
    + vm_compute. split; discriminate.
    + vm_compute. discriminate.
    + lia.
    + vm_compute. repeat split. eexists. reflexivity.
    + intros k Hk. vm_compute in Hk. cbn [ratelimiter.lastRefill].
      assert (Hcases : (k = 1 \/ k = 2 \/ k = 3 \/ k = 4 \/ k = 5)%nat) by lia.
      destruct Hcases as [Ek|[Ek|[Ek|[Ek|Ek]]]]; subst k; vm_compute; discriminate.
  - split; [|split; vm_compute; reflexivity].
    apply (proj2 Allow_rate_bound _ _ clk' "u1" w'
             (ratelimiter.mkTokenBucket 1 1 1 0 0) ops' 900000000 1100000000).
    + reflexivity.
    + vm_compute. repeat split; discriminate.
    + vm_compute. discriminate.
    + vm_compute. discriminate.
    + vm_compute. discriminate.
    + lia.
    + vm_compute. discriminate.
    + vm_compute. discriminate.
    + vm_compute. repeat split. eexists. reflexivity.
    + intros k Hk. vm_compute in Hk.
      assert (Hcases : (k = 1 \/ k = 2 \/ k = 3 \/ k = 4 \/ k = 5 \/ k = 6 \/ k = 7)%nat) by lia.
      destruct Hcases as [Ek|[Ek|[Ek|[Ek|[Ek|[Ek|Ek]]]]]]; subst k; vm_compute;
        split; discriminate.
    + intros i j Hi Hj. vm_compute in Hi, Hj.
      assert (Hi' : (i = 1 \/ i = 2 \/ i = 3 \/ i = 4 \/ i = 5 \/ i = 6 \/ i = 7)%nat) by lia.
      assert (Hj' : (j = 1 \/ j = 2 \/ j = 3 \/ j = 4 \/ j = 5 \/ j = 6 \/ j = 7)%nat) by lia.
      destruct Hi' as [Ei|[Ei|[Ei|[Ei|[Ei|[Ei|Ei]]]]]]; subst i;
        destruct Hj' as [Ej|[Ej|[Ej|[Ej|[Ej|[Ej|Ej]]]]]]; subst j;
        try lia; vm_compute; discriminate.
Defined.

(** C3, as stated, fails.  A bucket of capacity 1 and rate 1 per second is
    created at instant 0 and is still full 0.9 s later.  A request at
    0.9 s takes its token without moving [lastRefill]; a second request at
    1.0 s finds a whole second elapsed since [lastRefill] and is given a
    new token.  Both requests lie in a window of 0.1 s, which the specification
    bounds by [1 + floor (0.1 * 1) = 1] allowed request. *)
Lemma Allow_window_counterexample :
  let clk := fun k : nat => nth k [0; 900000000; 900000000; 1000000000; 1000000000] 0 in
  let w := snd (ratelimiter.SetClientLimit clk "u1" 1 1
                  (fst (ratelimiter.NewRateLimiter clk 100 10 (Some storage.NewMemoryStorage)))) in
  let ops := [ratelimiter.OpAllow "u1"; ratelimiter.OpAllow "u1"] in
  let start := 900000000 in
  let T := 100000000 in
  (exists b, ratelimiter.buckets (ratelimiter.limiter w) !! "u1" = Some b
             /\ ratelimiter.capacity b = 1 /\ ratelimiter.refillRate b = 1%Q
             /\ ratelimiter.tokens b = ratelimiter.capacity b
             /\ ratelimiter.lastRefill b <= start)
  /\ (forall k, (ratelimiter.ticks w <= k < ratelimiter.ticks (snd (ratelimiter.run clk ops w)))%nat ->
                start <= clk k <= start + T)
  /\ fst (ratelimiter.run clk ops w) = [ratelimiter.RAllow true; ratelimiter.RAllow true]
  /\ ~ (Z.of_nat (limiter_spec.allowed_count "u1" ops (fst (ratelimiter.run clk ops w)))
        <= 1 + Qfloor (limiter_spec.seconds T * 1)).
Proof.
  intros clk w ops start T. split; [|split; [|split]].
  - exists (ratelimiter.mkTokenBucket 1 1 1 0 0). repeat split; vm_compute; discriminate.
  - intros k Hk. vm_compute in Hk.
    assert (Hcases : (k = 1 \/ k = 2 \/ k = 3 \/ k = 4)%nat) by lia.
    destruct Hcases as [Ek|[Ek|[Ek|Ek]]]; subst k; vm_compute; split; discriminate.
  - vm_compute. reflexivity.
  - vm_compute. intros Hle. apply Hle. reflexivity.
Qed.

(** *** The control operations *)

(** C7.  [SetClientLimit] on a client that has a bucket sets its capacity
    and its rate, lowers [tokens] to the new capacity when they exceed it
    and leaves them as they are otherwise, and keeps [lastRefill] and
    [lastAccess]; for a client without a bucket it installs a full one.
    The buckets of the other clients are untouched.  The table is changed
    in the same way when the store fails to save the settings. *)
Theorem SetClientLimit_effect {S : Type} `{storage.Storage S}
  (clk : nat -> Z) (clientID : string) (capacity : Z) (refillRate : Q)
  (w : ratelimiter.World S) :
  let w' := snd (ratelimiter.SetClientLimit clk clientID capacity refillRate w) in
  (forall b, ratelimiter.buckets (ratelimiter.limiter w) !! clientID = Some b ->
     ratelimiter.buckets (ratelimiter.limiter w') !! clientID
     = Some {| ratelimiter.capacity := capacity;
               ratelimiter.tokens := Z.min (ratelimiter.tokens b) capacity;
               ratelimiter.refillRate := refillRate;
               ratelimiter.lastRefill := ratelimiter.lastRefill b;
               ratelimiter.lastAccess := ratelimiter.lastAccess b |})
  /\ (ratelimiter.buckets (ratelimiter.limiter w) !! clientID = None ->
      ratelimiter.buckets (ratelimiter.limiter w') !! clientID
      = Some {| ratelimiter.capacity := capacity;
                ratelimiter.tokens := capacity;
                ratelimiter.refillRate := refillRate;
                ratelimiter.lastRefill := clk (ratelimiter.ticks w);
                ratelimiter.lastAccess := clk (ratelimiter.ticks w) |})
  /\ (forall c, c <> clientID ->
      ratelimiter.buckets (ratelimiter.limiter w') !! c
      = ratelimiter.buckets (ratelimiter.limiter w) !! c)
  /\ (forall st, ratelimiter.storage (ratelimiter.limiter w) = Some st ->
      ratelimiter.storage (ratelimiter.limiter w')
      = Some (snd (storage.SaveClientLimit clientID capacity refillRate st))).
Proof.
  intros w'.
  destruct (SetClientLimit_buckets clk clientID capacity refillRate w) as [Hb Hst].
  fold w' in Hb, Hst. split; [|split; [|split]].
  - intros b Eb. rewrite Hb, Eb. apply lookup_insert_eq.
  - intros Eb. rewrite Hb, Eb. apply lookup_insert_eq.
  - intros c Hc. rewrite Hb. apply lookup_insert_ne. congruence.
  - intros st Est. rewrite Hst, Est. reflexivity.
Qed.

(** C9.  [GetClientLimit] reads the table only: it changes nothing, answers
    with the defaults and [false] for a client without a bucket and with
    the limits of the bucket and [true] otherwise, and its answer is the
    same whatever the store holds. *)
Theorem GetClientLimit_runtime_only {S : Type} `{storage.Storage S}
  (clientID : string) (w : ratelimiter.World S) :
  snd (ratelimiter.GetClientLimit clientID w) = w
  /\ (ratelimiter.buckets (ratelimiter.limiter w) !! clientID = None ->
      fst (ratelimiter.GetClientLimit clientID w)
      = (ratelimiter.defaultCap (ratelimiter.limiter w),
         ratelimiter.defaultRate (ratelimiter.limiter w), false))
  /\ (forall b, ratelimiter.buckets (ratelimiter.limiter w) !! clientID = Some b ->
      fst (ratelimiter.GetClientLimit clientID w)
      = (ratelimiter.capacity b, ratelimiter.refillRate b, true))
  /\ (forall st : option S,
      fst (ratelimiter.GetClientLimit clientID
             {| ratelimiter.limiter :=
                  {| ratelimiter.buckets := ratelimiter.buckets (ratelimiter.limiter w);
                     ratelimiter.defaultCap := ratelimiter.defaultCap (ratelimiter.limiter w);
                     ratelimiter.defaultRate := ratelimiter.defaultRate (ratelimiter.limiter w);
                     ratelimiter.storage := st |};
                ratelimiter.ticks := ratelimiter.ticks w;
                ratelimiter.goroutines := ratelimiter.goroutines w |})
      = fst (ratelimiter.GetClientLimit clientID w)).
Proof.
  unfold ratelimiter.GetClientLimit, ratelimiter.bind, ratelimiter.ret,
    ratelimiter.get_limiter.
  cbn [fst snd ratelimiter.limiter ratelimiter.buckets ratelimiter.defaultCap
       ratelimiter.defaultRate].
  destruct (ratelimiter.buckets (ratelimiter.limiter w) !! clientID) as [b0|];
    repeat split; try reflexivity; try discriminate.
  intros b Hb. inversion Hb; reflexivity.
Qed.

(** A record of the store is not seen by [GetClientLimit]: the store holds
    settings for "u1", the table has no bucket for it, and the answer is
    the defaults with [false]. *)
Example GetClientLimit_ignores_store :
  let st := {| storage.limits := {["u1" := storage.mkClientLimit 5 2]} |} in
  let w := {| ratelimiter.limiter :=
                {| ratelimiter.buckets := ∅; ratelimiter.defaultCap := 100;
                   ratelimiter.defaultRate := 10; ratelimiter.storage := Some st |};
              ratelimiter.ticks := 0; ratelimiter.goroutines := [] |} in
  storage.GetClientLimit "u1" st = (5, 2%Q, true, None)
  /\ fst (ratelimiter.GetClientLimit "u1" w) = (100, 10%Q, false)
  /\ fst (ratelimiter.GetClientHandler "u1" w) = (404, None).
Proof. repeat split. Qed.

Lemma DeleteClientHandler_existing {S : Type} `{storage.Storage S}
  (clientID : string) (w : ratelimiter.World S) :
  is_Some (ratelimiter.buckets (ratelimiter.limiter w) !! clientID) ->
  ratelimiter.DeleteClientHandler clientID w
  = (match fst (ratelimiter.DeleteClientLimit clientID w) with
     | Some _ => ratelimiter.StatusInternalServerError
     | None => ratelimiter.StatusOK
     end,
     snd (ratelimiter.DeleteClientLimit clientID w)).
Proof.
  intros [b Hb].
  unfold ratelimiter.DeleteClientHandler, ratelimiter.GetClientLimit.
  unfold ratelimiter.bind at 1 2. unfold ratelimiter.get_limiter. rewrite Hb.
  unfold ratelimiter.ret at 1. cbn [negb]. unfold ratelimiter.bind.
  destruct (ratelimiter.DeleteClientLimit clientID w) as [[e|] w1]; reflexivity.
Qed.

Lemma DeleteClientHandler_unknown {S : Type} `{storage.Storage S}
  (clientID : string) (w : ratelimiter.World S) :
  ratelimiter.buckets (ratelimiter.limiter w) !! clientID = None ->
  ratelimiter.DeleteClientHandler clientID w = (ratelimiter.StatusNotFound, w).
Proof.
  intros Hb.
  unfold ratelimiter.DeleteClientHandler, ratelimiter.GetClientLimit.
  unfold ratelimiter.bind at 1 2. unfold ratelimiter.get_limiter. rewrite Hb.
  reflexivity.
Qed.

(** C8.  [DeleteClientLimit] removes the bucket from the table, then deletes
    the record from the store; the error of the store, if any, is the
    result of the call, and the handler of the control API answers it with
    500.  When the call returns [nil], neither the table nor the store
    (the in-memory one or the PostgreSQL one) has an entry for the
    client. *)
Theorem DeleteClientLimit_effect :
  (forall (S : Type) `(storage.Storage S) (clientID : string) (w : ratelimiter.World S),
      let err := fst (ratelimiter.DeleteClientLimit clientID w) in
      let w' := snd (ratelimiter.DeleteClientLimit clientID w) in
      ratelimiter.buckets (ratelimiter.limiter w')
      = delete clientID (ratelimiter.buckets (ratelimiter.limiter w))
      /\ match ratelimiter.storage (ratelimiter.limiter w) with
         | None => err = None /\ ratelimiter.storage (ratelimiter.limiter w') = None
         | Some st =>
             err = fst (storage.DeleteClientLimit clientID st)
             /\ ratelimiter.storage (ratelimiter.limiter w')
                = Some (snd (storage.DeleteClientLimit clientID st))
         end
      /\ (is_Some (ratelimiter.buckets (ratelimiter.limiter w) !! clientID) ->
          fst (ratelimiter.DeleteClientHandler clientID w)
          = match err with
            | Some _ => ratelimiter.StatusInternalServerError
            | None => ratelimiter.StatusOK
            end)
      /\ (err = None -> ratelimiter.buckets (ratelimiter.limiter w') !! clientID = None))
  /\ (forall (clientID : string) (w w' : ratelimiter.World storage.MemoryStorage) st',
      ratelimiter.DeleteClientLimit clientID w = (None, w') ->
      ratelimiter.storage (ratelimiter.limiter w') = Some st' ->
      storage.limits st' !! clientID = None
      /\ storage.GetClientLimit clientID st' = (0, 0%Q, false, None))
  /\ (forall (clientID : string) (w w' : ratelimiter.World storage.PostgresStorage) st',
      ratelimiter.DeleteClientLimit clientID w = (None, w') ->
      ratelimiter.storage (ratelimiter.limiter w') = Some st' ->
      storage.rate_limits st' !! clientID = None
      /\ storage.GetClientLimit clientID st' = (0, 0%Q, false, None)).
Proof.
  split; [|split].
  - intros S HS clientID w err w'.
    split; [|split; [|split]].
    3: { intros Hb. rewrite (DeleteClientHandler_existing clientID w Hb). reflexivity. }
    all: subst err w'; unfold ratelimiter.DeleteClientLimit;
      unfold ratelimiter.bind, ratelimiter.ret, ratelimiter.get_limiter,
        ratelimiter.set_buckets, ratelimiter.set_storage;
      cbn [fst snd ratelimiter.limiter ratelimiter.buckets ratelimiter.storage];
      (destruct (ratelimiter.storage (ratelimiter.limiter w)) as [st|];
       [destruct (storage.DeleteClientLimit clientID st) as [err st']|]);
      cbn -[delete lookup]; try reflexivity; try (split; reflexivity);
      intros _; apply lookup_delete_eq.
  - intros clientID w w' st'.
    unfold ratelimiter.DeleteClientLimit, ratelimiter.bind, ratelimiter.ret,
      ratelimiter.get_limiter, ratelimiter.set_buckets, ratelimiter.set_storage.
    cbn [fst snd ratelimiter.limiter ratelimiter.buckets ratelimiter.storage].
    destruct (ratelimiter.storage (ratelimiter.limiter w)) as [st|]; cbn -[delete lookup].
    + intros E. inversion E; subst. cbn -[delete lookup]. intros E'. inversion E'; subst.
      cbn -[delete lookup]. rewrite lookup_delete_eq. split; reflexivity.
    + intros E. inversion E; subst. cbn. discriminate.
  - intros clientID w w' st'.
    unfold ratelimiter.DeleteClientLimit, ratelimiter.bind, ratelimiter.ret,
      ratelimiter.get_limiter, ratelimiter.set_buckets, ratelimiter.set_storage.
    cbn [fst snd ratelimiter.limiter ratelimiter.buckets ratelimiter.storage].
    destruct (ratelimiter.storage (ratelimiter.limiter w)) as [st|]; cbn -[delete lookup].
    + destruct (storage.reachable st); cbn -[delete lookup]; [|discriminate].
      intros E. inversion E; subst. cbn -[delete lookup]. intros E'. inversion E'; subst.
      cbn -[delete lookup]. rewrite lookup_delete_eq. split; reflexivity.
    + intros E. inversion E; subst. cbn. discriminate.
Qed.

(** The store cannot be reached: the bucket is gone from the table, the
    record stays in the store, and the control API answers 500. *)
Example DeleteClientLimit_store_failure :
  let st := {| storage.rate_limits := {["u1" := storage.mkClientLimit 5 2]};
               storage.reachable := false |} in
  let w := {| ratelimiter.limiter :=
                {| ratelimiter.buckets := {["u1" := ratelimiter.mkTokenBucket 5 5 2 0 0]};
                   ratelimiter.defaultCap := 100;
                   ratelimiter.defaultRate := 10; ratelimiter.storage := Some st |};
              ratelimiter.ticks := 1; ratelimiter.goroutines := [] |} in
  fst (ratelimiter.DeleteClientHandler "u1" w) = 500
  /\ ratelimiter.buckets (ratelimiter.limiter (snd (ratelimiter.DeleteClientHandler "u1" w))) !! "u1"
     = None
  /\ ratelimiter.storage (ratelimiter.limiter (snd (ratelimiter.DeleteClientHandler "u1" w)))
     = Some st.
Proof. repeat split. Qed.

(** *** Limits that are not positive *)

Lemma exhausted_refill cap n now b :
  cap <= 0 -> limiter_spec.exhausted cap n b ->
  limiter_spec.exhausted cap n (ratelimiter.refill_at now b).
Proof.
  intros Hcap (Hn & [Ht Hc] & Ec & Hle).
  unfold limiter_spec.exhausted, limiter_spec.bucket_wf, ratelimiter.refill_at.
  set (x := Float64.mul (ratelimiter.Seconds (now - ratelimiter.lastRefill b))
                        (ratelimiter.refillRate b)).
  destruct (Z.ltb_spec 0 (GoInt.of_float x)) as [Hpos|Hnp].
  - destruct (of_float_pos x Hpos) as [Ea Hmax]. rewrite Ea in *.
    unfold GoInt.add.
    rewrite wrap_in_range by (unfold GoInt.minInt, GoInt.maxInt in *; lia).
    cbn [ratelimiter.tokens ratelimiter.capacity].
    destruct (Z.ltb_spec (ratelimiter.capacity b) (ratelimiter.tokens b + Qfloor x));
      repeat split; try assumption; lia.
  - repeat split; try assumption; lia.
Qed.

Lemma exhausted_consume cap n now b :
  cap <= 0 -> limiter_spec.exhausted cap n b ->
  limiter_spec.exhausted cap (n + (if 0 <? ratelimiter.tokens b then 1 else 0))
    (limiter_spec.consume now b).
Proof.
  intros Hcap (Hn & [Ht Hc] & Ec & Hle).
  unfold limiter_spec.exhausted, limiter_spec.bucket_wf, limiter_spec.consume.
  cbn [ratelimiter.tokens ratelimiter.capacity].
  destruct (Z.ltb_spec 0 (ratelimiter.tokens b)) as [Hpos|Hnp]; [lia|].
  rewrite Nat.add_0_r. repeat split; try assumption; lia.
Qed.

Lemma CreateClientHandler_created {S : Type} `{storage.Storage S}
  (clk : nat -> Z) (clientID : string) (req : ratelimiter.ClientLimitRequest)
  (w : ratelimiter.World S) :
  clientID <> "" ->
  ratelimiter.CreateClientHandler clk (Some req) clientID w
  = (ratelimiter.StatusCreated,
     snd (ratelimiter.SetClientLimit clk clientID (ratelimiter.req_Capacity req)
            (ratelimiter.req_RefillRate req) w)).
Proof.
  intros Hne. unfold ratelimiter.CreateClientHandler.
  rewrite bool_decide_eq_false_2 by exact Hne.
  unfold ratelimiter.bind, ratelimiter.ret.
  destruct (ratelimiter.SetClientLimit clk clientID _ _ w) as [[] w1]. reflexivity.
Qed.

(** C10, as amended.  [SetClientLimit] and the handler of [POST /clients]
    check no sign: for a client without a bucket and any capacity and rate
    the call installs a bucket with [tokens = capacity] and the handler
    answers 201, whether or not the store saves the settings.  When the
    capacity is not positive, every later [Allow] for the client returns
    [false] for as long as this bucket is in the table: along every
    history in which no step deletes or reconfigures the client and no
    eviction tick removes the bucket. *)
Theorem SetClientLimit_unchecked {S : Type} `{storage.Storage S}
  (clk : nat -> Z) (clientID : string) (capacity : Z) (refillRate : Q)
  (w : ratelimiter.World S) :
  ratelimiter.buckets (ratelimiter.limiter w) !! clientID = None ->
  let w' := snd (ratelimiter.SetClientLimit clk clientID capacity refillRate w) in
  ratelimiter.buckets (ratelimiter.limiter w') !! clientID
  = Some {| ratelimiter.capacity := capacity;
            ratelimiter.tokens := capacity;
            ratelimiter.refillRate := refillRate;
            ratelimiter.lastRefill := clk (ratelimiter.ticks w);
            ratelimiter.lastAccess := clk (ratelimiter.ticks w) |}
  /\ (clientID <> "" ->
      ratelimiter.CreateClientHandler clk
        (Some (ratelimiter.mkClientLimitRequest capacity refillRate)) clientID w
      = (ratelimiter.StatusCreated, w'))
  /\ (GoInt.minInt <= capacity <= 0 ->
      forall ops, limiter_spec.bucket_stays clk limiter_spec.no_limits clientID ops w' ->
        limiter_spec.allowed_count clientID ops (fst (ratelimiter.run clk ops w')) = 0%nat).
Proof.
  intros Hnone w'.
  assert (Hnew : ratelimiter.buckets (ratelimiter.limiter w') !! clientID
                 = Some {| ratelimiter.capacity := capacity;
                           ratelimiter.tokens := capacity;
                           ratelimiter.refillRate := refillRate;
                           ratelimiter.lastRefill := clk (ratelimiter.ticks w);
                           ratelimiter.lastAccess := clk (ratelimiter.ticks w) |}).
  { destruct (SetClientLimit_buckets clk clientID capacity refillRate w) as [Hb _].
    fold w' in Hb. rewrite Hb, Hnone. apply lookup_insert_eq. }
  split; [exact Hnew|]. split.
  - intros Hne. apply (CreateClientHandler_created clk clientID
                         (ratelimiter.mkClientLimitRequest capacity refillRate) w Hne).
  - intros Hcap ops Hkeep.
    destruct (run_history clk clientID (fun _ => limiter_spec.exhausted capacity)
                (fun _ _ => True) limiter_spec.no_limits
                (fun _ n now b _ HJ => exhausted_refill capacity n now b (proj2 Hcap) HJ)
                (fun _ n now1 now2 b _ HJ =>
                   exhausted_consume capacity n now2 _ (proj2 Hcap)
                     (exhausted_refill capacity n now1 b (proj2 Hcap) HJ))
                (fun _ n c r b (F : False) _ => match F with end)
                ops w' _ 0 0%nat Hkeep Hnew) as (b' & _ & _ & HJ).
    + unfold limiter_spec.exhausted, limiter_spec.bucket_wf.
      cbn [ratelimiter.tokens ratelimiter.capacity].
      unfold GoInt.minInt, GoInt.maxInt in *. repeat split; lia.
    + intros; exact I.
    + intros; exact I.
    + destruct HJ as (Hn & _). exact Hn.
Qed.

(** A client created with capacity 0 over the control API, with a store
    that cannot be reached: 201, and no request of the client passes,
    before and after the ticks of the two tickers. *)
Lemma SetClientLimit_unchecked_witness :
  let clk := fun k : nat => Z.of_nat k * 1000000000 in
  let st := {| storage.rate_limits := ∅; storage.reachable := false |} in
  let w := fst (ratelimiter.NewRateLimiter clk 100 10 (Some st)) in
  let ops := [ratelimiter.OpAllow "u1"; ratelimiter.OpCleanup; ratelimiter.OpRefillTokens;
              ratelimiter.OpAllow "u1"] in
  ratelimiter.buckets (ratelimiter.limiter w) !! "u1" = None
  /\ fst (ratelimiter.CreateClientHandler clk
            (Some (ratelimiter.mkClientLimitRequest 0 5)) "u1" w) = 201
  /\ fst (ratelimiter.run clk ops
            (snd (ratelimiter.SetClientLimit clk "u1" 0 5 w)))
     = [ratelimiter.RAllow false; ratelimiter.RDone; ratelimiter.RDone;
        ratelimiter.RAllow false]
  /\ limiter_spec.allowed_count "u1" ops
       (fst (ratelimiter.run clk ops (snd (ratelimiter.SetClientLimit clk "u1" 0 5 w)))) = 0%nat.
Proof.
  intros clk st w ops.
  assert (Hnone : ratelimiter.buckets (ratelimiter.limiter w) !! "u1" = None) by reflexivity.
  destruct (SetClientLimit_unchecked clk "u1" 0 5 w Hnone) as (_ & Hcreate & Hfalse).
  split; [exact Hnone|]. split; [|split].
  - rewrite Hcreate by discriminate. reflexivity.
  - vm_compute. reflexivity.
  - apply Hfalse; [vm_compute; split; discriminate|].
    vm_compute. repeat split. eexists. reflexivity.
Defined.

(** C10, as stated, fails.  A client is created with capacity 0 while the
    store cannot be reached, and sends no request for more than 30
    minutes.  The eviction tick removes its bucket; its next request finds
    no bucket and no record in the store, is given a bucket with the
    default limits and is allowed. *)
Lemma SetClientLimit_eviction_counterexample :
  let clk := fun k : nat => nth k [0; 1801000000000; 1801000000000;
                                   1801000000000; 1801000000000] 0 in
  let st := {| storage.rate_limits := ∅; storage.reachable := false |} in
  let w := fst (ratelimiter.NewRateLimiter clk 100 10 (Some st)) in
  let w' := snd (ratelimiter.SetClientLimit clk "u1" 0 5 w) in
  let ops := [ratelimiter.OpCleanup; ratelimiter.OpAllow "u1"] in
  ratelimiter.buckets (ratelimiter.limiter w) !! "u1" = None
  /\ ratelimiter.buckets (ratelimiter.limiter w') !! "u1"
     = Some (ratelimiter.mkTokenBucket 0 0 5 0 0)
  /\ fst (ratelimiter.run clk ops w') = [ratelimiter.RDone; ratelimiter.RAllow true]
  /\ ~ (limiter_spec.allowed_count "u1" ops (fst (ratelimiter.run clk ops w')) = 0%nat).
Proof.
  intros clk st w w' ops. split; [reflexivity|]. split; [reflexivity|].
  split; [vm_compute; reflexivity|]. vm_compute. discriminate.
Qed.

(** *** Refill and decrement against the specification *)

(** As long as the sum [tokens + added] is a value of type [int], the
    refill of the code is the refill of the specification for the number
    of tokens the code computes. *)
Lemma refill_at_refill_with now b :
  let x := Float64.mul (ratelimiter.Seconds (now - ratelimiter.lastRefill b))
                       (ratelimiter.refillRate b) in
  GoInt.minInt <= ratelimiter.tokens b ->
  Qfloor x <= GoInt.maxInt ->
  ratelimiter.tokens b + Qfloor x <= GoInt.maxInt ->
  ratelimiter.refill_at now b = limiter_spec.refill_with (Qfloor x) now b.
Proof.
  intros x Hlo Hmax Hsum. unfold ratelimiter.refill_at, limiter_spec.refill_with.
  fold x. clearbody x. rewrite (of_float_floor x Hmax).
  destruct (Z.ltb_spec 0 (Qfloor x)) as [Hpos|Hnp]; [|reflexivity].
  assert (Ea : GoInt.of_float x = Qfloor x).
  { apply of_float_pos. apply Z.ltb_lt. rewrite (of_float_floor x Hmax). apply Z.ltb_lt. exact Hpos. }
  rewrite Ea. unfold GoInt.add.
  rewrite wrap_in_range by (unfold GoInt.minInt, GoInt.maxInt in *; lia).
  f_equal. destruct (Z.ltb_spec (ratelimiter.capacity b) (ratelimiter.tokens b + Qfloor x)); lia.
Qed.

(** When, in addition, the rounded product of the code has the integer
    part of the exact product, the refill of the code is the one of the
    specification. *)
Lemma refill_at_refines_spec now b :
  let x := Float64.mul (ratelimiter.Seconds (now - ratelimiter.lastRefill b))
                       (ratelimiter.refillRate b) in
  let y := (limiter_spec.seconds (now - ratelimiter.lastRefill b)
            * ratelimiter.refillRate b)%Q in
  Qfloor x = Qfloor y ->
  GoInt.minInt <= ratelimiter.tokens b ->
  Qfloor y <= GoInt.maxInt ->
  ratelimiter.tokens b + Qfloor y <= GoInt.maxInt ->
  ratelimiter.refill_at now b = limiter_spec.spec_refill now b.
Proof.
  intros x y Exy Hlo Hmax Hsum. unfold limiter_spec.spec_refill. fold y. rewrite <- Exy in *.
  apply refill_at_refill_with; assumption.
Qed.

(** Under the same conditions [Allow] returns what the specification says
    and leaves the bucket the specification describes (with [lastAccess]
    set to the second clock reading). *)
Lemma Allow_refines_spec {S : Type} `{storage.Storage S}
  (clk : nat -> Z) (clientID : string) (w : ratelimiter.World S) b :
  let now := clk (ratelimiter.ticks w) in
  let x := Float64.mul (ratelimiter.Seconds (now - ratelimiter.lastRefill b))
                       (ratelimiter.refillRate b) in
  let y := (limiter_spec.seconds (now - ratelimiter.lastRefill b)
            * ratelimiter.refillRate b)%Q in
  ratelimiter.buckets (ratelimiter.limiter w) !! clientID = Some b ->
  Qfloor x = Qfloor y ->
  GoInt.minInt <= ratelimiter.tokens b <= GoInt.maxInt ->
  Qfloor y <= GoInt.maxInt ->
  ratelimiter.tokens b + Qfloor y <= GoInt.maxInt ->
  fst (ratelimiter.Allow clk clientID w)
  = fst (limiter_spec.spec_consume (limiter_spec.spec_refill now b))
  /\ exists b', ratelimiter.buckets (ratelimiter.limiter (snd (ratelimiter.Allow clk clientID w)))
                !! clientID = Some b'
       /\ ratelimiter.tokens b'
          = ratelimiter.tokens (snd (limiter_spec.spec_consume (limiter_spec.spec_refill now b)))
       /\ ratelimiter.lastRefill b' = ratelimiter.lastRefill (limiter_spec.spec_refill now b)
       /\ ratelimiter.capacity b' = ratelimiter.capacity b
       /\ ratelimiter.refillRate b' = ratelimiter.refillRate b.
Proof.
  intros now x y Eb Exy Hrange Hmax Hsum.
  rewrite (Allow_existing clk clientID w b Eb).
  rewrite (refill_at_refines_spec (clk (ratelimiter.ticks w)) b Exy (proj1 Hrange) Hmax Hsum).
  fold now. cbn -[insert lookup limiter_spec.spec_refill].
  set (b1 := limiter_spec.spec_refill now b).
  assert (Hb1 : ratelimiter.capacity b1 = ratelimiter.capacity b
                /\ ratelimiter.refillRate b1 = ratelimiter.refillRate b
                /\ ratelimiter.tokens b1 <= GoInt.maxInt).
  { unfold b1, limiter_spec.spec_refill, limiter_spec.refill_with. fold y. clearbody y.
    destruct (Z.ltb_spec 0 (Qfloor y)); cbn; repeat split; lia. }
  destruct Hb1 as (Hc1 & Hr1 & Ht1).
  unfold limiter_spec.spec_consume.
  destruct (Z.ltb_spec 0 (ratelimiter.tokens b1)) as [Hpos|Hnp]; cbn -[insert lookup].
  - split; [reflexivity|]. eexists. split; [apply lookup_insert_eq|].
    cbn. unfold GoInt.sub.
    rewrite wrap_in_range by (unfold GoInt.minInt, GoInt.maxInt in *; lia).
    repeat split; assumption.
  - split; [reflexivity|]. eexists. split; [apply lookup_insert_eq|].
    cbn. repeat split; assumption.
Qed.

(** *** The bounds of [tokens] *)

Section Bounds.

Variables t0 span cap_max : Z.
Variable rate_max : Q.

Hypothesis span_nonneg : 0 <= span.
Hypothesis rate_max_nonneg : (0 <= rate_max)%Q.

(** No refill of the history can overflow. *)
Hypothesis room :
  cap_max + Qfloor (limiter_spec.seconds span * rate_max * limiter_spec.slack)
  <= GoInt.maxInt.

Local Abbreviation in_bounds := (limiter_spec.in_bounds t0 span cap_max rate_max).

Lemma room_nonneg : (0 <= limiter_spec.seconds span * rate_max)%Q.
Proof.
  apply Qmult_le_0_compat; [apply seconds_nonneg; exact span_nonneg|exact rate_max_nonneg].
Qed.

Lemma in_bounds_refill n now b :
  t0 <= now <= t0 + span -> in_bounds n b -> in_bounds n (ratelimiter.refill_at now b).
Proof.
  intros Hnow (Ht & Hc & [Hrl Hrh] & Hl).
  unfold limiter_spec.in_bounds, ratelimiter.refill_at.
  set (a := GoInt.of_float (Float64.mul (ratelimiter.Seconds (now - ratelimiter.lastRefill b))
                                        (ratelimiter.refillRate b))).
  destruct (Z.ltb_spec 0 a) as [Hpos|Hnp].
  - assert (Ha : a <= Qfloor (limiter_spec.seconds span * rate_max * limiter_spec.slack)).
    { apply Qfloor_bound.
      eapply Qle_trans;
        [apply (newTokens_bound (now - ratelimiter.lastRefill b) span
                  (ratelimiter.refillRate b) rate_max); [lia|exact Hrl|exact Hrh|exact Hpos]|].
      pose proof room_nonneg as HX.
      set (X := (limiter_spec.seconds span * rate_max)%Q) in *.
      unfold limiter_spec.rounding, limiter_spec.slack. lra. }
    clearbody a. unfold GoInt.add.
    rewrite wrap_in_range by (unfold GoInt.minInt, GoInt.maxInt in *; lia).
    cbn [ratelimiter.tokens ratelimiter.capacity ratelimiter.refillRate ratelimiter.lastRefill].
    destruct (Z.ltb_spec (ratelimiter.capacity b) (ratelimiter.tokens b + a));
      repeat split; try assumption; lia.
  - repeat split; try assumption; lia.
Qed.

Lemma cap_max_int : cap_max <= GoInt.maxInt.
Proof.
  assert (0 <= Qfloor (limiter_spec.seconds span * rate_max * limiter_spec.slack)); [|lia].
  apply Qfloor_bound. change (inject_Z 0) with 0%Q.
  apply Qmult_le_0_compat; [apply room_nonneg|unfold limiter_spec.slack; lra].
Qed.

Lemma in_bounds_consume n now b :
  in_bounds n b ->
  in_bounds (n + (if 0 <? ratelimiter.tokens b then 1 else 0)) (limiter_spec.consume now b).
Proof.
  intros (Ht & Hc & Hr & Hl). pose proof cap_max_int as Hm.
  unfold limiter_spec.in_bounds, limiter_spec.consume.
  cbn [ratelimiter.tokens ratelimiter.capacity ratelimiter.refillRate ratelimiter.lastRefill].
  destruct (Z.ltb_spec 0 (ratelimiter.tokens b)) as [Hpos|Hnp].
  - unfold GoInt.sub.
    rewrite wrap_in_range by (unfold GoInt.minInt, GoInt.maxInt in *; lia).
    repeat split; try apply Hr; lia.
  - repeat split; try apply Hr; lia.
Qed.

Lemma in_bounds_set n capacity refillRate b :
  limiter_spec.positive_limits cap_max rate_max capacity refillRate ->
  in_bounds n b -> in_bounds n (limiter_spec.reconfigure capacity refillRate b).
Proof.
  intros [Hcap Hrate] (Ht & Hc & Hr & Hl).
  unfold limiter_spec.in_bounds, limiter_spec.reconfigure.
  cbn [ratelimiter.tokens ratelimiter.capacity ratelimiter.refillRate ratelimiter.lastRefill].
  repeat split; try apply Hrate; lia.
Qed.

(** Along a history that leaves the bucket of a client in the table, calls
    [SetClientLimit] for it with positive limits only and cannot overflow,
    [0 <= tokens <= capacity] holds after every step. *)
Lemma bucket_bounds_history {S : Type} `{storage.Storage S}
  (clk : nat -> Z) (clientID : string) (w : ratelimiter.World S) b ops :
  ratelimiter.buckets (ratelimiter.limiter w) !! clientID = Some b ->
  in_bounds 0 b ->
  limiter_spec.bucket_stays clk (limiter_spec.positive_limits cap_max rate_max) clientID ops w ->
  (forall k, (ratelimiter.ticks w <= k < ratelimiter.ticks (snd (ratelimiter.run clk ops w)))%nat ->
             t0 <= clk k <= t0 + span) ->
  exists b', ratelimiter.buckets (ratelimiter.limiter (snd (ratelimiter.run clk ops w)))
             !! clientID = Some b'
             /\ 0 <= ratelimiter.tokens b' <= ratelimiter.capacity b'.
Proof.
  intros Eb Hb Hkeep Hwin.
  destruct (run_history clk clientID (fun _ => in_bounds) (fun _ now => t0 <= now <= t0 + span)
              (limiter_spec.positive_limits cap_max rate_max)
              (fun _ => in_bounds_refill)
              (fun _ n now1 now2 b' Hv HJ =>
                 in_bounds_consume n now2 _ (in_bounds_refill n now1 b' Hv HJ))
              (fun _ => in_bounds_set)
              ops w b 0 0%nat Hkeep Eb Hb Hwin) as (b' & _ & Eb' & (Ht & _)).
  { intros i j Hi Hj. apply Hwin. lia. }
  exists b'. split; assumption.
Qed.

End Bounds.

(** C1.  [Allow] first refills, then decrements.  The refill and the
    decrement of the code are those of the specification whenever the
    [float64] product [elapsed * refillRate] of the code has the integer
    part of the exact product and the sum [tokens + added] is a value of
    type [int].  Otherwise they differ.
    - Rounding: 0.29 s after its last refill a bucket of rate 100 is given
      28 tokens by the code and 29 by the specification.
    - Overflow: a client is created over the control API with the largest
      capacity an [int] holds and a rate of one token per second, and its
      bucket is full; one second later [added] is 1, the sum wraps around
      to the smallest [int], the comparison with the capacity does not see
      it, the bucket is left with that count and [Allow] returns [false],
      where the specification sets [tokens] to the capacity and allows the
      request. *)
Theorem Allow_against_spec :
  (forall (S : Type) `(storage.Storage S) (clk : nat -> Z) (clientID : string)
          (w : ratelimiter.World S) b,
      let now := clk (ratelimiter.ticks w) in
      let x := Float64.mul (ratelimiter.Seconds (now - ratelimiter.lastRefill b))
                           (ratelimiter.refillRate b) in
      let y := (limiter_spec.seconds (now - ratelimiter.lastRefill b)
                * ratelimiter.refillRate b)%Q in
      ratelimiter.buckets (ratelimiter.limiter w) !! clientID = Some b ->
      Qfloor x = Qfloor y ->
      GoInt.minInt <= ratelimiter.tokens b <= GoInt.maxInt ->
      Qfloor y <= GoInt.maxInt ->
      ratelimiter.tokens b + Qfloor y <= GoInt.maxInt ->
      ratelimiter.refill_at now b = limiter_spec.spec_refill now b
      /\ fst (ratelimiter.Allow clk clientID w)
         = fst (limiter_spec.spec_consume (limiter_spec.spec_refill now b))
      /\ exists b',
           ratelimiter.buckets (ratelimiter.limiter (snd (ratelimiter.Allow clk clientID w)))
           !! clientID = Some b'
           /\ ratelimiter.tokens b'
              = ratelimiter.tokens (snd (limiter_spec.spec_consume (limiter_spec.spec_refill now b)))
           /\ ratelimiter.lastRefill b' = ratelimiter.lastRefill (limiter_spec.spec_refill now b)
           /\ ratelimiter.capacity b' = ratelimiter.capacity b
           /\ ratelimiter.refillRate b' = ratelimiter.refillRate b)
  /\ (let b := ratelimiter.mkTokenBucket 1000 0 100 0 0 in
      ratelimiter.refill_at 290000000 b = ratelimiter.mkTokenBucket 1000 28 100 290000000 0
      /\ limiter_spec.spec_refill 290000000 b
         = ratelimiter.mkTokenBucket 1000 29 100 290000000 0)
  /\ (let clk := fun k : nat => nth k [0; 1000000000; 1000000000] 0 in
      let w := snd (ratelimiter.CreateClientHandler clk
                      (Some (ratelimiter.mkClientLimitRequest GoInt.maxInt 1)) "u1"
                      (fst (ratelimiter.NewRateLimiter clk 100 10 (Some storage.NewMemoryStorage)))) in
      let b := ratelimiter.mkTokenBucket GoInt.maxInt GoInt.maxInt 1 0 0 in
      ratelimiter.buckets (ratelimiter.limiter w) !! "u1" = Some b
      /\ clk (ratelimiter.ticks w) = 1000000000
      /\ ratelimiter.refill_at 1000000000 b
         = ratelimiter.mkTokenBucket GoInt.maxInt GoInt.minInt 1 1000000000 0
      /\ limiter_spec.spec_refill 1000000000 b
         = ratelimiter.mkTokenBucket GoInt.maxInt GoInt.maxInt 1 1000000000 0
      /\ fst (ratelimiter.Allow clk "u1" w) = false
      /\ fst (limiter_spec.spec_consume (limiter_spec.spec_refill 1000000000 b)) = true
      /\ ratelimiter.buckets (ratelimiter.limiter (snd (ratelimiter.Allow clk "u1" w))) !! "u1"
         = Some (ratelimiter.mkTokenBucket GoInt.maxInt GoInt.minInt 1 1000000000 1000000000)).
Proof.
  split; [|split].
  - intros S HS clk clientID w b now x y Eb Exy Hrange Hmax Hsum. split.
    + apply refill_at_refines_spec; [exact Exy|apply Hrange|exact Hmax|exact Hsum].
    + apply Allow_refines_spec; assumption.
  - split; vm_compute; reflexivity.
  - repeat split; vm_compute; reflexivity.
Qed.

(** C2.  A bucket that is full with a positive capacity, along a history
    that leaves it in the table and calls [SetClientLimit] for it with
    positive capacities only: as long as the limits and the span of the
    history leave room for every sum [tokens + added] in an [int] (the
    largest capacity and the tokens of the whole span at the largest rate,
    with the factor [1 + 2^-50] for the rounding of the product),
    [0 <= tokens <= capacity] holds after every step.  Without that room it
    does not: the client of C1, created with a positive capacity, has a
    negative count after one [Allow]. *)
Theorem bucket_bounds_up_to_overflow :
  (forall (S : Type) `(storage.Storage S) (clk : nat -> Z) (clientID : string)
          (w : ratelimiter.World S) b ops (t0 span cap_max : Z) (rate_max : Q),
      0 <= span -> (0 <= rate_max)%Q ->
      cap_max + Qfloor (limiter_spec.seconds span * rate_max * limiter_spec.slack)
      <= GoInt.maxInt ->
      ratelimiter.buckets (ratelimiter.limiter w) !! clientID = Some b ->
      ratelimiter.tokens b = ratelimiter.capacity b ->
      0 < ratelimiter.capacity b <= cap_max ->
      (- rate_max <= ratelimiter.refillRate b <= rate_max)%Q ->
      t0 <= ratelimiter.lastRefill b <= t0 + span ->
      limiter_spec.bucket_stays clk (limiter_spec.positive_limits cap_max rate_max)
        clientID ops w ->
      (forall k, (ratelimiter.ticks w <= k
                  < ratelimiter.ticks (snd (ratelimiter.run clk ops w)))%nat ->
                 t0 <= clk k <= t0 + span) ->
      exists b', ratelimiter.buckets (ratelimiter.limiter (snd (ratelimiter.run clk ops w)))
                 !! clientID = Some b'
                 /\ 0 <= ratelimiter.tokens b' <= ratelimiter.capacity b')
  /\ (let clk := fun k : nat => nth k [0; 1000000000; 1000000000] 0 in
      let ops := [ratelimiter.OpSetClientLimit "u1" GoInt.maxInt 1; ratelimiter.OpAllow "u1"] in
      let w := snd (ratelimiter.run clk ops
                      (fst (ratelimiter.NewRateLimiter clk 100 10 (Some storage.NewMemoryStorage)))) in
      exists b, ratelimiter.buckets (ratelimiter.limiter w) !! "u1" = Some b
                /\ 0 < ratelimiter.capacity b
                /\ ratelimiter.tokens b = GoInt.minInt
                /\ ~ (0 <= ratelimiter.tokens b <= ratelimiter.capacity b)).
Proof.
  split.
  - intros S HS clk clientID w b ops t0 span cap_max rate_max
           Hspan Hrate Hroom Eb Hfull Hcap Hr Hl Hkeep Hwin.
    apply (bucket_bounds_history t0 span cap_max rate_max Hspan Hrate Hroom
             clk clientID w b ops Eb); [|exact Hkeep|exact Hwin].
    unfold limiter_spec.in_bounds. rewrite Hfull. repeat split; try apply Hr; lia.
  - eexists. split; [vm_compute; reflexivity|].
    split; [reflexivity|]. split; [reflexivity|].
    vm_compute. intros [Hle _]. apply Hle. reflexivity.
Qed.

(** ** The scenarios of the specification, run on the embedding *)

(** Per-client limit: capacity 3 and no refill, four requests. *)
Example scenario_per_client_limit :
  let clk := fun k : nat => Z.of_nat k * 1000000 in
  let w0 := fst (ratelimiter.NewRateLimiter clk 100 10 (Some storage.NewMemoryStorage)) in
  let '(status, w) := ratelimiter.CreateClientHandler clk
                        (Some (ratelimiter.mkClientLimitRequest 3 0)) "u1" w0 in
  status = 201
  /\ fst (ratelimiter.run clk (repeat (ratelimiter.OpAllow "u1") 4) w)
     = [ratelimiter.RAllow true; ratelimiter.RAllow true;
        ratelimiter.RAllow true; ratelimiter.RAllow false].
Proof. vm_compute. split; reflexivity. Qed.

(** Update clamps tokens: a full bucket of capacity 5 is set to capacity 2. *)
Example scenario_update_clamps_tokens :
  let clk := fun k : nat => Z.of_nat k * 1000000 in
  let w0 := fst (ratelimiter.NewRateLimiter clk 100 10 (Some storage.NewMemoryStorage)) in
  let w1 := snd (ratelimiter.CreateClientHandler clk
                   (Some (ratelimiter.mkClientLimitRequest 5 0)) "u1" w0) in
  let '(status, w2) := ratelimiter.UpdateClientHandler clk
                         (Some (ratelimiter.mkClientLimitRequest 2 0)) "u1" w1 in
  let tokens_after ops :=
    ratelimiter.tokens <$>
      (ratelimiter.buckets (ratelimiter.limiter (snd (ratelimiter.run clk ops w2))) !! "u1") in
  status = 200
  /\ tokens_after [] = Some 2
  /\ tokens_after [ratelimiter.OpAllow "u1"] = Some 1
  /\ tokens_after [ratelimiter.OpAllow "u1"; ratelimiter.OpAllow "u1"] = Some 0
  /\ fst (ratelimiter.run clk (repeat (ratelimiter.OpAllow "u1") 3) w2)
     = [ratelimiter.RAllow true; ratelimiter.RAllow true; ratelimiter.RAllow false].
Proof. vm_compute. repeat split; reflexivity. Qed.

(** Refill quantization: a drained bucket of rate 1 gets nothing after
    0.9 s and one token after 1.05 s. *)
Example scenario_refill_quantization :
  let clk := fun k : nat => nth k [900000000; 900000000; 1050000000; 1050000000;
                                   1050000000; 1050000000] 0 in
  let w := {| ratelimiter.limiter :=
                {| ratelimiter.buckets := {["u1" := ratelimiter.mkTokenBucket 10 0 1 0 0]};
                   ratelimiter.defaultCap := 100; ratelimiter.defaultRate := 10;
                   ratelimiter.storage := Some storage.NewMemoryStorage |};
              ratelimiter.ticks := 0; ratelimiter.goroutines := [] |} in
  fst (ratelimiter.run clk (repeat (ratelimiter.OpAllow "u1") 3) w)
  = [ratelimiter.RAllow false; ratelimiter.RAllow true; ratelimiter.RAllow false].
Proof. vm_compute. reflexivity. Qed.

(** Identifier fallback. *)
Example scenario_identifier_fallback :
  ratelimiter.getClientID "" "1.2.3.4:5678" = "ip:1.2.3.4:5678"
  /\ ratelimiter.getClientID "u1" "1.2.3.4:5678" = "u1".
Proof. split; reflexivity. Qed.

(** Defaults: round robin over two healthy backends picks the first, the
    second, the first. *)
Example scenario_round_robin_defaults :
  balancer_spec.picks 3 balancer.NewRoundRobin
    [balancer.mkServer "http://b1" 0 true; balancer.mkServer "http://b2" 0 true]
  = [Ret (Some 0%nat); Ret (Some 1%nat); Ret (Some 0%nat)].
Proof. reflexivity. Qed.

(** A first request of an unknown client installs the default bucket and
    starts the goroutine that saves the defaults. *)
Example scenario_lazy_bucket :
  let clk := fun k : nat => Z.of_nat k * 1000000 in
  let w0 := fst (ratelimiter.NewRateLimiter clk 100 10 (Some storage.NewMemoryStorage)) in
  let '(rs, w) := ratelimiter.run clk [ratelimiter.OpAllow "ip:1.2.3.4:5678";
                                       ratelimiter.OpGoroutine] w0 in
  rs = [ratelimiter.RAllow true; ratelimiter.RDone]
  /\ ratelimiter.tokens <$> (ratelimiter.buckets (ratelimiter.limiter w) !! "ip:1.2.3.4:5678")
     = Some 99
  /\ (storage.limits <$> ratelimiter.storage (ratelimiter.limiter w))
     = Some {["ip:1.2.3.4:5678" := storage.mkClientLimit 100 10]}.
Proof. vm_compute. repeat split; reflexivity. Qed.

(** ** The theorems at concrete inputs *)

(** Least connections over three servers, the first one unhealthy, the
    other two tied: the second server is picked. *)
Lemma LeastConnections_NextServer_correct_witness :
  let servers := [balancer.mkServer "http://b1" 0 false;
                  balancer.mkServer "http://b2" 2 true;
                  balancer.mkServer "http://b3" 2 true] in
  balancer.LeastConnections_NextServer servers = Some 1%nat
  /\ exists s, servers !! 1%nat = Some s /\ balancer.Healthy s = true
       /\ forall (j : nat) s', servers !! j = Some s' -> balancer.Healthy s' = true ->
            balancer.ActiveConnections s <= balancer.ActiveConnections s'
            /\ ((j < 1)%nat -> balancer.ActiveConnections s < balancer.ActiveConnections s').
Proof.
  intros servers.
  assert (E : balancer.LeastConnections_NextServer servers = Some 1%nat) by reflexivity.
  split; [exact E|].
  exact (proj1 (LeastConnections_NextServer_correct servers) 1%nat E).
Defined.

(** A request that is answered by the upstream of a pool of two servers
    under round robin leaves the counts as they were. *)
Lemma ServeHTTP_active_count_witness :
  let lb := {| balancer.servers := [balancer.mkServer "http://b1" 3 true;
                                    balancer.mkServer "http://b2" 1 true];
               balancer.algorithm := balancer.NewRoundRobin |} in
  Forall balancer_spec.connections_in_range (balancer.servers lb)
  /\ balancer.servers (snd (balancer.ServeHTTP (balancer.Forwarded 200) lb))
     = balancer.servers lb.
Proof.
  intros lb.
  assert (Hrange : Forall balancer_spec.connections_in_range (balancer.servers lb)).
  { repeat constructor; vm_compute; discriminate. }
  split; [exact Hrange|].
  apply (proj1 ServeHTTP_active_count _ _ (balancer.Forwarded 200) lb
           (snd (balancer.ServeHTTP (balancer.Forwarded 200) lb)) 200 Hrange).
  reflexivity.
Defined.

(** The bucket of the refill scenario, half a second after it was drained
    and again a second later. *)
Lemma Allow_against_spec_witness :
  let clk := fun k : nat => nth k [500000000; 500000000; 1500000000; 1500000000] 0 in
  let b := ratelimiter.mkTokenBucket 10 0 1 0 0 in
  let w := {| ratelimiter.limiter :=
                {| ratelimiter.buckets := {["u1" := b]};
                   ratelimiter.defaultCap := 100; ratelimiter.defaultRate := 10;
                   ratelimiter.storage := Some storage.NewMemoryStorage |};
              ratelimiter.ticks := 0; ratelimiter.goroutines := [] |} in
  ratelimiter.refill_at 500000000 b = limiter_spec.spec_refill 500000000 b
  /\ fst (ratelimiter.Allow clk "u1" w) = false.
Proof.
  intros clk b w.
  destruct (proj1 Allow_against_spec _ _ clk "u1" w b) as (Hrefill & Hallow & _).
  - reflexivity.
  - vm_compute. reflexivity.
  - vm_compute. split; discriminate.
  - vm_compute. discriminate.
  - vm_compute. discriminate.
  - split; [exact Hrefill|]. rewrite Hallow. reflexivity.
Defined.

(** A bucket of capacity 5 and rate 2, used for ten seconds and set to
    capacity 2 on the way, with limits of at most a million; an eviction
    tick finds the bucket in use. *)
Lemma bucket_bounds_up_to_overflow_witness :
  let clk := fun k : nat => Z.of_nat k * 1000000000 in
  let w := snd (ratelimiter.SetClientLimit clk "u1" 5 2
                  (fst (ratelimiter.NewRateLimiter clk 100 10 (Some storage.NewMemoryStorage)))) in
  let ops := [ratelimiter.OpAllow "u1"; ratelimiter.OpRefillTokens; ratelimiter.OpCleanup;
              ratelimiter.OpSetClientLimit "u1" 2 2; ratelimiter.OpAllow "u1"] in
  exists b', ratelimiter.buckets (ratelimiter.limiter (snd (ratelimiter.run clk ops w))) !! "u1"
             = Some b'
             /\ 0 <= ratelimiter.tokens b' <= ratelimiter.capacity b'.
Proof.
  intros clk w ops.
  apply (proj1 bucket_bounds_up_to_overflow _ _ clk "u1" w
           (ratelimiter.mkTokenBucket 5 5 2 0 0) ops 0 10000000000 1000000 1000000%Q).
  - lia.
  - vm_compute. discriminate.
  - vm_compute. discriminate.
  - reflexivity.
  - reflexivity.
  - cbn. lia.
  - vm_compute. split; discriminate.
  - cbn. lia.
  - cbn [limiter_spec.bucket_stays limiter_spec.stays].
    split; [exact I|]. split; [exact I|]. split; [vm_compute; eexists; reflexivity|].
    split; [right; split; [lia|vm_compute; split; discriminate]|].
    split; [exact I|exact I].
  - intros k Hk. vm_compute in Hk. unfold clk. lia.
Defined.

(** The update of the clamping scenario. *)
Lemma SetClientLimit_effect_witness :
  let clk := fun k : nat => Z.of_nat k * 1000000 in
  let b := ratelimiter.mkTokenBucket 5 5 0 7 9 in
  let w := {| ratelimiter.limiter :=
                {| ratelimiter.buckets := {["u1" := b]};
                   ratelimiter.defaultCap := 100; ratelimiter.defaultRate := 10;
                   ratelimiter.storage := Some (storage.mkPostgresStorage ∅ false) |};
              ratelimiter.ticks := 0; ratelimiter.goroutines := [] |} in
  ratelimiter.buckets (ratelimiter.limiter (snd (ratelimiter.SetClientLimit clk "u1" 2 0 w)))
  !! "u1" = Some (ratelimiter.mkTokenBucket 2 2 0 7 9).
Proof.
  intros clk b w.
  exact (proj1 (SetClientLimit_effect clk "u1" 2 0 w) b eq_refl).
Defined.

(** A client is deleted from a limiter with the in-memory store. *)
Lemma DeleteClientLimit_effect_witness :
  let st := {| storage.limits := {["u1" := storage.mkClientLimit 5 2]} |} in
  let w := {| ratelimiter.limiter :=
                {| ratelimiter.buckets := {["u1" := ratelimiter.mkTokenBucket 5 5 2 0 0]};
                   ratelimiter.defaultCap := 100; ratelimiter.defaultRate := 10;
                   ratelimiter.storage := Some st |};
              ratelimiter.ticks := 1; ratelimiter.goroutines := [] |} in
  fst (ratelimiter.DeleteClientLimit "u1" w) = None
  /\ storage.limits {| storage.limits := delete "u1" (storage.limits st) |} !! "u1" = None.
Proof.
  intros st w. split; [reflexivity|].
  destruct DeleteClientLimit_effect as (_ & Hmem & _).
  apply (Hmem "u1" w (snd (ratelimiter.DeleteClientLimit "u1" w))
           {| storage.limits := delete "u1" (storage.limits st) |}); reflexivity.
Defined.

(** The limits of a client that has a bucket. *)
Lemma GetClientLimit_runtime_only_witness :
  let b := ratelimiter.mkTokenBucket 5 3 2 0 0 in
  let w := {| ratelimiter.limiter :=
                {| ratelimiter.buckets := {["u1" := b]};
                   ratelimiter.defaultCap := 100; ratelimiter.defaultRate := 10;
                   ratelimiter.storage := Some storage.NewMemoryStorage |};
              ratelimiter.ticks := 1; ratelimiter.goroutines := [] |} in
  fst (ratelimiter.GetClientLimit "u1" w) = (5, 2%Q, true).
Proof.
  intros b w.
  destruct (GetClientLimit_runtime_only "u1" w) as (_ & _ & Hsome & _).
  exact (Hsome b eq_refl).
Defined.

(** * Further properties of the code *)

(** ** Construction of the balancer *)

Section Construction.

Import balancer balancer_spec.

Variable url_Parse : string -> option string.

(** A server as the constructor makes it from an address. *)
Let fresh (backend : string) (s : Server) : Prop :=
  url_Parse backend = Some (URL s) /\ ActiveConnections s = 0 /\ Healthy s = true.

Lemma appendServers_result backends : forall servers0,
  match appendServers url_Parse backends servers0 with
  | inl servers => exists added, servers = servers0 ++ added /\ Forall2 fresh backends added
  | inr e => exists pre backend post,
      backends = pre ++ backend :: post /\ e = InvalidURL backend
      /\ url_Parse backend = None /\ Forall (fun b => is_Some (url_Parse b)) pre
  end.
Proof.
  induction backends as [|backend rest IH]; intros servers0; cbn [appendServers].
  - exists []. rewrite app_nil_r. split; [reflexivity|constructor].
  - destruct (url_Parse backend) as [url|] eqn:Eu.
    + specialize (IH (servers0 ++ [{| URL := url; ActiveConnections := 0; Healthy := true |}])).
      destruct (appendServers url_Parse rest _) as [servers|e].
      * destruct IH as (added & -> & Hadd).
        exists ({| URL := url; ActiveConnections := 0; Healthy := true |} :: added).
        split; [rewrite <- app_assoc; reflexivity|].
        constructor; [|exact Hadd]. unfold fresh. cbn. auto.
      * destruct IH as (pre & b & post & -> & -> & Hb & Hpre).
        exists (backend :: pre), b, post. repeat split; try assumption.
        constructor; [rewrite Eu; eauto|exact Hpre].
    + exists [], backend, rest. repeat split; try assumption. constructor.
Qed.

(** Least connections keeps its candidate over servers that do not have
    fewer connections. *)
Lemma lc_loop_keeps rest : forall i m c,
  Forall (fun s => c <= ActiveConnections s) rest ->
  lc_loop rest i (Some m) c = Some m.
Proof.
  induction rest as [|s rest IH]; intros i m c Hall; [reflexivity|].
  inversion Hall as [|? ? Hs Hrest]; subst. cbn [lc_loop].
  destruct (negb (IsHealthy s)); [apply IH; exact Hrest|].
  cbn [orb]. destruct (Z.ltb_spec (ActiveConnections s) c); [lia|].
  apply IH. exact Hrest.
Qed.

(** X1.  [NewLoadBalancer] succeeds exactly when every address parses and the
    algorithm name is one of the two known ones; an address that does not
    parse is reported before an unknown name.  The pool it builds has one
    server for every address, in the order given, healthy and with no
    active connection; an empty list of addresses gives an empty pool.
    The cursor of round robin is the fresh one, and the first pick over a
    pool that is not empty is the first server, with either algorithm. *)
Theorem NewLoadBalancer_pool (backends : list string) (algorithmName : string) :
  match NewLoadBalancer url_Parse backends algorithmName with
  | inl lb =>
      Forall2 (fun backend s => url_Parse backend = Some (URL s)
                                /\ ActiveConnections s = 0 /\ Healthy s = true)
              backends (Servers lb)
      /\ (algorithmName = "round-robin" /\ algorithm lb = UseRoundRobin NewRoundRobin
          \/ algorithmName = "least-connections"
             /\ algorithm lb = UseLeastConnections NewLeastConnections)
      /\ cursor_in_pool lb
      /\ (backends <> [] -> fst (getNextServer lb) = Ret (Some 0%nat))
  | inr e =>
      (exists pre backend post,
          backends = pre ++ backend :: post /\ e = InvalidURL backend
          /\ url_Parse backend = None /\ Forall (fun b => is_Some (url_Parse b)) pre)
      \/ (e = UnknownAlgorithm algorithmName
          /\ Forall (fun b => is_Some (url_Parse b)) backends
          /\ algorithmName <> "round-robin" /\ algorithmName <> "least-connections")
  end.
Proof.
  unfold NewLoadBalancer.
  pose proof (appendServers_result backends []) as Ha.
  destruct (appendServers url_Parse backends []) as [pool|e]; [|left; exact Ha].
  destruct Ha as (added & -> & Hadd). rewrite app_nil_l.
  assert (Hparsed : Forall (fun b => is_Some (url_Parse b)) backends).
  { clear -Hadd. induction Hadd as [|b s bs ss (Hb & _) _ IH]; constructor; [|exact IH].
    rewrite Hb. eauto. }
  assert (Hfirst : backends <> [] ->
            exists s0 l, added = s0 :: l /\ Healthy s0 = true
                         /\ Forall (fun s => 0 <= ActiveConnections s) l
                         /\ ActiveConnections s0 = 0).
  { intros Hne. destruct Hadd as [|b s bs ss (_ & Hc & Hh) Hrest]; [congruence|].
    exists s, ss. repeat split; try assumption.
    clear -Hrest. induction Hrest as [|b' s' bs' ss' (_ & Hc' & _) _ IH]; constructor;
      [lia|exact IH]. }
  destruct (bool_decide (algorithmName = "round-robin")) eqn:Err.
  - apply bool_decide_eq_true in Err. unfold Servers. cbn [servers algorithm].
    split; [exact Hadd|]. split; [left; split; [exact Err|reflexivity]|].
    split.
    { unfold cursor_in_pool. cbn [servers algorithm NewRoundRobin current].
      destruct added; [right; split; reflexivity|left; cbn [length]; lia]. }
    intros Hne. destruct (Hfirst Hne) as (s0 & l & -> & Hh & _).
    unfold getNextServer. cbn [servers algorithm].
    unfold NextServer, Algorithm_alg, NextServer, RoundRobin_alg, RoundRobin_NextServer.
    cbn [length rr_loop NewRoundRobin current].
    change (GoInt.add (-1) 1) with 0. unfold GoInt.rem. rewrite Z.rem_0_l by lia.
    unfold index. change (0 <? 0) with false. cbn iota.
    change ((s0 :: l) !! Z.to_nat 0) with (Some s0).
    unfold IsHealthy. rewrite Hh. reflexivity.
  - apply bool_decide_eq_false in Err.
    destruct (bool_decide (algorithmName = "least-connections")) eqn:Elc.
    + apply bool_decide_eq_true in Elc. unfold Servers. cbn [servers algorithm].
      split; [exact Hadd|]. split; [right; split; [exact Elc|reflexivity]|].
      split; [exact I|].
      intros Hne. destruct (Hfirst Hne) as (s0 & l & -> & Hh & Hl & Hc).
      unfold getNextServer. cbn [servers algorithm].
      unfold NextServer, Algorithm_alg, NextServer, LeastConnections_alg.
      unfold LeastConnections_NextServer. cbn [lc_loop fst].
      unfold IsHealthy. rewrite Hh. cbn [negb orb]. rewrite Hc.
      rewrite lc_loop_keeps by exact Hl. reflexivity.
    + apply bool_decide_eq_false in Elc. right. repeat split; assumption.
Qed.

End Construction.

(** ** The health checker *)

Section HealthCheck.

Import balancer balancer_spec.

(** X2.  A round of health checks changes nothing but the healthy flags:
    the pool keeps its servers, their order, their URLs and their active
    counts.  The flag of a server becomes true exactly when its probe is
    answered with 200, false when the transport fails or another status
    arrives, and stays as it was when the request could not be built.
    A probe whose request could not be built logs an error line, every
    time it happens, although the flag stays; any other probe logs one
    line exactly when it changes the flag (unavailable, or available
    again) and nothing otherwise, so that probing once more with the same
    outcome changes nothing and logs nothing but that error line. *)
Theorem checkServers_only_flags (probes : nat -> probe) (servers : list Server) :
  let checked := checkServers probes servers in
  length checked = length servers
  /\ forall (i : nat) s, servers !! i = Some s ->
       exists s' log, checked !! i = Some (s', log)
         /\ URL s' = URL s /\ ActiveConnections s' = ActiveConnections s
         /\ Healthy s' = match probes i with
                         | RequestError => Healthy s
                         | TransportError => false
                         | Response StatusCode => bool_decide (StatusCode = 200)
                         end
         /\ log = match probes i with
                  | RequestError => [LogRequestError]
                  | _ => if Bool.eqb (Healthy s') (Healthy s) then []
                         else [if Healthy s' then LogAvailableAgain else LogUnavailable]
                  end
         /\ checkServer (probes i) s'
            = (s', match probes i with RequestError => [LogRequestError] | _ => [] end).
Proof.
  intros checked. subst checked. unfold checkServers. split; [apply length_imap|].
  intros i s Hs. rewrite list_lookup_imap, Hs. cbn [fmap option_fmap option_map].
  unfold checkServer, IsHealthy, SetHealth, StatusOK.
  destruct (probes i) as [| |code] eqn:Ep.
  - eexists _, _. split; [reflexivity|]. repeat split.
  - destruct (Healthy s) eqn:Hh; eexists _, _; (split; [reflexivity|]);
      cbn [URL ActiveConnections Healthy Bool.eqb]; repeat split.
  - destruct (Z.eqb_spec code 200) as [->|Hne]; cbn [negb];
      [rewrite bool_decide_eq_true_2 by reflexivity
      |rewrite bool_decide_eq_false_2 by exact Hne];
      (destruct (Healthy s) eqn:Hh; eexists _, _; (split; [reflexivity|]);
       cbn [URL ActiveConnections Healthy negb Bool.eqb]; repeat split).
    all: try (rewrite Z.eqb_refl; reflexivity).
    all: try (destruct (Z.eqb_spec code 200); [contradiction|reflexivity]).
Qed.

(** A pick returns the index of a server whose healthy flag is set. *)
Lemma NextServer_healthy (alg : Algorithm) (servers : list Server) (i : nat) :
  fst (NextServer alg servers) = Ret (Some i) ->
  exists s, servers !! i = Some s /\ Healthy s = true.
Proof.
  unfold NextServer at 1. unfold Algorithm_alg. destruct alg as [rr|lc].
  - unfold NextServer, RoundRobin_alg.
    destruct (RoundRobin_NextServer rr servers) as [r rr'] eqn:E. cbn [fst].
    intros ->. eapply RoundRobin_NextServer_healthy; exact E.
  - unfold NextServer, LeastConnections_alg. cbn [fst]. intros E.
    destruct (LeastConnections_NextServer_scanned servers) as [c Hsc].
    inversion E as [E']. rewrite E' in Hsc.
    destruct Hsc as [(s & Es & Hs & _) _]. eauto.
Qed.

(** X3.  After a round of health checks neither algorithm picks a server
    whose probe failed (no connection, a timeout, or a status other than
    200), whatever the cursor and the active counts. *)
Theorem failed_probe_not_picked
  (alg : Algorithm) (probes : nat -> probe) (servers : list Server) (i : nat) :
  failed (probes i) ->
  fst (NextServer alg (checkServers probes servers).*1) <> Ret (Some i).
Proof.
  intros Hf E. apply NextServer_healthy in E. destruct E as (s' & Es' & Hh).
  rewrite list_lookup_fmap in Es'. unfold checkServers in Es'.
  rewrite list_lookup_imap in Es'.
  destruct (servers !! i) as [s|]; [|discriminate].
  cbn in Es'. inversion Es' as [E]. clear Es'.
  unfold checkServer, failed, StatusOK, IsHealthy in *.
  destruct (probes i) as [| |code]; [contradiction| |].
  - subst s'. cbn in Hh. discriminate.
  - destruct (Z.eqb_spec code 200) as [->|Hne]; [contradiction|].
    cbn in E. subst s'. cbn in Hh. discriminate.
Qed.

End HealthCheck.

(** ** Availability *)

Section Availability.

Import balancer balancer_spec.

Lemma existsb_Healthy (servers : list Server) :
  existsb Healthy servers = true <-> exists s, s ∈ servers /\ Healthy s = true.
Proof.
  rewrite existsb_exists. split; intros (s & Hin & Hs); exists s; split; try assumption.
  - apply list_elem_of_In. exact Hin.
  - apply list_elem_of_In. exact Hin.
Qed.

(** The pick of either algorithm from a cursor that is fresh or in the
    pool: a server when one is healthy, none otherwise; the cursor stays
    in the pool. *)
Lemma getNextServer_available (lb : LoadBalancer Algorithm) :
  Z.of_nat (length (servers lb)) <= GoInt.maxInt ->
  cursor_in_pool lb ->
  let '(r, lb1) := getNextServer lb in
  servers lb1 = servers lb /\ cursor_in_pool lb1
  /\ if existsb Healthy (servers lb)
     then exists i, r = Ret (Some i) else r = Ret None.
Proof.
  intros Hlen Hcur. destruct lb as [pool alg]. unfold getNextServer, cursor_in_pool in *.
  cbn [servers algorithm] in *.
  destruct (existsb Healthy pool) eqn:Eh.
  - apply existsb_Healthy in Eh.
    assert (Hn : 0 < Z.of_nat (length pool)).
    { destruct Eh as (s & Hin & _). destruct pool; [apply elem_of_nil in Hin; contradiction|].
      cbn [length]. lia. }
    destruct alg as [rr|lc]; unfold NextServer, Algorithm_alg, NextServer.
    + unfold RoundRobin_alg.
      destruct Hcur as [Hc|[-> _]]; [|cbn in Hn; lia].
      destruct (RoundRobin_some_healthy pool Hlen rr Hn Hc Eh) as (k & s & Hk & _ & _ & ->).
      cbn [servers algorithm]. split; [reflexivity|]. split; [|eauto].
      left. cbn [current].
      pose proof (rr_pos_range pool (current rr) k Hn). lia.
    + unfold LeastConnections_alg. cbn [servers algorithm].
      split; [reflexivity|]. split; [exact I|].
      destruct (LeastConnections_NextServer_scanned pool) as [c Hsc].
      destruct (LeastConnections_NextServer pool) as [m|]; [eauto|].
      destruct Eh as (s & Hin & Hs). rewrite (Hsc s Hin) in Hs. discriminate.
  - assert (Hall : forall s, s ∈ pool -> Healthy s = false).
    { intros s Hin. destruct (Healthy s) eqn:Hs; [|reflexivity].
      assert (existsb Healthy pool = true) as E by (apply existsb_Healthy; eauto).
      congruence. }
    destruct alg as [rr|lc]; unfold NextServer, Algorithm_alg, NextServer.
    + unfold RoundRobin_alg.
      destruct pool as [|s0 l] eqn:Ep.
      * cbn. repeat split; try reflexivity. exact Hcur.
      * rewrite <- Ep in *.
        assert (Hn : 0 < Z.of_nat (length pool)) by (rewrite Ep; cbn [length]; lia).
        destruct Hcur as [Hc|[E _]]; [|rewrite E in Ep; discriminate].
        destruct (RoundRobin_none_healthy pool Hlen rr Hn Hc Hall) as [Hr Hc'].
        destruct (RoundRobin_NextServer rr pool) as [r rr']. cbn [fst snd] in *.
        cbn [servers algorithm]. subst r. repeat split. left. exact Hc'.
    + unfold LeastConnections_alg. cbn [servers algorithm].
      split; [reflexivity|]. split; [exact I|].
      destruct (LeastConnections_NextServer_scanned pool) as [c Hsc].
      destruct (LeastConnections_NextServer pool) as [m|]; [|reflexivity].
      destruct Hsc as [(s & Es & Hs & _) _].
      rewrite (Hall s) in Hs by (eapply list_elem_of_lookup_2; exact Es). discriminate.
Qed.

(** X4.  A request is answered with 503 by the balancer itself exactly when
    no server of the pool is healthy, and then no active count changes;
    as soon as one server is healthy the request is forwarded, and the
    answer is the one of the upstream (502 when the upstream cannot be
    reached).  This holds for both algorithms, from the cursor of a new
    balancer and from every cursor a request leaves behind. *)
Theorem ServeHTTP_availability (fwd : forwarding) (lb : LoadBalancer Algorithm) :
  Z.of_nat (length (servers lb)) <= GoInt.maxInt ->
  cursor_in_pool lb ->
  let '(r, lb') := ServeHTTP fwd lb in
  cursor_in_pool lb'
  /\ length (servers lb') = length (servers lb)
  /\ if existsb Healthy (servers lb)
     then r = match fwd with
              | Forwarded status => Ret status
              | ForwardError => Ret StatusBadGateway
              | ForwardAbort => Panic
              end
     else r = Ret StatusServiceUnavailable /\ servers lb' = servers lb.
Proof.
  intros Hlen Hcur. pose proof (getNextServer_available lb Hlen Hcur) as Hg.
  unfold ServeHTTP. destruct (getNextServer lb) as [r lb1].
  destruct Hg as (Hs & Hc1 & Hr).
  assert (Hkeep : forall l, length l = length (servers lb1) ->
            cursor_in_pool {| servers := l; algorithm := algorithm lb1 |}).
  { intros l Hl. unfold cursor_in_pool in *. cbn [servers algorithm].
    destruct (algorithm lb1) as [rr|lc]; [|exact I].
    rewrite Hl. destruct Hc1 as [Hc1|[E Hc1]]; [left; exact Hc1|].
    right. rewrite E in Hl. destruct l; [|discriminate]. split; [reflexivity|exact Hc1]. }
  destruct (existsb Healthy (servers lb)).
  - destruct Hr as [i ->]. unfold increment, decrement. cbn [servers algorithm].
    destruct fwd; cbn [servers algorithm];
      (split; [apply Hkeep; rewrite ?length_alter; reflexivity|]);
      rewrite ?length_alter, Hs; split; reflexivity.
  - subst r. rewrite Hs. repeat split. exact Hc1.
Qed.

End Availability.

(** ** The table of buckets *)

Section Table.

Import ratelimiter limiter_spec.

Context {S : Type} `{storage.Storage S}.
Variable clk : nat -> Z.

Local Ltac run_monad :=
  unfold bind, ret, get_limiter, set_buckets, set_storage, put_bucket, go, time_Now;
  cbn [fst snd limiter ticks goroutines buckets defaultCap defaultRate storage
       capacity tokens refillRate lastRefill lastAccess].

Lemma getBucket_existing clientID (w : World S) bucket :
  buckets (limiter w) !! clientID = Some bucket ->
  getBucket clk clientID w = (bucket, w).
Proof. intros E. unfold getBucket. run_monad. rewrite E. reflexivity. Qed.

(** X5.  [getBucket] never replaces a bucket: for a client that has one it
    returns it and changes nothing, and calling it a second time returns
    the bucket of the first call and changes nothing.  For a client
    without a bucket it installs a full one, stamped with one clock
    reading: with the settings of the store when the store has a
    record for the client, with the defaults when there is no store, no
    record, or the store fails.  The goroutine that saves the defaults is
    started exactly when there is a store and no stored settings were
    used. *)
Theorem getBucket_resolution (clientID : string) (w : World S) :
  let '(bucket, w') := getBucket clk clientID w in
  getBucket clk clientID w' = (bucket, w')
  /\ match buckets (limiter w) !! clientID with
     | Some b => bucket = b /\ w' = w
     | None =>
         let stored :=
           match storage (limiter w) with
           | Some st =>
               let '(storedCapacity, storedRate, exists_, err) :=
                 storage.GetClientLimit clientID st in
               match err with
               | Some _ => None
               | None => if exists_ then Some (storedCapacity, storedRate) else None
               end
           | None => None
           end in
         let limits := default (defaultCap (limiter w), defaultRate (limiter w)) stored in
         bucket = {| capacity := fst limits; tokens := fst limits;
                     refillRate := snd limits;
                     lastRefill := clk (ticks w); lastAccess := clk (ticks w) |}
         /\ buckets (limiter w') = <[clientID := bucket]> (buckets (limiter w))
         /\ storage (limiter w') = storage (limiter w)
         /\ ticks w' = Datatypes.S (ticks w)
         /\ goroutines w'
            = goroutines w
              ++ match storage (limiter w), stored with
                 | Some _, None =>
                     [mkSaveTask clientID (defaultCap (limiter w)) (defaultRate (limiter w))]
                 | _, _ => []
                 end
     end.
Proof.
  pose proof (getBucket_result clk clientID w) as Hg.
  destruct (getBucket clk clientID w) as [bucket w'] eqn:Eg.
  destruct Hg as (Hb & _). split; [apply getBucket_existing; exact Hb|].
  revert Eg. unfold getBucket. run_monad.
  destruct (buckets (limiter w) !! clientID) as [b0|] eqn:E.
  - intros Eg. inversion Eg; subst. split; reflexivity.
  - destruct (storage (limiter w)) as [st|] eqn:Est.
    + destruct (storage.GetClientLimit clientID st) as [[[sc sr] ex] err].
      destruct err as [e|]; [|destruct ex]; run_monad; cbn -[insert lookup];
        intros Eg; inversion Eg; subst; cbn -[insert lookup];
        rewrite ?Est, ?app_nil_r; repeat split; reflexivity.
    + run_monad. cbn -[insert lookup]. intros Eg; inversion Eg; subst.
      cbn -[insert lookup]. rewrite ?Est, ?app_nil_r. repeat split; reflexivity.
Qed.

(** The loop of [loadLimitsFromStorage] over records with distinct
    clients. *)
Lemma createBuckets_result l : forall (w : World S),
  NoDup l.*1 ->
  let w' := snd (createBuckets clk l w) in
  ticks w' = (ticks w + length l)%nat
  /\ storage (limiter w') = storage (limiter w)
  /\ defaultCap (limiter w') = defaultCap (limiter w)
  /\ defaultRate (limiter w') = defaultRate (limiter w)
  /\ goroutines w' = goroutines w
  /\ (forall c, c ∉ l.*1 -> buckets (limiter w') !! c = buckets (limiter w) !! c)
  /\ (forall c limit, (c, limit) ∈ l ->
        exists k, (ticks w <= k < ticks w + length l)%nat
          /\ buckets (limiter w') !! c
             = Some {| capacity := storage.Capacity limit;
                       tokens := storage.Capacity limit;
                       refillRate := storage.RefillRate limit;
                       lastRefill := clk k; lastAccess := clk k |}).
Proof.
  induction l as [|[c0 l0] l IH]; intros w Hnd.
  - cbn. repeat split; try lia. intros c limit Hin. apply elem_of_nil in Hin. contradiction.
  - cbn [fmap list_fmap fst] in Hnd. apply NoDup_cons in Hnd. destruct Hnd as [Hc0 Hnd].
    cbn [createBuckets]. unfold createBucketInMemory. run_monad. run_monad.
    set (w1 := {| limiter := {| buckets := <[c0 := _]> (buckets (limiter w));
                                defaultCap := _; defaultRate := _; storage := _ |};
                  ticks := Datatypes.S (ticks w); goroutines := goroutines w |}).
    specialize (IH w1 Hnd). cbn zeta in IH.
    destruct (createBuckets clk l w1) as [[] w'] eqn:Ec. cbn [snd] in *.
    destruct IH as (Ht & Hst & Hdc & Hdr & Hgo & Hout & Hin).
    cbn [w1 ticks limiter storage defaultCap defaultRate goroutines buckets] in *.
    cbn [length]. repeat split; try assumption; try lia.
    + intros c Hc. cbn [fmap list_fmap fst] in Hc. apply not_elem_of_cons in Hc.
      destruct Hc as [Hne Hc]. rewrite (Hout c Hc). apply lookup_insert_ne. congruence.
    + intros c limit Hcl. apply elem_of_cons in Hcl. destruct Hcl as [E|Hcl].
      * inversion E; subst c limit. exists (ticks w). split; [lia|].
        rewrite (Hout c0 Hc0). apply lookup_insert_eq.
      * destruct (Hin c limit Hcl) as (k & Hk & Ek). exists k. split; [lia|exact Ek].
Qed.

(** X6.  A new limiter holds one bucket for every record the store
    returns, full, with the limits of the record and stamped with one
    clock reading, and no other bucket; it holds no bucket at all when
    there is no store or when the store fails to load.  The store is left
    as it is and nothing is queued to be saved to it.  The constructor
    starts two goroutines, the refill loop (a turn every second) and the
    eviction loop (a turn every minute), whatever the store returned. *)
Theorem NewRateLimiter_warm_up (defaultCap0 : Z) (defaultRate0 : Q) (st : option S) :
  let w := fst (NewRateLimiter clk defaultCap0 defaultRate0 st) in
  let started := snd (NewRateLimiter clk defaultCap0 defaultRate0 st) in
  let loaded : gmap string storage.ClientLimit :=
    match st with
    | Some s => match storage.LoadAllClientLimits s with
                | (clientLimits, None) => clientLimits
                | (_, Some _) => ∅
                end
    | None => ∅
    end in
  (forall c,
      match loaded !! c with
      | Some limit =>
          exists k, (k < size loaded)%nat
            /\ buckets (limiter w) !! c
               = Some {| capacity := storage.Capacity limit;
                         tokens := storage.Capacity limit;
                         refillRate := storage.RefillRate limit;
                         lastRefill := clk k; lastAccess := clk k |}
      | None => buckets (limiter w) !! c = None
      end)
  /\ ticks w = size loaded
  /\ storage (limiter w) = st
  /\ defaultCap (limiter w) = defaultCap0
  /\ defaultRate (limiter w) = defaultRate0
  /\ goroutines w = []
  /\ started = [RefillTokensLoop; CleanupInactiveBucketsLoop]
  /\ map ticker_period started = [1 * Second; 60 * Second].
Proof.
  unfold NewRateLimiter. cbn [fst snd].
  destruct st as [s|];
    [|cbn; split; [intros c; rewrite !lookup_empty; reflexivity|repeat split]].
  unfold loadLimitsFromStorage. run_monad.
  destruct (storage.LoadAllClientLimits s) as [m [e|]];
    [cbn; split; [intros c; rewrite !lookup_empty; reflexivity|repeat split]|].
  set (w0 := {| limiter := _; ticks := 0%nat; goroutines := [] |}).
  pose proof (createBuckets_result (map_to_list m) w0 (NoDup_fst_map_to_list m)) as Hc.
  cbn zeta in Hc. destruct Hc as (Ht & Hst & Hdc & Hdr & Hgo & Hout & Hin).
  cbn zeta. rewrite Ht, Hst, Hdc, Hdr, Hgo. cbn [w0 ticks limiter storage defaultCap
    defaultRate goroutines]. rewrite length_map_to_list.
  split; [|repeat split].
  intros c. destruct (m !! c) as [limit|] eqn:Em.
  - apply elem_of_map_to_list in Em. destruct (Hin c limit Em) as (k & Hk & Ek).
    exists k. rewrite length_map_to_list in Hk. cbn [w0 ticks] in Hk. split; [lia|exact Ek].
  - rewrite Hout; [apply lookup_empty|].
    intros Hc. apply list_elem_of_fmap in Hc. destruct Hc as ([c' limit] & -> & Hc).
    apply elem_of_map_to_list in Hc. cbn in Em. congruence.
Qed.

End Table.

(** ** The two tickers *)

Section Tickers.

Import ratelimiter limiter_spec.

Context {S : Type} `{storage.Storage S}.
Variable clk : nat -> Z.

Local Ltac run_monad :=
  unfold bind, ret, get_limiter, set_buckets, set_storage, put_bucket, go, time_Now;
  cbn [fst snd limiter ticks goroutines buckets defaultCap defaultRate storage
       capacity tokens refillRate lastRefill lastAccess].

(** The bucket [Allow] leaves for its client carries the last clock
    reading taken as its [lastAccess]. *)
Lemma Allow_lastAccess clientID (w0 : World S) :
  let w := snd (Allow clk clientID w0) in
  exists b, buckets (limiter w) !! clientID = Some b
    /\ lastAccess b = clk (pred (ticks w)).
Proof.
  cbn zeta. rewrite Allow_after_getBucket.
  pose proof (getBucket_result clk clientID w0) as Hg.
  destruct (getBucket clk clientID w0) as [b w1]. cbn [snd].
  destruct Hg as (Hb & _). rewrite (Allow_existing clk clientID w1 b Hb).
  cbn -[insert lookup]. eexists. split; [apply lookup_insert_eq|reflexivity].
Qed.

(** X7.  One tick of the eviction ticker removes exactly the buckets whose
    last access is more than 30 minutes before the reading of the tick,
    and leaves every other bucket as it is; it does not touch the store
    and starts no goroutine.  In particular the bucket of a client is
    still there, unchanged, when the tick comes within 30 minutes of the
    client's last [Allow], whether that request was allowed or not. *)
Theorem cleanup_evicts_inactive_only (w : World S) :
  let now := clk (ticks w) in
  let w' := snd (cleanupInactiveBuckets clk w) in
  (forall c, buckets (limiter w') !! c
             = match buckets (limiter w) !! c with
               | Some b => if bool_decide (now - lastAccess b <= 30 * Minute)
                           then Some b else None
               | None => None
               end)
  /\ storage (limiter w') = storage (limiter w)
  /\ defaultCap (limiter w') = defaultCap (limiter w)
  /\ defaultRate (limiter w') = defaultRate (limiter w)
  /\ goroutines w' = goroutines w
  /\ ticks w' = Datatypes.S (ticks w)
  /\ (forall c w0, w = snd (Allow clk c w0) ->
        now - clk (pred (ticks w)) <= 30 * Minute ->
        is_Some (buckets (limiter w') !! c)
        /\ buckets (limiter w') !! c = buckets (limiter w) !! c).
Proof.
  cbn zeta. unfold cleanupInactiveBuckets. run_monad.
  assert (Hlook : forall c,
            filter (fun kb : string * TokenBucket =>
                      ¬ (clk (ticks w) - lastAccess (snd kb) > 30 * Minute))
                   (buckets (limiter w)) !! c
            = match buckets (limiter w) !! c with
              | Some b => if bool_decide (clk (ticks w) - lastAccess b <= 30 * Minute)
                          then Some b else None
              | None => None
              end).
  { intros c. destruct (buckets (limiter w) !! c) as [b|] eqn:E.
    - destruct (bool_decide (clk (ticks w) - lastAccess b <= 30 * Minute)) eqn:Ed.
      + apply bool_decide_eq_true in Ed. apply map_lookup_filter_Some. split; [exact E|].
        cbn [snd]. lia.
      + apply bool_decide_eq_false in Ed. apply map_lookup_filter_None. right.
        intros b' E'. rewrite E in E'. inversion E'; subst b'. cbn [snd]. lia.
    - apply map_lookup_filter_None. left. exact E. }
  split; [exact Hlook|]. do 5 (split; [reflexivity|]).
  intros c w0 Ew Hrecent. rewrite Hlook.
  destruct (Allow_lastAccess c w0) as (b & Eb & Hb).
  cbn zeta in Eb, Hb. rewrite <- Ew in Eb, Hb. rewrite Eb.
  rewrite bool_decide_eq_true_2 by (rewrite Hb; exact Hrecent). eauto.
Qed.

(** The loop of the refill ticker over distinct clients. *)
Lemma refillEach_result clients : forall (w : World S),
  NoDup clients ->
  (forall c, c ∈ clients -> is_Some (buckets (limiter w) !! c)) ->
  let w' := snd (refillEach clk clients w) in
  ticks w' = (ticks w + length clients)%nat
  /\ storage (limiter w') = storage (limiter w)
  /\ defaultCap (limiter w') = defaultCap (limiter w)
  /\ defaultRate (limiter w') = defaultRate (limiter w)
  /\ goroutines w' = goroutines w
  /\ (forall c, c ∉ clients -> buckets (limiter w') !! c = buckets (limiter w) !! c)
  /\ (forall c b, c ∈ clients -> buckets (limiter w) !! c = Some b ->
        exists k, (ticks w <= k < ticks w + length clients)%nat
          /\ buckets (limiter w') !! c = Some (refill_at (clk k) b)).
Proof.
  induction clients as [|c0 clients IH]; intros w Hnd Hall.
  - cbn. repeat split; try lia. intros c b Hin. apply elem_of_nil in Hin. contradiction.
  - apply NoDup_cons in Hnd. destruct Hnd as [Hc0 Hnd].
    destruct (Hall c0) as [b0 E0]; [left|].
    cbn [refillEach]. run_monad. rewrite E0. unfold refillBucket. run_monad.
    set (w1 := {| limiter := {| buckets := <[c0 := _]> (buckets (limiter w));
                                defaultCap := _; defaultRate := _; storage := _ |};
                  ticks := Datatypes.S (ticks w); goroutines := goroutines w |}).
    assert (Hall1 : forall c, c ∈ clients -> is_Some (buckets (limiter w1) !! c)).
    { intros c Hc. cbn -[insert lookup]. rewrite lookup_insert_ne by congruence.
      apply Hall. right. exact Hc. }
    specialize (IH w1 Hnd Hall1). cbn zeta in IH.
    destruct IH as (Ht & Hst & Hdc & Hdr & Hgo & Hout & Hin).
    cbn [w1 ticks limiter storage defaultCap defaultRate goroutines buckets] in *.
    cbn [length]. repeat split; try assumption; try lia.
    + intros c Hc. apply not_elem_of_cons in Hc. destruct Hc as [Hne Hc].
      rewrite (Hout c Hc). apply lookup_insert_ne. congruence.
    + intros c b Hc Eb. apply elem_of_cons in Hc. destruct Hc as [->|Hc].
      * rewrite E0 in Eb. inversion Eb; subst b0. exists (ticks w). split; [lia|].
        rewrite (Hout c0 Hc0). apply lookup_insert_eq.
      * assert (c <> c0) as Hne by congruence.
        destruct (Hin c b Hc) as (k & Hk & Ek).
        { rewrite lookup_insert_ne by congruence. exact Eb. }
        exists k. split; [lia|exact Ek].
Qed.

(** X8.  One tick of the refill ticker refills every bucket once, each at a
    clock reading of its own, and does nothing else: it creates and
    removes no bucket, leaves the limits and the last access of every
    bucket as they are (so the ticker does not keep a bucket from being
    evicted), and does not touch the store. *)
Theorem refillTokens_tick (w : World S) :
  let w' := snd (refillTokens clk w) in
  (forall c, match buckets (limiter w) !! c with
             | Some b =>
                 exists k, (ticks w <= k < ticks w')%nat
                   /\ buckets (limiter w') !! c = Some (refill_at (clk k) b)
                   /\ capacity (refill_at (clk k) b) = capacity b
                   /\ refillRate (refill_at (clk k) b) = refillRate b
                   /\ lastAccess (refill_at (clk k) b) = lastAccess b
             | None => buckets (limiter w') !! c = None
             end)
  /\ ticks w' = (ticks w + size (buckets (limiter w)))%nat
  /\ storage (limiter w') = storage (limiter w)
  /\ defaultCap (limiter w') = defaultCap (limiter w)
  /\ defaultRate (limiter w') = defaultRate (limiter w)
  /\ goroutines w' = goroutines w.
Proof.
  cbn zeta. unfold refillTokens. run_monad.
  assert (Hkeys : forall c, c ∈ (map_to_list (buckets (limiter w))).*1
                            <-> is_Some (buckets (limiter w) !! c)).
  { intros c. split.
    - intros Hc. apply list_elem_of_fmap in Hc. destruct Hc as ([c' b] & -> & Hc).
      apply elem_of_map_to_list in Hc. eauto.
    - intros [b Hb]. apply list_elem_of_fmap. exists (c, b). split; [reflexivity|].
      apply elem_of_map_to_list. exact Hb. }
  pose proof (refillEach_result (map fst (map_to_list (buckets (limiter w)))) w
                (NoDup_fst_map_to_list _) (fun c Hc => proj1 (Hkeys c) Hc)) as Hr.
  cbn zeta in Hr. destruct Hr as (Ht & Hst & Hdc & Hdr & Hgo & Hout & Hin).
  rewrite length_map, length_map_to_list in *.
  split; [|repeat split; assumption].
  intros c. destruct (buckets (limiter w) !! c) as [b|] eqn:Eb.
  - destruct (Hin c b) as (k & Hk & Ek); [apply Hkeys; rewrite Eb; eauto|exact Eb|].
    exists k. split; [rewrite Ht; lia|]. split; [exact Ek|].
    unfold refill_at. destruct (0 <? GoInt.of_float _); repeat split; reflexivity.
  - rewrite Hout; [exact Eb|]. intros Hc. apply Hkeys in Hc. rewrite Eb in Hc.
    destruct Hc as [? ?]. discriminate.
Qed.

(** X9.  [GetAllClients] lists the table: every client that has a bucket
    appears exactly once, with the capacity and the rate of its bucket,
    and nothing else appears; the call changes nothing.  The handler of
    [GET /clients] answers 200 with this list. *)
Theorem GetAllClients_lists_buckets (w : World S) :
  let '(clients, w') := GetAllClients w in
  w' = w
  /\ ListClientsHandler w = ((StatusOK, clients), w)
  /\ NoDup (map resp_ClientID clients)
  /\ length clients = size (buckets (limiter w))
  /\ forall r, r ∈ clients
       <-> exists b, buckets (limiter w) !! resp_ClientID r = Some b
             /\ resp_Capacity r = capacity b /\ resp_RefillRate r = refillRate b
             /\ resp_Message r = "".
Proof.
  unfold ListClientsHandler, GetAllClients. run_monad.
  split; [reflexivity|]. split; [reflexivity|]. split; [|split].
  - rewrite map_map. cbn [resp_ClientID]. apply (NoDup_fst_map_to_list (buckets (limiter w))).
  - rewrite length_map. apply length_map_to_list.
  - intros r. rewrite list_elem_of_fmap. split.
    + intros ([c b] & -> & Hin). apply elem_of_map_to_list in Hin.
      exists b. cbn. repeat split. exact Hin.
    + intros (b & Eb & Hc & Hr & Hm). exists (resp_ClientID r, b). split.
      * destruct r as [c cap rate msg]. cbn in *. subst. reflexivity.
      * apply elem_of_map_to_list. exact Eb.
Qed.

End Tickers.

(** ** The control API *)

Section ControlAPI.

Import ratelimiter limiter_spec.

Context {S : Type} `{storage.Storage S}.
Variable clk : nat -> Z.

Local Ltac run_monad :=
  unfold bind, ret, get_limiter, set_buckets, set_storage, put_bucket, go, time_Now;
  cbn [fst snd limiter ticks goroutines buckets defaultCap defaultRate storage
       capacity tokens refillRate lastRefill lastAccess].

Lemma GetClientHandler_lookup clientID (w : World S) :
  GetClientHandler clientID w
  = (match buckets (limiter w) !! clientID with
     | Some b => (StatusOK, Some (capacity b, refillRate b))
     | None => (StatusNotFound, None)
     end, w).
Proof.
  unfold GetClientHandler, GetClientLimit. run_monad.
  destruct (buckets (limiter w) !! clientID); reflexivity.
Qed.

Lemma UpdateClientHandler_unknown req clientID (w : World S) :
  buckets (limiter w) !! clientID = None ->
  UpdateClientHandler clk (Some req) clientID w = (StatusNotFound, w).
Proof.
  intros E. unfold UpdateClientHandler, GetClientLimit. run_monad. rewrite E. reflexivity.
Qed.

Lemma UpdateClientHandler_existing req clientID (w : World S) :
  is_Some (buckets (limiter w) !! clientID) ->
  UpdateClientHandler clk (Some req) clientID w
  = (StatusOK, snd (SetClientLimit clk clientID (req_Capacity req) (req_RefillRate req) w)).
Proof.
  intros [b E]. unfold UpdateClientHandler, GetClientLimit.
  unfold bind at 1 2. unfold get_limiter. rewrite E. unfold ret at 1. cbn [negb].
  unfold bind, ret. destruct (SetClientLimit clk clientID _ _ w) as [[] w1]. reflexivity.
Qed.

Lemma DeleteClientLimit_buckets clientID (w : World S) :
  buckets (limiter (snd (DeleteClientLimit clientID w)))
  = delete clientID (buckets (limiter w)).
Proof.
  unfold DeleteClientLimit. run_monad.
  destruct (storage (limiter w)) as [st|];
    [destruct (storage.DeleteClientLimit clientID st) as [err st']|]; reflexivity.
Qed.

(** X10.  The requests the control API rejects change nothing, neither in
    the table nor in the store: a body that cannot be decoded is answered
    with 400 by [POST] and by [PUT], a [POST] without [client_id] with
    400, and [PUT], [GET] and [DELETE] for a client that has no bucket
    with 404.  So [PUT] never creates a client, and [DELETE] leaves the
    record of a client whose bucket has been evicted in the store. *)
Theorem control_api_rejections
  (body : option ClientLimitRequest) (clientID : string) (w : World S) :
  CreateClientHandler clk None clientID w = (StatusBadRequest, w)
  /\ CreateClientHandler clk body "" w = (StatusBadRequest, w)
  /\ UpdateClientHandler clk None clientID w = (StatusBadRequest, w)
  /\ (buckets (limiter w) !! clientID = None ->
      UpdateClientHandler clk body clientID w
      = (match body with None => StatusBadRequest | Some _ => StatusNotFound end, w)
      /\ GetClientHandler clientID w = ((StatusNotFound, None), w)
      /\ DeleteClientHandler clientID w = (StatusNotFound, w)).
Proof.
  split; [reflexivity|]. split; [destruct body; reflexivity|]. split; [reflexivity|].
  intros E. split; [|split].
  - destruct body as [req|]; [apply UpdateClientHandler_unknown; exact E|reflexivity].
  - rewrite GetClientHandler_lookup, E. reflexivity.
  - apply DeleteClientHandler_unknown. exact E.
Qed.

(** X11.  A round trip through the control API.  After [POST] for a client
    (answered 201) [GET] answers 200 with the limits posted; after [PUT]
    (answered 200) [GET] answers 200 with the new limits, and the bucket
    holds the tokens it held before, cut down to the new capacity; after
    [DELETE] (answered 200, or 500 when the store fails) [GET] answers
    404: the bucket is gone in both cases. *)
Theorem control_api_round_trip
  (clientID : string) (req req' : ClientLimitRequest) (w : World S) :
  clientID <> "" ->
  let '(posted, w1) := CreateClientHandler clk (Some req) clientID w in
  let '(put, w2) := UpdateClientHandler clk (Some req') clientID w1 in
  let '(deleted, w3) := DeleteClientHandler clientID w2 in
  posted = StatusCreated
  /\ fst (GetClientHandler clientID w1)
     = (StatusOK, Some (req_Capacity req, req_RefillRate req))
  /\ put = StatusOK
  /\ fst (GetClientHandler clientID w2)
     = (StatusOK, Some (req_Capacity req', req_RefillRate req'))
  /\ (exists b1 b2, buckets (limiter w1) !! clientID = Some b1
        /\ buckets (limiter w2) !! clientID = Some b2
        /\ tokens b2 = Z.min (tokens b1) (req_Capacity req'))
  /\ (deleted = StatusOK \/ deleted = StatusInternalServerError)
  /\ fst (GetClientHandler clientID w3) = (StatusNotFound, None).
Proof.
  intros Hne. rewrite (CreateClientHandler_created clk clientID req w Hne).
  set (w1 := snd (SetClientLimit clk clientID (req_Capacity req) (req_RefillRate req) w)).
  destruct (SetClientLimit_buckets clk clientID (req_Capacity req) (req_RefillRate req) w)
    as [Hb1 _]. cbn zeta in Hb1. fold w1 in Hb1.
  assert (E1 : exists b1, buckets (limiter w1) !! clientID = Some b1
                 /\ capacity b1 = req_Capacity req /\ refillRate b1 = req_RefillRate req).
  { rewrite Hb1, lookup_insert_eq.
    destruct (buckets (limiter w) !! clientID); eexists; repeat split; reflexivity. }
  destruct E1 as (b1 & E1 & Hc1 & Hr1).
  rewrite (UpdateClientHandler_existing req' clientID w1) by (rewrite E1; eauto).
  set (w2 := snd (SetClientLimit clk clientID (req_Capacity req') (req_RefillRate req') w1)).
  destruct (SetClientLimit_buckets clk clientID (req_Capacity req') (req_RefillRate req') w1)
    as [Hb2 _]. cbn zeta in Hb2. fold w2 in Hb2. rewrite E1 in Hb2.
  assert (E2 : buckets (limiter w2) !! clientID
               = Some (reconfigure (req_Capacity req') (req_RefillRate req') b1)).
  { rewrite Hb2. apply lookup_insert_eq. }
  rewrite (DeleteClientHandler_existing clientID w2) by (rewrite E2; eauto).
  rewrite !GetClientHandler_lookup. cbn [fst].
  rewrite E1, E2, DeleteClientLimit_buckets, lookup_delete_eq, Hc1, Hr1.
  cbn [reconfigure capacity refillRate].
  repeat split.
  - exists b1, (reconfigure (req_Capacity req') (req_RefillRate req') b1).
    repeat split.
  - destruct (fst (DeleteClientLimit clientID w2)); [right|left]; reflexivity.
Qed.

End ControlAPI.

(** X12.  Deleting a client neither locks it out nor forgets it for good.
    With the in-memory store, after [DeleteClientLimit] the next [Allow]
    of the client installs a bucket with the default limits and starts
    the goroutine that saves them; once the goroutine has run, the
    store holds the default limits for the client again. *)
Theorem DeleteClientLimit_then_Allow
  (clk : nat -> Z) (clientID : string) (st : storage.MemoryStorage)
  (w : ratelimiter.World storage.MemoryStorage) :
  ratelimiter.storage (ratelimiter.limiter w) = Some st ->
  ratelimiter.goroutines w = [] ->
  let w1 := snd (ratelimiter.DeleteClientLimit clientID w) in
  let w2 := snd (ratelimiter.Allow clk clientID w1) in
  let w3 := snd (ratelimiter.run_goroutine w2) in
  ratelimiter.buckets (ratelimiter.limiter w1) !! clientID = None
  /\ (exists b, ratelimiter.buckets (ratelimiter.limiter w2) !! clientID = Some b
        /\ ratelimiter.capacity b = ratelimiter.defaultCap (ratelimiter.limiter w)
        /\ ratelimiter.refillRate b = ratelimiter.defaultRate (ratelimiter.limiter w))
  /\ ratelimiter.goroutines w2
     = [ratelimiter.mkSaveTask clientID (ratelimiter.defaultCap (ratelimiter.limiter w))
          (ratelimiter.defaultRate (ratelimiter.limiter w))]
  /\ ratelimiter.storage (ratelimiter.limiter w3)
     = Some {| storage.limits :=
                 <[clientID := storage.mkClientLimit
                                 (ratelimiter.defaultCap (ratelimiter.limiter w))
                                 (ratelimiter.defaultRate (ratelimiter.limiter w))]>
                   (storage.limits st) |}
  /\ ratelimiter.goroutines w3 = [].
Proof.
  intros Est Hgo. cbn zeta.
  set (w1 := snd (ratelimiter.DeleteClientLimit clientID w)).
  assert (Hw1 : w1 = {| ratelimiter.limiter :=
                          {| ratelimiter.buckets :=
                               delete clientID (ratelimiter.buckets (ratelimiter.limiter w));
                             ratelimiter.defaultCap := ratelimiter.defaultCap (ratelimiter.limiter w);
                             ratelimiter.defaultRate := ratelimiter.defaultRate (ratelimiter.limiter w);
                             ratelimiter.storage :=
                               Some {| storage.limits := delete clientID (storage.limits st) |} |};
                        ratelimiter.ticks := ratelimiter.ticks w;
                        ratelimiter.goroutines := [] |}).
  { subst w1. unfold ratelimiter.DeleteClientLimit, ratelimiter.bind, ratelimiter.ret,
      ratelimiter.get_limiter, ratelimiter.set_buckets, ratelimiter.set_storage.
    cbn -[delete]. rewrite Est. cbn -[delete]. rewrite Hgo. reflexivity. }
  clearbody w1. subst w1.
  split; [cbn -[delete lookup]; apply lookup_delete_eq|].
  unfold ratelimiter.Allow, ratelimiter.getBucket, ratelimiter.refillBucket,
    ratelimiter.bind, ratelimiter.ret, ratelimiter.get_limiter, ratelimiter.put_bucket,
    ratelimiter.set_buckets, ratelimiter.go, ratelimiter.time_Now.
  cbn -[insert delete lookup ratelimiter.refill_at Z.ltb GoInt.sub].
  rewrite !lookup_delete_eq.
  cbn -[insert delete lookup ratelimiter.refill_at Z.ltb GoInt.sub].
  set (b1 := ratelimiter.refill_at _ _).
  assert (Hb1 : ratelimiter.capacity b1 = ratelimiter.defaultCap (ratelimiter.limiter w)
                /\ ratelimiter.refillRate b1 = ratelimiter.defaultRate (ratelimiter.limiter w)).
  { subst b1. unfold ratelimiter.refill_at.
    destruct (0 <? GoInt.of_float _); split; reflexivity. }
  destruct Hb1 as [Hc1 Hr1]. clearbody b1.
  destruct (0 <? ratelimiter.tokens b1);
    cbn -[insert delete lookup GoInt.sub];
    rewrite lookup_insert_eq, insert_delete_eq;
    (split; [eexists; split; [reflexivity|split; [exact Hc1|exact Hr1]]|]);
    repeat split.
Qed.

(** ** Refill *)

Section Refill.

Import ratelimiter limiter_spec.

(** A bucket with rate zero is never refilled. *)
Lemma refill_at_zero_rate now b : (refillRate b == 0)%Q -> refill_at now b = b.
Proof.
  intros Hr. unfold refill_at.
  assert (E : GoInt.of_float (Float64.mul (Seconds (now - lastRefill b)) (refillRate b)) = 0).
  { unfold Float64.mul. rewrite round_zero; [reflexivity|]. rewrite Hr. ring. }
  rewrite E. reflexivity.
Qed.

Lemma refill_at_limits now b :
  capacity (refill_at now b) = capacity b
  /\ refillRate (refill_at now b) = refillRate b
  /\ lastAccess (refill_at now b) = lastAccess b.
Proof. unfold refill_at. destruct (0 <? GoInt.of_float _); repeat split. Qed.

Context {S : Type} `{storage.Storage S}.
Variable clk : nat -> Z.

(** [Allow] on a bucket that is never refilled. *)
Lemma Allow_zero_rate clientID (w : World S) b :
  buckets (limiter w) !! clientID = Some b ->
  (refillRate b == 0)%Q ->
  tokens b <= GoInt.maxInt ->
  let '(allowed, w') := Allow clk clientID w in
  allowed = (0 <? tokens b)
  /\ exists b', buckets (limiter w') !! clientID = Some b'
       /\ tokens b' = (if 0 <? tokens b then tokens b - 1 else tokens b)
       /\ refillRate b' = refillRate b /\ capacity b' = capacity b.
Proof.
  intros Eb Hr Hmax. rewrite (Allow_existing clk clientID w b Eb). cbn zeta.
  rewrite (refill_at_zero_rate _ b Hr). split; [reflexivity|].
  cbn -[insert lookup GoInt.sub]. rewrite lookup_insert_eq. eexists. split; [reflexivity|].
  cbn [tokens refillRate capacity]. repeat split.
  destruct (Z.ltb_spec 0 (tokens b)); [|reflexivity].
  unfold GoInt.sub. apply wrap_in_range. unfold GoInt.minInt, GoInt.maxInt in *. lia.
Qed.

Lemma step_Allow clientID (w : World S) :
  step clk (OpAllow clientID) w
  = (RAllow (fst (Allow clk clientID w)), snd (Allow clk clientID w)).
Proof. cbn [step]. unfold bind, ret. destruct (Allow clk clientID w). reflexivity. Qed.

(** X14.  Without refill the capacity is exact: of [n] consecutive calls of
    [Allow] for a client whose bucket has rate zero and holds [t] tokens,
    the first [t] return true and all later ones false, so exactly
    [min n t] requests are allowed (none when [t] is not positive), and
    the bucket is left with the tokens that were not used. *)
Theorem Allow_exact_without_refill (n : nat) (clientID : string) (w : World S) b :
  buckets (limiter w) !! clientID = Some b ->
  (refillRate b == 0)%Q ->
  tokens b <= GoInt.maxInt ->
  let ops := repeat (OpAllow clientID) n in
  let '(rs, w') := run clk ops w in
  rs = map (fun i : nat => RAllow (Z.of_nat i <? tokens b)) (seq 0 n)
  /\ allowed_count clientID ops rs = Z.to_nat (Z.min (Z.of_nat n) (Z.max 0 (tokens b)))
  /\ exists b', buckets (limiter w') !! clientID = Some b'
       /\ tokens b' = tokens b - Z.min (Z.of_nat n) (Z.max 0 (tokens b))
       /\ capacity b' = capacity b.
Proof.
  revert clientID w b. induction n as [|n IH]; intros clientID w b Eb Hr Hmax.
  - cbn [repeat run seq map allowed_count]. unfold ret.
    split; [reflexivity|]. split; [lia|].
    exists b. split; [exact Eb|]. split; [lia|reflexivity].
  - cbn zeta. cbn [repeat]. rewrite run_cons, step_Allow. cbn [fst snd].
    pose proof (Allow_zero_rate clientID w b Eb Hr Hmax) as Ha.
    destruct (Allow clk clientID w) as [allowed w1]. cbn [fst snd].
    destruct Ha as (-> & b1 & Eb1 & Ht1 & Hr1 & Hc1).
    assert (Hr1' : (refillRate b1 == 0)%Q) by (rewrite Hr1; exact Hr).
    assert (Hmax1 : tokens b1 <= GoInt.maxInt)
      by (rewrite Ht1; destruct (0 <? tokens b); lia).
    specialize (IH clientID w1 b1 Eb1 Hr1' Hmax1). cbn zeta in IH.
    destruct (run clk (repeat (OpAllow clientID) n) w1) as [rs w2]. cbn [fst snd].
    destruct IH as (-> & Hcount & b2 & Eb2 & Ht2 & Hc2).
    assert (Hshift : forall i : nat, (Z.of_nat i <? tokens b1) = (Z.of_nat (Datatypes.S i) <? tokens b)).
    { intros i. rewrite Ht1. destruct (Z.ltb_spec 0 (tokens b)).
      - destruct (Z.ltb_spec (Z.of_nat i) (tokens b - 1));
          destruct (Z.ltb_spec (Z.of_nat (Datatypes.S i)) (tokens b)); lia.
      - destruct (Z.ltb_spec (Z.of_nat i) (tokens b));
          destruct (Z.ltb_spec (Z.of_nat (Datatypes.S i)) (tokens b)); lia. }
    split; [|split].
    + cbn [seq map]. f_equal. rewrite <- seq_shift, map_map.
      apply map_ext. intros i. rewrite Hshift. reflexivity.
    + rewrite allowed_count_cons, Hcount. cbn [allowed_count].
      rewrite bool_decide_eq_true_2 by reflexivity. cbn [andb].
      rewrite Ht1. destruct (Z.ltb_spec 0 (tokens b)); lia.
    + exists b2. split; [exact Eb2|]. split; [|congruence].
      rewrite Ht2, Ht1. destruct (Z.ltb_spec 0 (tokens b)); lia.
Qed.

End Refill.

(** ** The filter in front of the balancer *)

Section Middleware.

Import ratelimiter limiter_spec.

Context {S : Type} `{storage.Storage S} {T : Type}.
Variable clk : nat -> Z.
Variable next : T -> outcome Z * T.

(** X15.  Requests over the limit never reach the handler behind the filter.
    Of [n] requests with the same API key and remote address, charged to
    a bucket that holds [t] tokens and is never refilled, the first [t]
    are passed on and answered by the handler, each on the state the
    previous one left; every later request is answered with 429 and
    leaves the state of the handler untouched.  The bucket charged is the
    one named by the API key, or by ["ip:"] and the remote address when
    the request has no key. *)
Theorem RateLimitMiddleware_blocks_over_limit
  (apiKey remoteAddr : string) (n : nat) (w : World S) (t : T) b :
  buckets (limiter w) !! (if bool_decide (apiKey = "") then "ip:" +:+ remoteAddr else apiKey)
  = Some b ->
  (refillRate b == 0)%Q ->
  tokens b <= GoInt.maxInt ->
  let passed := Z.to_nat (Z.max 0 (tokens b)) in
  let after (i : nat) := Nat.iter i (fun t => snd (next t)) t in
  let '(rs, st') := serve clk next apiKey remoteAddr n (w, t) in
  rs = map (fun i : nat => if (i <? passed)%nat then fst (next (after i))
                           else Ret StatusTooManyRequests) (seq 0 n)
  /\ snd st' = after (Nat.min n passed).
Proof.
  change (if bool_decide (apiKey = "") then "ip:" +:+ remoteAddr else apiKey)
    with (getClientID apiKey remoteAddr).
  revert w t b. induction n as [|n IH]; intros w t b Eb Hr Hmax; cbn zeta.
  - cbn. split; reflexivity.
  - cbn [serve]. unfold RateLimitMiddleware. cbn [fst snd].
    pose proof (Allow_zero_rate clk (getClientID apiKey remoteAddr) w b Eb Hr Hmax) as Ha.
    destruct (Allow clk (getClientID apiKey remoteAddr) w) as [allowed w1].
    destruct Ha as (-> & b1 & Eb1 & Ht1 & Hr1 & Hc1).
    assert (Hr1' : (refillRate b1 == 0)%Q) by (rewrite Hr1; exact Hr).
    assert (Hmax1 : tokens b1 <= GoInt.maxInt)
      by (rewrite Ht1; destruct (0 <? tokens b); lia).
    destruct (Z.ltb_spec 0 (tokens b)) as [Hpos|Hnp]; cbn [negb].
    + destruct (next t) as [r t1] eqn:En.
      specialize (IH w1 t1 b1 Eb1 Hr1' Hmax1). cbn zeta in IH.
      destruct (serve clk next apiKey remoteAddr n (w1, t1)) as [rs st2].
      destruct IH as [-> ->].
      assert (Ep : Z.to_nat (Z.max 0 (tokens b))
                   = Datatypes.S (Z.to_nat (Z.max 0 (tokens b1)))) by lia.
      rewrite Ep. split.
      * change (seq 0 (Datatypes.S n)) with (0%nat :: seq 1 n). rewrite map_cons.
        change (0 <? Datatypes.S (Z.to_nat (Z.max 0 (tokens b1))))%nat with true.
        cbn iota. simpl (Nat.iter 0 _ _). rewrite En. cbn [fst]. f_equal.
        rewrite <- seq_shift, map_map. apply map_ext. intros i.
        change (Datatypes.S i <? Datatypes.S (Z.to_nat (Z.max 0 (tokens b1))))%nat
          with (i <? Z.to_nat (Z.max 0 (tokens b1)))%nat.
        rewrite Nat.iter_succ_r, En. reflexivity.
      * cbn [snd]. rewrite <- Nat.succ_min_distr, Nat.iter_succ_r, En. reflexivity.
    + specialize (IH w1 t b1 Eb1 Hr1' Hmax1). cbn zeta in IH.
      destruct (serve clk next apiKey remoteAddr n (w1, t)) as [rs st2].
      destruct IH as [-> ->].
      assert (Ep : Z.to_nat (Z.max 0 (tokens b)) = 0%nat) by lia.
      assert (Ep1 : Z.to_nat (Z.max 0 (tokens b1)) = 0%nat) by lia.
      rewrite Ep, Ep1, !Nat.min_0_r. split; [|reflexivity].
      cbn [seq map]. f_equal. rewrite <- seq_shift, map_map. reflexivity.
Qed.

End Middleware.

(** ** Who writes to the store *)

Section StoreWrites.

Import ratelimiter limiter_spec.

Context {S : Type} `{storage.Storage S}.
Variable clk : nat -> Z.

Local Ltac run_monad :=
  unfold bind, ret, get_limiter, set_buckets, set_storage, put_bucket, go, time_Now;
  cbn [fst snd limiter ticks goroutines buckets defaultCap defaultRate storage
       capacity tokens refillRate lastRefill lastAccess].

(** What a step leaves alone: the defaults always, the store unless the
    step is an administrative change or a goroutine. *)
Local Abbreviation kept o w w' :=
  (defaultCap (limiter w') = defaultCap (limiter w)
   /\ defaultRate (limiter w') = defaultRate (limiter w)
   /\ (request_or_tick o = true -> storage (limiter w') = storage (limiter w))).

Lemma refillEach_keeps clients : forall (w : World S),
  let w' := snd (refillEach clk clients w) in
  defaultCap (limiter w') = defaultCap (limiter w)
  /\ defaultRate (limiter w') = defaultRate (limiter w)
  /\ storage (limiter w') = storage (limiter w).
Proof.
  induction clients as [|c0 clients IH]; intros w; [repeat split|].
  cbn zeta. cbn [refillEach]. run_monad.
  destruct (buckets (limiter w) !! c0) as [b0|]; [|run_monad; apply IH].
  unfold refillBucket. run_monad.
  set (w1 := {| limiter := {| buckets := <[c0 := _]> (buckets (limiter w));
                              defaultCap := _; defaultRate := _; storage := _ |};
                ticks := Datatypes.S (ticks w); goroutines := goroutines w |}).
  specialize (IH w1). cbn zeta in IH. exact IH.
Qed.

Lemma step_keeps (o : op) (w : World S) : kept o w (snd (step clk o w)).
Proof.
  destruct o as [c| | |c cap rate|c|c|]; cbn [step request_or_tick].
  - unfold bind, ret. destruct (Allow clk c w) as [r w1] eqn:EA. cbn [snd].
    replace w1 with (snd (Allow clk c w)) by (rewrite EA; reflexivity).
    rewrite Allow_after_getBucket.
    pose proof (getBucket_result clk c w) as Hg.
    destruct (getBucket clk c w) as [b w0]. cbn [snd] in *.
    destruct Hg as (Hb & _ & Hdc & Hdr & Hst & _).
    rewrite (Allow_existing clk c w0 b Hb). cbn [snd limiter defaultCap defaultRate storage].
    repeat split; congruence.
  - unfold bind, ret. destruct (refillTokens clk w) as [[] w1] eqn:ER. cbn [snd].
    replace w1 with (snd (refillTokens clk w)) by (rewrite ER; reflexivity).
    unfold refillTokens. run_monad.
    destruct (refillEach_keeps (map fst (map_to_list (buckets (limiter w)))) w)
      as (Hdc & Hdr & Hst).
    split; [exact Hdc|]. split; [exact Hdr|]. intros _. exact Hst.
  - unfold cleanupInactiveBuckets. run_monad. repeat split.
  - unfold bind, ret. destruct (SetClientLimit clk c cap rate w) as [[] w1] eqn:ES. cbn [snd].
    replace w1 with (snd (SetClientLimit clk c cap rate w)) by (rewrite ES; reflexivity).
    unfold SetClientLimit. run_monad.
    destruct (buckets (limiter w) !! c) as [b0|]; run_monad;
      (destruct (storage (limiter w)) as [st|];
       [destruct (storage.SaveClientLimit c cap rate st) as [err st']|];
       run_monad; repeat split; discriminate).
  - unfold bind, ret. destruct (GetClientLimit c w) as [r w1] eqn:EG. cbn [snd].
    pose proof (GetClientLimit_pure c w) as Hp. rewrite EG in Hp. cbn in Hp. subst w1.
    repeat split.
  - unfold bind, ret. destruct (DeleteClientLimit c w) as [e w1] eqn:ED. cbn [snd].
    replace w1 with (snd (DeleteClientLimit c w)) by (rewrite ED; reflexivity).
    unfold DeleteClientLimit. run_monad.
    destruct (storage (limiter w)) as [st|];
      [destruct (storage.DeleteClientLimit c st) as [err st']|];
      run_monad; repeat split; discriminate.
  - unfold bind, ret. destruct (run_goroutine w) as [[] w1] eqn:EG. cbn [snd].
    replace w1 with (snd (run_goroutine w)) by (rewrite EG; reflexivity).
    unfold run_goroutine. destruct (goroutines w) as [|t rest]; [repeat split; discriminate|].
    destruct (storage (limiter w)) as [st|]; [|repeat split; discriminate].
    destruct (storage.SaveClientLimit _ _ _ st) as [err st']. repeat split; discriminate.
Qed.

(** X16.  Nothing in a history changes the default limits, and the store is
    written by administrative changes and by the goroutines of [getBucket]
    only: along a history of requests ([Allow]), reads ([GetClientLimit])
    and ticks of the two tickers the store stays as it is, whatever
    buckets are created, refilled or evicted on the way. *)
Theorem store_written_by_admin_only (ops : list (op)) (w : World S) :
  let w' := snd (run clk ops w) in
  defaultCap (limiter w') = defaultCap (limiter w)
  /\ defaultRate (limiter w') = defaultRate (limiter w)
  /\ (forallb request_or_tick ops = true -> storage (limiter w') = storage (limiter w)).
Proof.
  revert w. induction ops as [|o ops IH]; intros w; [repeat split|].
  cbn zeta. rewrite run_cons. cbn [snd].
  destruct (step_keeps o w) as (Hdc & Hdr & Hst).
  specialize (IH (snd (step clk o w))). cbn zeta in IH. destruct IH as (Hdc' & Hdr' & Hst').
  split; [congruence|]. split; [congruence|].
  cbn [forallb]. intros Hall. apply andb_true_iff in Hall. destruct Hall as [Ho Hall].
  rewrite (Hst' Hall). apply Hst. exact Ho.
Qed.

End StoreWrites.

(** ** Configuration and start-up *)

Section Configuration.

Import config.


Lemma validate_fields c :
  validate c
  = if bool_decide (length (Backends c) = 0%nat) then inr NoBackends
    else
      let type := if bool_decide (Storage_Type c = "") then "memory" else Storage_Type c in
      inl (mkConfig
             (if bool_decide (Server_Port c = "") then "8080" else Server_Port c)
             (Backends c)
             (if bool_decide (HealthCheck_Endpoint c = "") then "/health"
              else HealthCheck_Endpoint c)
             (if HealthCheck_Interval c =? 0 then 5 * 1000000000 else HealthCheck_Interval c)
             (if bool_decide (Balancer_Algorithm c = "") then "round-robin"
              else Balancer_Algorithm c)
             (if RateLimit_Default_Capacity c =? 0 then 100 else RateLimit_Default_Capacity c)
             (if Qeq_bool (RateLimit_Default_RefillRate c) 0 then 10%Q
              else RateLimit_Default_RefillRate c)
             type
             (if bool_decide (type = "postgres") then postgres_defaults (Storage_Postgres c)
              else Storage_Postgres c)).
Proof.
  destruct c as [port backends endpoint interval alg cap rate type pg].
  unfold validate. cbn zeta.
  unfold default_Server_Port, set_Server_Port.
  cbn [Server_Port Backends HealthCheck_Endpoint HealthCheck_Interval Balancer_Algorithm
       RateLimit_Default_Capacity RateLimit_Default_RefillRate Storage_Type Storage_Postgres].
  destruct (bool_decide (port = ""));
    cbn [Server_Port Backends HealthCheck_Endpoint HealthCheck_Interval Balancer_Algorithm
         RateLimit_Default_Capacity RateLimit_Default_RefillRate Storage_Type Storage_Postgres];
    (destruct (bool_decide (length backends = 0%nat)); [reflexivity|]); f_equal;
    unfold default_HealthCheck_Endpoint, set_HealthCheck_Endpoint;
    cbn [Server_Port Backends HealthCheck_Endpoint HealthCheck_Interval Balancer_Algorithm
         RateLimit_Default_Capacity RateLimit_Default_RefillRate Storage_Type Storage_Postgres];
    destruct (bool_decide (endpoint = ""));
    unfold default_HealthCheck_Interval, set_HealthCheck_Interval;
    cbn [Server_Port Backends HealthCheck_Endpoint HealthCheck_Interval Balancer_Algorithm
         RateLimit_Default_Capacity RateLimit_Default_RefillRate Storage_Type Storage_Postgres];
    destruct (interval =? 0);
    unfold default_Balancer_Algorithm, set_Balancer_Algorithm;
    cbn [Server_Port Backends HealthCheck_Endpoint HealthCheck_Interval Balancer_Algorithm
         RateLimit_Default_Capacity RateLimit_Default_RefillRate Storage_Type Storage_Postgres];
    destruct (bool_decide (alg = ""));
    unfold default_Capacity, set_Capacity;
    cbn [Server_Port Backends HealthCheck_Endpoint HealthCheck_Interval Balancer_Algorithm
         RateLimit_Default_Capacity RateLimit_Default_RefillRate Storage_Type Storage_Postgres];
    destruct (cap =? 0);
    unfold default_RefillRate, set_RefillRate;
    cbn [Server_Port Backends HealthCheck_Endpoint HealthCheck_Interval Balancer_Algorithm
         RateLimit_Default_Capacity RateLimit_Default_RefillRate Storage_Type Storage_Postgres];
    destruct (Qeq_bool rate 0);
    unfold default_Storage_Type, set_Storage_Type;
    cbn [Server_Port Backends HealthCheck_Endpoint HealthCheck_Interval Balancer_Algorithm
         RateLimit_Default_Capacity RateLimit_Default_RefillRate Storage_Type Storage_Postgres];
    destruct (bool_decide (type = ""));
    unfold default_Storage_Postgres, set_Storage_Postgres;
    cbn [Server_Port Backends HealthCheck_Endpoint HealthCheck_Interval Balancer_Algorithm
         RateLimit_Default_Capacity RateLimit_Default_RefillRate Storage_Type Storage_Postgres];
    match goal with
    | |- context [bool_decide (?x = "postgres")] => destruct (bool_decide (x = "postgres"))
    end; reflexivity.
Qed.

Local Ltac by_cases :=
  repeat match goal with
    | |- context [bool_decide ?P] => destruct (bool_decide_reflect P)
    | |- context [?a =? 0] => destruct (Z.eqb_spec a 0)
    | |- context [Qeq_bool ?a 0] =>
        let E := fresh "E" in destruct (Qeq_bool a 0) eqn:E
    end.

(** The settings a validated configuration holds are never the zero
    values the defaults stand in for. *)
Lemma validate_ok_fields c c' :
  validate c = inl c' ->
  Backends c' = Backends c /\ Backends c' <> []
  /\ Server_Port c' <> "" /\ HealthCheck_Endpoint c' <> "" /\ HealthCheck_Interval c' <> 0
  /\ Balancer_Algorithm c' <> "" /\ RateLimit_Default_Capacity c' <> 0
  /\ ~ (RateLimit_Default_RefillRate c' == 0)%Q
  /\ Storage_Type c' <> "".
Proof.
  rewrite validate_fields. destruct (bool_decide_reflect (length (Backends c) = 0%nat)) as [|Hb];
    [discriminate|].
  cbn zeta. intros E. inversion E; subst c'. clear E.
  cbn [Server_Port Backends HealthCheck_Endpoint HealthCheck_Interval Balancer_Algorithm
       RateLimit_Default_Capacity RateLimit_Default_RefillRate Storage_Type Storage_Postgres].
  split; [reflexivity|]. split; [intros E; rewrite E in Hb; apply Hb; reflexivity|].
  repeat split; by_cases; try congruence; try lia.
  - intros Hq. discriminate Hq.
  - apply Qeq_bool_neq. assumption.
Qed.


End Configuration.

(** X18.  Start-up, as [main] wires it: the balancer is built from the
    backends and the algorithm of the loaded configuration.  With a
    configuration [LoadConfig] accepted, the pool of the balancer is never
    empty and has one healthy server for every backend listed; the
    constructor can still fail, on an address that does not parse or on
    an algorithm name the file gives and the balancer does not know, but
    never on an algorithm the file leaves out: that one is round
    robin. *)
Theorem accepted_config_builds_pool
  (url_Parse : string -> option string)
  (envConfig : string) (readFile : string -> config.file) (path : string)
  (c : config.Config) :
  config.LoadConfig envConfig readFile path = inl c ->
  exists raw,
    readFile (if bool_decide (envConfig = "") then path else envConfig) = config.Decoded raw
    /\ match balancer.NewLoadBalancer url_Parse (config.Backends c)
               (config.Balancer_Algorithm c) with
       | inl lb =>
           balancer.servers lb <> []
           /\ length (balancer.servers lb) = length (config.Backends raw)
           /\ Forall (fun s => balancer.Healthy s = true) (balancer.servers lb)
           /\ (config.Balancer_Algorithm raw = "" ->
               balancer.algorithm lb = balancer.UseRoundRobin balancer.NewRoundRobin)
       | inr (balancer.InvalidURL backend) =>
           backend ∈ config.Backends raw /\ url_Parse backend = None
       | inr (balancer.UnknownAlgorithm name) =>
           name = config.Balancer_Algorithm raw /\ name <> ""
           /\ name <> "round-robin" /\ name <> "least-connections"
       end.
Proof.
  unfold config.LoadConfig.
  replace (if bool_decide (envConfig <> "") then envConfig else path)
    with (if bool_decide (envConfig = "") then path else envConfig)
    by (destruct (bool_decide_reflect (envConfig = ""));
        [rewrite bool_decide_eq_false_2 by tauto|rewrite bool_decide_eq_true_2 by tauto];
        reflexivity).
  destruct (readFile (if bool_decide (envConfig = "") then path else envConfig))
    as [| |raw]; [discriminate|discriminate|].
  intros Ev. exists raw. split; [reflexivity|].
  destruct (validate_ok_fields raw c Ev) as (Hb & Hne & _).
  assert (Ealg : config.Balancer_Algorithm c
                 = if bool_decide (config.Balancer_Algorithm raw = "") then "round-robin"
                   else config.Balancer_Algorithm raw).
  { revert Ev. rewrite validate_fields.
    destruct (bool_decide (length (config.Backends raw) = 0%nat)); [discriminate|].
    cbn zeta. intros E. inversion E. reflexivity. }
  rewrite Ealg, Hb in *. clear Ealg Hb Ev.
  unfold balancer.NewLoadBalancer.
  pose proof (appendServers_result url_Parse (config.Backends raw) []) as Ha.
  destruct (balancer.appendServers url_Parse (config.Backends raw) []) as [pool|e].
  - destruct Ha as (added & -> & Hadd). rewrite app_nil_l.
    assert (Hpool : added <> [] /\ length added = length (config.Backends raw)
                    /\ Forall (fun s => balancer.Healthy s = true) added).
    { split; [|split].
      - intros ->. apply Forall2_nil_inv_r in Hadd. contradiction.
      - symmetry. eapply Forall2_length. exact Hadd.
      - clear -Hadd. induction Hadd as [|b s bs ss (_ & _ & Hh) _ IH]; constructor; assumption. }
    destruct Hpool as (Hp1 & Hp2 & Hp3).
    destruct (bool_decide_reflect (config.Balancer_Algorithm raw = "")) as [E0|E0].
    + rewrite bool_decide_eq_true_2 by reflexivity. cbn [balancer.servers balancer.algorithm].
      repeat split; assumption.
    + destruct (bool_decide_reflect (config.Balancer_Algorithm raw = "round-robin")).
      * cbn [balancer.servers balancer.algorithm]. repeat split; try assumption; contradiction.
      * destruct (bool_decide_reflect (config.Balancer_Algorithm raw = "least-connections")).
        -- cbn [balancer.servers balancer.algorithm]. repeat split; try assumption; contradiction.
        -- repeat split; assumption.
  - destruct Ha as (pre & backend & post & Eb & -> & Hnone & _).
    split; [|exact Hnone]. rewrite Eb. apply elem_of_app. right. left.
Qed.

(** ** Isolation of the clients *)

Section Isolation.

Import ratelimiter limiter_spec.

Context {S : Type} `{storage.Storage S}.
Variable clk : nat -> Z.



End Isolation.

(** ** The in-memory store *)

(** X20.  The in-memory store is a map from clients to limits.  No operation
    fails; a record saved for a client is the one [GetClientLimit] returns
    for it afterwards, whatever was stored before; a deleted record is
    reported as missing, and deleting twice is deleting once; saving and
    deleting leave the records of the other clients alone; and
    [LoadAllClientLimits] returns exactly the records [GetClientLimit]
    finds. *)
Theorem MemoryStorage_round_trips
  (s : storage.MemoryStorage) (clientID other : string) (capacity : Z) (refillRate : Q) :
  let '(saveErr, saved) := storage.SaveClientLimit clientID capacity refillRate s in
  let '(deleteErr, deleted) := storage.DeleteClientLimit clientID s in
  saveErr = None /\ deleteErr = None
  /\ storage.GetClientLimit clientID saved = (capacity, refillRate, true, None)
  /\ storage.GetClientLimit clientID deleted = (0, 0%Q, false, None)
  /\ storage.DeleteClientLimit clientID deleted = (None, deleted)
  /\ storage.DeleteClientLimit clientID saved = (None, deleted)
  /\ (other <> clientID ->
      storage.GetClientLimit other saved = storage.GetClientLimit other s
      /\ storage.GetClientLimit other deleted = storage.GetClientLimit other s)
  /\ snd (storage.LoadAllClientLimits s) = None
  /\ (forall c limit,
        fst (storage.LoadAllClientLimits s) !! c = Some limit
        <-> storage.GetClientLimit c s
            = (storage.Capacity limit, storage.RefillRate limit, true, None)).
Proof.
  cbn -[insert delete lookup]. split; [reflexivity|]. split; [reflexivity|].
  rewrite lookup_insert_eq, lookup_delete_eq, delete_delete_eq, delete_insert_eq.
  do 4 (split; [reflexivity|]). split; [|split; [reflexivity|]].
  - intros Hne. rewrite lookup_insert_ne, lookup_delete_ne by congruence.
    split; reflexivity.
  - intros c [cap rate]. cbn [storage.Capacity storage.RefillRate]. split.
    + intros ->. reflexivity.
    + destruct (storage.limits s !! c) as [[cap' rate']|]; [|discriminate].
      cbn. intros E. inversion E. reflexivity.
Qed.

(** ** The further properties at concrete inputs *)

(** Two servers, the probe of the first answered with 500: least
    connections does not pick the first. *)
Lemma failed_probe_not_picked_witness :
  let servers := [balancer.mkServer "http://b1" 0 true; balancer.mkServer "http://b2" 0 true] in
  let probes := fun i : nat =>
                  match i with O => balancer.Response 500 | _ => balancer.Response 200 end in
  fst (balancer.NextServer (balancer.UseLeastConnections balancer.NewLeastConnections)
         (balancer.checkServers probes servers).*1) <> Ret (Some 0%nat).
Proof.
  intros servers probes.
  apply (failed_probe_not_picked
           (balancer.UseLeastConnections balancer.NewLeastConnections) probes servers 0).
  unfold balancer_spec.failed, balancer.StatusOK. cbn. lia.
Defined.

(** Round robin from a fresh cursor over a pool whose first server is
    unhealthy. *)
Lemma ServeHTTP_availability_witness :
  let lb := {| balancer.servers := [balancer.mkServer "http://b1" 0 false;
                                    balancer.mkServer "http://b2" 0 true];
               balancer.algorithm := balancer.UseRoundRobin balancer.NewRoundRobin |} in
  let '(r, lb') := balancer.ServeHTTP (balancer.Forwarded 200) lb in
  balancer_spec.cursor_in_pool lb'
  /\ length (balancer.servers lb') = length (balancer.servers lb)
  /\ if existsb balancer.Healthy (balancer.servers lb)
     then r = Ret 200
     else r = Ret balancer.StatusServiceUnavailable
          /\ balancer.servers lb' = balancer.servers lb.
Proof.
  intros lb.
  apply (ServeHTTP_availability (balancer.Forwarded 200) lb).
  - unfold GoInt.maxInt. cbn. lia.
  - left. cbn. lia.
Defined.

(** A client is created with capacity 5, updated to capacity 2 and
    deleted. *)
Lemma control_api_round_trip_witness :
  let clk := fun k : nat => Z.of_nat k * 1000000 in
  let w := fst (ratelimiter.NewRateLimiter clk 100 10 (Some storage.NewMemoryStorage)) in
  let req := ratelimiter.mkClientLimitRequest 5 2 in
  let req' := ratelimiter.mkClientLimitRequest 2 1 in
  let '(posted, w1) := ratelimiter.CreateClientHandler clk (Some req) "u1" w in
  let '(put, w2) := ratelimiter.UpdateClientHandler clk (Some req') "u1" w1 in
  let '(deleted, w3) := ratelimiter.DeleteClientHandler "u1" w2 in
  posted = ratelimiter.StatusCreated
  /\ fst (ratelimiter.GetClientHandler "u1" w1)
     = (ratelimiter.StatusOK,
        Some (ratelimiter.req_Capacity req, ratelimiter.req_RefillRate req))
  /\ put = ratelimiter.StatusOK
  /\ fst (ratelimiter.GetClientHandler "u1" w2)
     = (ratelimiter.StatusOK,
        Some (ratelimiter.req_Capacity req', ratelimiter.req_RefillRate req'))
  /\ (exists b1 b2,
        ratelimiter.buckets (ratelimiter.limiter w1) !! "u1" = Some b1
        /\ ratelimiter.buckets (ratelimiter.limiter w2) !! "u1" = Some b2
        /\ ratelimiter.tokens b2
           = Z.min (ratelimiter.tokens b1) (ratelimiter.req_Capacity req'))
  /\ (deleted = ratelimiter.StatusOK \/ deleted = ratelimiter.StatusInternalServerError)
  /\ fst (ratelimiter.GetClientHandler "u1" w3) = (ratelimiter.StatusNotFound, None).
Proof.
  intros clk w req req'.
  apply (control_api_round_trip clk "u1" req req' w). discriminate.
Defined.

(** A client with its own limits is deleted and asks again. *)
Lemma DeleteClientLimit_then_Allow_witness :
  let clk := fun k : nat => Z.of_nat k * 1000000 in
  let st := {| storage.limits := {["u1" := storage.mkClientLimit 5 2]} |} in
  let w := {| ratelimiter.limiter :=
                {| ratelimiter.buckets := {["u1" := ratelimiter.mkTokenBucket 5 5 2 0 0]};
                   ratelimiter.defaultCap := 100; ratelimiter.defaultRate := 10;
                   ratelimiter.storage := Some st |};
              ratelimiter.ticks := 1; ratelimiter.goroutines := [] |} in
  let w1 := snd (ratelimiter.DeleteClientLimit "u1" w) in
  let w2 := snd (ratelimiter.Allow clk "u1" w1) in
  let w3 := snd (ratelimiter.run_goroutine w2) in
  ratelimiter.buckets (ratelimiter.limiter w1) !! "u1" = None
  /\ (exists b, ratelimiter.buckets (ratelimiter.limiter w2) !! "u1" = Some b
        /\ ratelimiter.capacity b = ratelimiter.defaultCap (ratelimiter.limiter w)
        /\ ratelimiter.refillRate b = ratelimiter.defaultRate (ratelimiter.limiter w))
  /\ ratelimiter.goroutines w2
     = [ratelimiter.mkSaveTask "u1" (ratelimiter.defaultCap (ratelimiter.limiter w))
          (ratelimiter.defaultRate (ratelimiter.limiter w))]
  /\ ratelimiter.storage (ratelimiter.limiter w3)
     = Some {| storage.limits :=
                 <["u1" := storage.mkClientLimit
                             (ratelimiter.defaultCap (ratelimiter.limiter w))
                             (ratelimiter.defaultRate (ratelimiter.limiter w))]>
                   (storage.limits st) |}
  /\ ratelimiter.goroutines w3 = [].
Proof.
  intros clk st w.
  apply (DeleteClientLimit_then_Allow clk "u1" st w); reflexivity.
Defined.

(** Four requests on a bucket of three tokens that is never refilled. *)
Lemma Allow_exact_without_refill_witness :
  let clk := fun k : nat => Z.of_nat k * 1000000 in
  let b := ratelimiter.mkTokenBucket 3 3 0 0 0 in
  let w := {| ratelimiter.limiter :=
                {| ratelimiter.buckets := {["u1" := b]};
                   ratelimiter.defaultCap := 100; ratelimiter.defaultRate := 10;
                   ratelimiter.storage := Some storage.NewMemoryStorage |};
              ratelimiter.ticks := 1; ratelimiter.goroutines := [] |} in
  let ops := repeat (ratelimiter.OpAllow "u1") 4 in
  let '(rs, w') := ratelimiter.run clk ops w in
  rs = map (fun i : nat => ratelimiter.RAllow (Z.of_nat i <? ratelimiter.tokens b)) (seq 0 4)
  /\ limiter_spec.allowed_count "u1" ops rs
     = Z.to_nat (Z.min (Z.of_nat 4) (Z.max 0 (ratelimiter.tokens b)))
  /\ exists b', ratelimiter.buckets (ratelimiter.limiter w') !! "u1" = Some b'
       /\ ratelimiter.tokens b'
          = ratelimiter.tokens b - Z.min (Z.of_nat 4) (Z.max 0 (ratelimiter.tokens b))
       /\ ratelimiter.capacity b' = ratelimiter.capacity b.
Proof.
  intros clk b w.
  apply (Allow_exact_without_refill clk 4 "u1" w b).
  - reflexivity.
  - reflexivity.
  - vm_compute. intros E. discriminate E.
Defined.

(** Three requests with the key [u1] on a bucket of two tokens, in front
    of a handler that counts its calls. *)
Lemma RateLimitMiddleware_blocks_over_limit_witness :
  let clk := fun k : nat => Z.of_nat k * 1000000 in
  let next := fun calls : nat => (Ret 200, Datatypes.S calls) in
  let b := ratelimiter.mkTokenBucket 2 2 0 0 0 in
  let w := {| ratelimiter.limiter :=
                {| ratelimiter.buckets := {["u1" := b]};
                   ratelimiter.defaultCap := 100; ratelimiter.defaultRate := 10;
                   ratelimiter.storage := Some storage.NewMemoryStorage |};
              ratelimiter.ticks := 1; ratelimiter.goroutines := [] |} in
  let passed := Z.to_nat (Z.max 0 (ratelimiter.tokens b)) in
  let after (i : nat) := Nat.iter i (fun t => snd (next t)) 0%nat in
  let '(rs, st') := limiter_spec.serve clk next "u1" "1.2.3.4:5678" 3 (w, 0%nat) in
  rs = map (fun i : nat => if (i <? passed)%nat then fst (next (after i))
                           else Ret ratelimiter.StatusTooManyRequests) (seq 0 3)
  /\ snd st' = after (Nat.min 3 passed).
Proof.
  intros clk next b w.
  apply (RateLimitMiddleware_blocks_over_limit clk next "u1" "1.2.3.4:5678" 3 w 0%nat b).
  - reflexivity.
  - reflexivity.
  - vm_compute. intros E. discriminate E.
Defined.

(** A file that lists one backend and nothing else. *)
Lemma accepted_config_builds_pool_witness :
  let empty := config.mkPostgresConfig "" 0 "" "" "" "" in
  let file := config.mkConfig "" ["http://b1:9001"] "" 0 "" 0 0 "" empty in
  let readFile := fun _ : string => config.Decoded file in
  let url_Parse := fun backend : string => Some backend in
  let c := config.mkConfig "8080" ["http://b1:9001"] "/health" 5000000000 "round-robin"
             100 10 "memory" empty in
  exists raw,
    readFile (if bool_decide ("" = "") then "config.yaml" else "") = config.Decoded raw
    /\ match balancer.NewLoadBalancer url_Parse (config.Backends c)
               (config.Balancer_Algorithm c) with
       | inl lb =>
           balancer.servers lb <> []
           /\ length (balancer.servers lb) = length (config.Backends raw)
           /\ Forall (fun s => balancer.Healthy s = true) (balancer.servers lb)
           /\ (config.Balancer_Algorithm raw = "" ->
               balancer.algorithm lb = balancer.UseRoundRobin balancer.NewRoundRobin)
       | inr (balancer.InvalidURL backend) =>
           backend ∈ config.Backends raw /\ url_Parse backend = None
       | inr (balancer.UnknownAlgorithm name) =>
           name = config.Balancer_Algorithm raw /\ name <> ""
           /\ name <> "round-robin" /\ name <> "least-connections"
       end.
Proof.
  intros empty file readFile url_Parse c.
  apply (accepted_config_builds_pool url_Parse "" readFile "config.yaml" c).
  reflexivity.
Defined.


(** ** A single healthy server *)

Section SingleServer.

Import balancer balancer_spec.

(** X21.  When exactly one server of the pool is healthy, both algorithms
    pick it, from the cursor of a new balancer and from every cursor a
    request leaves behind, and whatever the active counts are. *)
Theorem only_healthy_server_is_picked (lb : LoadBalancer Algorithm) (i : nat) (s : Server) :
  Z.of_nat (length (servers lb)) <= GoInt.maxInt ->
  cursor_in_pool lb ->
  servers lb !! i = Some s -> Healthy s = true ->
  (forall (j : nat) s', servers lb !! j = Some s' -> Healthy s' = true -> j = i) ->
  fst (getNextServer lb) = Ret (Some i).
Proof.
  intros Hlen Hcur Hs Hh Honly.
  pose proof (getNextServer_available lb Hlen Hcur) as Hg.
  assert (Ex : existsb Healthy (servers lb) = true).
  { apply existsb_Healthy. exists s. split; [eapply list_elem_of_lookup_2; exact Hs|exact Hh]. }
  assert (En : fst (getNextServer lb) = fst (NextServer (algorithm lb) (servers lb))).
  { unfold getNextServer. destruct (NextServer (algorithm lb) (servers lb)). reflexivity. }
  destruct (getNextServer lb) as [r lb1]. destruct Hg as (_ & _ & Hr).
  rewrite Ex in Hr. destruct Hr as [j ->]. cbn [fst] in *.
  symmetry in En. apply NextServer_healthy in En. destruct En as (s' & Es' & Hh').
  rewrite (Honly j s' Es' Hh'). reflexivity.
Qed.

End SingleServer.

(** ** The first request of a client *)

Section FirstSight.

Import ratelimiter limiter_spec.

Context {S : Type} `{storage.Storage S}.
Variable clk : nat -> Z.

Local Ltac run_monad :=
  unfold bind, ret, get_limiter, set_buckets, set_storage, put_bucket, go, time_Now;
  cbn [fst snd limiter ticks goroutines buckets defaultCap defaultRate storage
       capacity tokens refillRate lastRefill lastAccess].

(** X22.  The first request of a client that has no bucket is decided by
    the capacity of the bucket [getBucket] installs for it (the one of the
    store, or the default): it is allowed exactly when that capacity is
    positive, and it leaves a bucket with these limits and one token
    less than the capacity.  The time between the two clock readings of
    the call does not matter, as long as the tokens it is worth fit in an
    [int] on top of the capacity. *)
Theorem Allow_first_sight (clientID : string) (w : World S) :
  buckets (limiter w) !! clientID = None ->
  let bucket := fst (getBucket clk clientID w) in
  GoInt.minInt <= capacity bucket <= GoInt.maxInt ->
  Qfloor (Float64.mul (Seconds (clk (Datatypes.S (ticks w)) - clk (ticks w)))
                      (refillRate bucket))
  <= GoInt.maxInt - Z.max 0 (capacity bucket) ->
  let '(allowed, w') := Allow clk clientID w in
  allowed = (0 <? capacity bucket)
  /\ exists b', buckets (limiter w') !! clientID = Some b'
       /\ capacity b' = capacity bucket /\ refillRate b' = refillRate bucket
       /\ tokens b' = (if 0 <? capacity bucket then capacity bucket - 1
                       else capacity bucket).
Proof.
  intros Enone. cbn zeta. rewrite Allow_after_getBucket.
  pose proof (getBucket_result clk clientID w) as Hg.
  destruct (getBucket clk clientID w) as [bucket w1]. cbn [fst snd].
  destruct Hg as (Hb & _ & _ & _ & _ & Hnew). rewrite Enone in Hnew.
  destruct Hnew as (Htok & Hlast & Hticks).
  intros Hcap Hfloor.
  rewrite (Allow_existing clk clientID w1 bucket Hb). cbn zeta.
  rewrite Hticks.
  assert (Er : refill_at (clk (Datatypes.S (ticks w))) bucket
               = refill_with
                   (Qfloor (Float64.mul
                              (Seconds (clk (Datatypes.S (ticks w)) - lastRefill bucket))
                              (refillRate bucket)))
                   (clk (Datatypes.S (ticks w))) bucket).
  { apply refill_at_refill_with; rewrite ?Hlast, ?Htok; lia. }
  assert (Et : tokens (refill_at (clk (Datatypes.S (ticks w))) bucket) = capacity bucket).
  { rewrite Er. unfold refill_with. rewrite Hlast.
    destruct (Z.ltb_spec 0 (Qfloor (Float64.mul
                                      (Seconds (clk (Datatypes.S (ticks w)) - clk (ticks w)))
                                      (refillRate bucket))));
      cbn [tokens]; lia. }
  destruct (refill_at_limits (clk (Datatypes.S (ticks w))) bucket) as (Ec & Erate & _).
  rewrite Et. split; [reflexivity|].
  cbn -[insert lookup GoInt.sub]. rewrite lookup_insert_eq. eexists. split; [reflexivity|].
  cbn [capacity refillRate tokens]. rewrite Ec, Erate. repeat split.
  destruct (Z.ltb_spec 0 (capacity bucket)); [|reflexivity].
  unfold GoInt.sub. apply wrap_in_range. unfold GoInt.minInt, GoInt.maxInt in *. lia.
Qed.

(** X23.  Eviction forgets the bucket, not the limits.  When the eviction
    ticker removes the bucket of a client whose limits are in the store,
    the control API no longer knows the client ([DELETE] answers 404 and
    leaves the record in the store), and the next [getBucket] for the
    client installs a full bucket with the limits of the store, not the
    defaults, and starts no goroutine. *)
Theorem evicted_limits_are_reapplied
  (clientID : string) (w : World S) (b : TokenBucket) (st : S) (cap : Z) (rate : Q) :
  buckets (limiter w) !! clientID = Some b ->
  clk (ticks w) - lastAccess b > 30 * Minute ->
  storage (limiter w) = Some st ->
  storage.GetClientLimit clientID st = (cap, rate, true, None) ->
  let w1 := snd (cleanupInactiveBuckets clk w) in
  let '(bucket, w2) := getBucket clk clientID w1 in
  buckets (limiter w1) !! clientID = None
  /\ DeleteClientHandler clientID w1 = (StatusNotFound, w1)
  /\ storage (limiter w1) = Some st
  /\ bucket = {| capacity := cap; tokens := cap; refillRate := rate;
                 lastRefill := clk (ticks w1); lastAccess := clk (ticks w1) |}
  /\ buckets (limiter w2) !! clientID = Some bucket
  /\ goroutines w2 = goroutines w
  /\ storage (limiter w2) = Some st.
Proof.
  intros Eb Hold Est Eget. cbn zeta.
  set (w1 := snd (cleanupInactiveBuckets clk w)).
  assert (Hnone : buckets (limiter w1) !! clientID = None).
  { subst w1. unfold cleanupInactiveBuckets. run_monad.
    apply map_lookup_filter_None. right. intros b' Eb'. rewrite Eb in Eb'.
    inversion Eb'; subst b'. cbn [snd]. lia. }
  assert (Hst1 : storage (limiter w1) = Some st) by (subst w1; exact Est).
  assert (Hgo1 : goroutines w1 = goroutines w) by reflexivity.
  clearbody w1.
  unfold getBucket. run_monad. rewrite Hnone, Hst1, Eget. run_monad.
  cbn -[insert lookup]. rewrite lookup_insert_eq.
  split; [reflexivity|]. split; [apply DeleteClientHandler_unknown; exact Hnone|].
  repeat split; assumption.
Qed.

End FirstSight.

(** A pool of three servers of which the second is healthy, with least
    connections. *)
Lemma only_healthy_server_is_picked_witness :
  let lb := {| balancer.servers := [balancer.mkServer "http://b1" 0 false;
                                    balancer.mkServer "http://b2" 7 true;
                                    balancer.mkServer "http://b3" 0 false];
               balancer.algorithm :=
                 balancer.UseLeastConnections balancer.NewLeastConnections |} in
  fst (balancer.getNextServer lb) = Ret (Some 1%nat).
Proof.
  intros lb.
  apply (only_healthy_server_is_picked lb 1 (balancer.mkServer "http://b2" 7 true)).
  - unfold GoInt.maxInt. cbn. lia.
  - exact I.
  - reflexivity.
  - reflexivity.
  - intros [|[|[|j]]] s' E Hh; cbn in E; inversion E; subst s'; cbn in Hh;
      try discriminate; reflexivity.
Defined.

(** The first request of an unknown client on a new limiter with the
    default capacity 100. *)
Lemma Allow_first_sight_witness :
  let clk := fun k : nat => Z.of_nat k * 1000000 in
  let w := fst (ratelimiter.NewRateLimiter clk 100 10 (Some storage.NewMemoryStorage)) in
  let bucket := fst (ratelimiter.getBucket clk "ip:1.2.3.4:5678" w) in
  let '(allowed, w') := ratelimiter.Allow clk "ip:1.2.3.4:5678" w in
  allowed = (0 <? ratelimiter.capacity bucket)
  /\ exists b', ratelimiter.buckets (ratelimiter.limiter w') !! "ip:1.2.3.4:5678" = Some b'
       /\ ratelimiter.capacity b' = ratelimiter.capacity bucket
       /\ ratelimiter.refillRate b' = ratelimiter.refillRate bucket
       /\ ratelimiter.tokens b'
          = (if 0 <? ratelimiter.capacity bucket then ratelimiter.capacity bucket - 1
             else ratelimiter.capacity bucket).
Proof.
  intros clk w.
  apply (Allow_first_sight clk "ip:1.2.3.4:5678" w).
  - reflexivity.
  - vm_compute. split; intros E; discriminate E.
  - vm_compute. intros E. discriminate E.
Defined.

(** A client with the stored limits (5, 2), idle for more than half an
    hour. *)
Lemma evicted_limits_are_reapplied_witness :
  let clk := fun k : nat => Z.of_nat k * 2000000000000 in
  let st := {| storage.limits := {["u1" := storage.mkClientLimit 5 2]} |} in
  let w := {| ratelimiter.limiter :=
                {| ratelimiter.buckets := {["u1" := ratelimiter.mkTokenBucket 5 0 2 0 0]};
                   ratelimiter.defaultCap := 100; ratelimiter.defaultRate := 10;
                   ratelimiter.storage := Some st |};
              ratelimiter.ticks := 1; ratelimiter.goroutines := [] |} in
  let w1 := snd (ratelimiter.cleanupInactiveBuckets clk w) in
  let '(bucket, w2) := ratelimiter.getBucket clk "u1" w1 in
  ratelimiter.buckets (ratelimiter.limiter w1) !! "u1" = None
  /\ ratelimiter.DeleteClientHandler "u1" w1 = (ratelimiter.StatusNotFound, w1)
  /\ ratelimiter.storage (ratelimiter.limiter w1) = Some st
  /\ bucket = {| ratelimiter.capacity := 5; ratelimiter.tokens := 5;
                 ratelimiter.refillRate := 2;
                 ratelimiter.lastRefill := clk (ratelimiter.ticks w1);
                 ratelimiter.lastAccess := clk (ratelimiter.ticks w1) |}
  /\ ratelimiter.buckets (ratelimiter.limiter w2) !! "u1" = Some bucket
  /\ ratelimiter.goroutines w2 = ratelimiter.goroutines w
  /\ ratelimiter.storage (ratelimiter.limiter w2) = Some st.
Proof.
  intros clk st w.
  apply (evicted_limits_are_reapplied clk "u1" w (ratelimiter.mkTokenBucket 5 0 2 0 0) st 5 2).
  - reflexivity.
  - vm_compute. reflexivity.
  - reflexivity.
  - reflexivity.
Defined.
